(** * Sunlight optics core: a shallow embedding of [optics.ts]

    The engine of [packages/optics-core/src/optics.ts] (the single-lens
    revision with lens transmittance and ABCD matrices) is embedded here
    function by function.

    Numbers.  A TypeScript [number] is read in two ways.  For the algebra of
    the engine it is a real number of the Standard Library: [Math.cos],
    [Math.tan], [Math.acos], [Math.sqrt], [Math.abs], [Math.max], [Math.min]
    and [Math.PI] become [cos], [tan], [acos], [sqrt], [Rabs], [Rmax], [Rmin]
    and [PI]; [Math.pow (x, 2)] becomes [x ^ 2].  Rounding, infinities and NaN
    are outside this reading; in [R] a division by zero is the total
    [x * / 0] with [/ 0 = 0].  Where rounding or the special values decide
    what the code does (the counter of the sweep, a focal length of 0, the
    arc cosine at circles that touch), the engine is embedded a second time,
    in [Module Double], on the binary64 numbers of the kernel.

    Control.  A comparison used as a loop or branch condition is the
    corresponding decision ([Rle_dec], [Rlt_dec], [Req_dec_T]).  The one loop
    without a static bound, in [sweepAngle], runs on fuel; reading a property
    of [undefined] (a [TypeError]) is the outcome [Raised]. *)

From Stdlib Require Import Reals Lra Lia List String Bool ZArith DecimalString.
From Stdlib Require Import Ascii Permutation.
From Stdlib Require Floats.
Import ListNotations.
Local Open Scope R_scope.
Set Warnings "-inexact-float".

(** ** Data model ([types.ts]) *)

Module Lens.
Record t : Type := mk {
  id : string;
  aperture : R;
  focalLength : R;
  position : R;
  transmittance : R
}.
End Lens.

Inductive PVShape : Type := rectangular | circular.

Module PV.
Record t : Type := mk {
  shape : PVShape;
  width : R;
  height : R;
  diameter : R;
  efficiency : R;
  position : R
}.
End PV.

Module Light.
Record t : Type := mk {
  intensity : R;
  zenithAngle : R
}.
End Light.

Module Sys.
Record t : Type := mk {
  lenses : list Lens.t;
  pv : PV.t
}.
End Sys.

(** [RayTraceResult]; the optional [rayPath] is never written by the engine
    and is left out. *)
Module Trace.
Record t : Type := mk {
  spotDiameter : R;
  spotArea : R;
  spotCenterY : R;
  spotCenterZ : R;
  effectiveArea : R;
  concentrationRatio : R;
  isValid : bool;
  outputAngle : R;
  totalTransmittance : R
}.
End Trace.

Module Power.
Record t : Type := mk {
  inputPower : R;
  outputPower : R;
  spotDiameter : R;
  effectiveArea : R;
  concentrationRatio : R;
  systemEfficiency : R;
  isValid : bool
}.
End Power.

Module Sweep.
Record t : Type := mk {
  angle : R;
  power : R;
  efficiency : R
}.
End Sweep.

Definition Lens := Lens.t.
Definition PhotovoltaicCell := PV.t.
Definition LightSource := Light.t.
Definition OpticalSystem := Sys.t.
Definition RayTraceResult := Trace.t.
Definition PowerCalculationResult := Power.t.
Definition AngleSweepResult := Sweep.t.

(** [[[a, b], [c, d]]] *)
Definition ABCDMatrix : Type := (R * R) * (R * R).

(** What a call can do: return a value, raise, or still be running when the
    fuel is spent. *)
Inductive outcome (A : Type) : Type :=
  | Done (a : A)
  | Raised
  | OutOfFuel.
Arguments Done {A} a.
Arguments Raised {A}.
Arguments OutOfFuel {A}.

Definition DEFAULT_SOLAR_INTENSITY : R := 1361.

(** ** Angle utilities *)

Definition degToRad (degrees : R) : R := (degrees * PI) / 180.

Definition radToDeg (radians : R) : R := (radians * 180) / PI.

(** ** ABCD matrix model *)

Definition createLensMatrix (focalLength : R) : ABCDMatrix :=
  ((1, 0), (-1 / focalLength, 1)).

Definition createPropagationMatrix (distance : R) : ABCDMatrix :=
  ((1, distance), (0, 1)).

Definition multiplyMatrices (m1 m2 : ABCDMatrix) : ABCDMatrix :=
  let '((a1, b1), (c1, d1)) := m1 in
  let '((a2, b2), (c2, d2)) := m2 in
  let a := a1 * a2 + b1 * c2 in
  let b := a1 * b2 + b1 * d2 in
  let c := c1 * a2 + d1 * c2 in
  let d := c1 * b2 + d1 * d2 in
  ((a, b), (c, d)).

Definition identityMatrix : ABCDMatrix := ((1, 0), (0, 1)).

(** [[...lenses].sort((a, b) => a.position - b.position)]: a stable sort,
    ascending by position. *)
Fixpoint insertByPosition (l : Lens) (ls : list Lens) : list Lens :=
  match ls with
  | [] => [l]
  | h :: t =>
      if Rle_dec (Lens.position l) (Lens.position h)
      then l :: h :: t
      else h :: insertByPosition l t
  end.

Definition sortByPosition (ls : list Lens) : list Lens :=
  fold_right insertByPosition [] ls.

(** One turn of the [for] loop of [buildSystemMatrix], on the pair
    [(systemMatrix, currentPosition)]. *)
Definition buildStep (st : ABCDMatrix * R) (lens : Lens) : ABCDMatrix * R :=
  let '(systemMatrix, currentPosition) := st in
  let systemMatrix1 :=
    if Rlt_dec currentPosition (Lens.position lens)
    then multiplyMatrices
           (createPropagationMatrix (Lens.position lens - currentPosition))
           systemMatrix
    else systemMatrix in
  (multiplyMatrices (createLensMatrix (Lens.focalLength lens)) systemMatrix1,
   Lens.position lens).

Definition buildSystemMatrix (lenses : list Lens) (pvPosition : R) : ABCDMatrix :=
  match sortByPosition lenses with
  | [] => identityMatrix
  | first :: rest =>
      let sortedLenses := first :: rest in
      let systemMatrix := fst (fold_left buildStep sortedLenses (identityMatrix, 0)) in
      let lastLens := last sortedLenses first in
      if Rlt_dec (Lens.position lastLens) pvPosition
      then multiplyMatrices
             (createPropagationMatrix (pvPosition - Lens.position lastLens))
             systemMatrix
      else systemMatrix
  end.

Definition calculateOutputAngle
  (systemMatrix : ABCDMatrix) (inputAngleRad inputPosition : R) : R :=
  let y_in := inputPosition in
  let theta_in := inputAngleRad in
  let C := fst (snd systemMatrix) in
  let D := snd (snd systemMatrix) in
  C * y_in + D * theta_in.

(** ** Spot model *)

Definition calculateEffectiveAperture (aperture zenithAngle : R) : R :=
  let angleRad := degToRad zenithAngle in
  aperture * cos angleRad.

Definition calculatePVArea (pv : PhotovoltaicCell) : R :=
  match PV.shape pv with
  | circular => PI * (PV.diameter pv / 2) ^ 2
  | rectangular => PV.width pv * PV.height pv
  end.

Definition calculateSpotDiameterSingleLens
  (lens : Lens) (pvPosition zenithAngle : R) : R :=
  let effectiveAperture := calculateEffectiveAperture (Lens.aperture lens) zenithAngle in
  let distanceFromLensToPV := pvPosition - Lens.position lens in
  if Rle_dec distanceFromLensToPV 0 then effectiveAperture
  else if Req_dec_T distanceFromLensToPV (Lens.focalLength lens) then 0
  else
    let ratio :=
      Rabs (distanceFromLensToPV - Lens.focalLength lens) / Lens.focalLength lens in
    effectiveAperture * ratio.

(** ** Overlap geometry *)

Definition calculateOverlapArea
  (pv : PhotovoltaicCell) (spotCenterY spotCenterZ spotRadius : R) : R :=
  match PV.shape pv with
  | circular =>
      let pvRadius := PV.diameter pv / 2 in
      let distance := sqrt (spotCenterY * spotCenterY + spotCenterZ * spotCenterZ) in
      if Rge_dec distance (spotRadius + pvRadius) then 0
      else if Rle_dec distance (Rabs (spotRadius - pvRadius)) then
        let smallerRadius := Rmin spotRadius pvRadius in
        PI * smallerRadius * smallerRadius
      else
        let r1 := spotRadius in
        let r2 := pvRadius in
        let d := distance in
        let part1 := r1 * r1 * acos ((d * d + r1 * r1 - r2 * r2) / (2 * d * r1)) in
        let part2 := r2 * r2 * acos ((d * d + r2 * r2 - r1 * r1) / (2 * d * r2)) in
        let part3 :=
          0.5 * sqrt ((- d + r1 + r2) * (d + r1 - r2) * (d - r1 + r2) * (d + r1 + r2)) in
        part1 + part2 - part3
  | rectangular =>
      let halfWidth := PV.width pv / 2 in
      let halfHeight := PV.height pv / 2 in
      let left := Rmax (- halfWidth) (spotCenterZ - spotRadius) in
      let right := Rmin halfWidth (spotCenterZ + spotRadius) in
      let bottom := Rmax (- halfHeight) (spotCenterY - spotRadius) in
      let top := Rmin halfHeight (spotCenterY + spotRadius) in
      if orb (if Rge_dec left right then true else false)
             (if Rge_dec bottom top then true else false)
      then 0
      else
        let overlapWidth := right - left in
        let overlapHeight := top - bottom in
        let rectOverlap := overlapWidth * overlapHeight in
        let spotArea := PI * spotRadius * spotRadius in
        let overlapCenterY := (bottom + top) / 2 in
        let overlapCenterZ := (left + right) / 2 in
        let distFromSpotCenter :=
          sqrt ((overlapCenterY - spotCenterY) ^ 2 + (overlapCenterZ - spotCenterZ) ^ 2) in
        if Rlt_dec distFromSpotCenter (spotRadius * 0.5)
        then Rmin rectOverlap spotArea
        else Rmin (rectOverlap * 0.785) spotArea
  end.

(** ** Ray trace of the single-lens system *)

Definition invalidTrace (zenithAngle : R) : RayTraceResult :=
  {| Trace.spotDiameter := 0;
     Trace.spotArea := 0;
     Trace.spotCenterY := 0;
     Trace.spotCenterZ := 0;
     Trace.effectiveArea := 0;
     Trace.concentrationRatio := 0;
     Trace.isValid := false;
     Trace.outputAngle := zenithAngle;
     Trace.totalTransmittance := 0 |}.

Definition traceRaysThroughSystem
  (system : OpticalSystem) (zenithAngle : R) : RayTraceResult :=
  let pv := Sys.pv system in
  let inputAngleRad := degToRad zenithAngle in
  match Sys.lenses system with
  | [lens] =>
      let systemMatrix := buildSystemMatrix [lens] (PV.position pv) in
      let outputAngleRad := calculateOutputAngle systemMatrix inputAngleRad 0 in
      let totalTransmittance := Lens.transmittance lens in
      let distanceToPV := PV.position pv - Lens.position lens in
      let focalShiftY := Lens.focalLength lens * tan inputAngleRad in
      let t := distanceToPV / Lens.focalLength lens in
      let spotCenterY := focalShiftY * t in
      let spotCenterZ := 0 in
      let spotDiameter :=
        Rmax (calculateSpotDiameterSingleLens lens (PV.position pv) zenithAngle) 0.001 in
      let spotArea := PI * (spotDiameter / 2) ^ 2 in
      let spotRadius := spotDiameter / 2 in
      let effectiveArea := calculateOverlapArea pv spotCenterY spotCenterZ spotRadius in
      let inputAperture := Lens.aperture lens in
      let inputArea := PI * (inputAperture / 2) ^ 2 in
      let concentrationRatio :=
        if Rlt_dec 0 spotArea then inputArea / spotArea else 0 in
      {| Trace.spotDiameter := spotDiameter;
         Trace.spotArea := spotArea;
         Trace.spotCenterY := spotCenterY;
         Trace.spotCenterZ := spotCenterZ;
         Trace.effectiveArea := effectiveArea;
         Trace.concentrationRatio := concentrationRatio;
         Trace.isValid := true;
         Trace.outputAngle := radToDeg outputAngleRad;
         Trace.totalTransmittance := totalTransmittance |}
  | _ => invalidTrace zenithAngle
  end.

(** ** Power and efficiency *)

Definition invalidPower : PowerCalculationResult :=
  {| Power.inputPower := 0;
     Power.outputPower := 0;
     Power.spotDiameter := 0;
     Power.effectiveArea := 0;
     Power.concentrationRatio := 0;
     Power.systemEfficiency := 0;
     Power.isValid := false |}.

(** [system.lenses[0]] is [nth_error]; reading [.aperture] of [undefined]
    raises. *)
Definition calculatePower
  (system : OpticalSystem) (lightSource : LightSource)
  : outcome PowerCalculationResult :=
  let rayTrace := traceRaysThroughSystem system (Light.zenithAngle lightSource) in
  if negb (Trace.isValid rayTrace) then Done invalidPower
  else
    match nth_error (Sys.lenses system) 0 with
    | None => Raised
    | Some lens =>
        let effectiveInputAperture :=
          calculateEffectiveAperture (Lens.aperture lens) (Light.zenithAngle lightSource) in
        let inputArea := PI * (effectiveInputAperture / 2) ^ 2 in
        let inputPower := Light.intensity lightSource * inputArea in
        let outputAngleRad := degToRad (Trace.outputAngle rayTrace) in
        let incidenceCosFactor := Rmax 0 (cos outputAngleRad) in
        let concentrationFactor := Trace.concentrationRatio rayTrace in
        let I_optical := Light.intensity lightSource * Trace.totalTransmittance rayTrace in
        let I_effective := I_optical * concentrationFactor * incidenceCosFactor in
        let P_incident := I_effective * Trace.effectiveArea rayTrace in
        let outputPower := P_incident * PV.efficiency (Sys.pv system) in
        let systemEfficiency :=
          if Rlt_dec 0 inputPower then outputPower / inputPower else 0 in
        Done {| Power.inputPower := inputPower;
                Power.outputPower := outputPower;
                Power.spotDiameter := Trace.spotDiameter rayTrace;
                Power.effectiveArea := Trace.effectiveArea rayTrace;
                Power.concentrationRatio := Trace.concentrationRatio rayTrace;
                Power.systemEfficiency := systemEfficiency;
                Power.isValid := true |}
    end.

(** ** Angle sweep *)

(** The [for] loop of [sweepAngle] from the state [(angle, results)]: each
    unit of fuel pays for one test of [angle <= endAngle]. *)
Fixpoint sweepLoop (fuel : nat) (system : OpticalSystem)
  (intensity endAngle step angle : R) (results : list AngleSweepResult)
  : outcome (list AngleSweepResult) :=
  match fuel with
  | O => OutOfFuel
  | S fuel' =>
      if Rle_dec angle endAngle then
        let lightSource := {| Light.intensity := intensity; Light.zenithAngle := angle |} in
        match calculatePower system lightSource with
        | Done powerResult =>
            sweepLoop fuel' system intensity endAngle step (angle + step)
              (results ++ [ {| Sweep.angle := angle;
                               Sweep.power := Power.outputPower powerResult;
                               Sweep.efficiency := Power.systemEfficiency powerResult |} ])
        | Raised => Raised
        | OutOfFuel => OutOfFuel
        end
      else Done results
  end.

Definition sweepAngle (fuel : nat) (system : OpticalSystem)
  (intensity startAngle endAngle step : R) : outcome (list AngleSweepResult) :=
  sweepLoop fuel system intensity endAngle step startAngle [].

(** ** Validation *)

Definition pushIf {P Q : Prop} (c : {P} + {Q}) (msg : string) (errors : list string)
  : list string :=
  if c then errors ++ [msg] else errors.

Definition validateLens (lens : Lens) : list string :=
  let errors := [] in
  let errors := pushIf (Rle_dec (Lens.aperture lens) 0) "Aperture must be positive" errors in
  let errors := pushIf (Rle_dec (Lens.focalLength lens) 0) "Focal length must be positive" errors in
  let errors := pushIf (Rlt_dec (Lens.position lens) 0) "Position cannot be negative" errors in
  let errors :=
    if orb (if Rlt_dec (Lens.transmittance lens) 0 then true else false)
           (if Rlt_dec 1 (Lens.transmittance lens) then true else false)
    then errors ++ ["Transmittance must be between 0 and 1"%string] else errors in
  errors.

Definition validatePV (pv : PhotovoltaicCell) : list string :=
  let errors := [] in
  let errors :=
    match PV.shape pv with
    | rectangular =>
        let errors := pushIf (Rle_dec (PV.width pv) 0) "Width must be positive" errors in
        pushIf (Rle_dec (PV.height pv) 0) "Height must be positive" errors
    | circular =>
        pushIf (Rle_dec (PV.diameter pv) 0) "Diameter must be positive" errors
    end in
  let errors :=
    if orb (if Rle_dec (PV.efficiency pv) 0 then true else false)
           (if Rlt_dec 1 (PV.efficiency pv) then true else false)
    then errors ++ ["Efficiency must be between 0 and 1"%string] else errors in
  let errors := pushIf (Rlt_dec (PV.position pv) 0) "Position cannot be negative" errors in
  errors.

(** The decimal numeral of [index + 1] in a template literal. *)
Definition showNat (n : nat) : string :=
  NilEmpty.string_of_uint (Nat.to_uint n).

(** [system.lenses.forEach((lens, index) => ...)] from a given index on. *)
Fixpoint lensErrorsFrom (index : nat) (lenses : list Lens) : list string :=
  match lenses with
  | [] => []
  | lens :: rest =>
      map (fun err => ("Lens " ++ showNat (index + 1) ++ ": " ++ err)%string)
          (validateLens lens)
      ++ lensErrorsFrom (S index) rest
  end.

Definition validateOpticalSystem (system : OpticalSystem) : list string :=
  let errors := [] in
  let errors :=
    if Nat.eqb (List.length (Sys.lenses system)) 1 then errors
    else errors ++ ["System must have exactly 1 lens"%string] in
  let errors := errors ++ lensErrorsFrom 0 (Sys.lenses system) in
  let errors :=
    errors ++ map (fun err => ("PV: " ++ err)%string) (validatePV (Sys.pv system)) in
  let errors :=
    match Sys.lenses system with
    | [lens0] =>
        pushIf (Rle_dec (PV.position (Sys.pv system)) (Lens.position lens0))
               "PV must be positioned after the lens" errors
    | _ => errors
    end in
  errors.

(** ** Factory operations *)

(** [transmittance: number = 0.92]: a call that leaves the argument out
    passes [None]. *)
Definition createLens (id : string) (aperture focalLength position : R)
  (transmittance : option R) : Lens :=
  {| Lens.id := id;
     Lens.aperture := aperture;
     Lens.focalLength := focalLength;
     Lens.position := position;
     Lens.transmittance :=
       match transmittance with
       | Some transmittance => transmittance
       | None => 0.92
       end |}.

Definition createRectangularPV (width height efficiency position : R) : PhotovoltaicCell :=
  {| PV.shape := rectangular;
     PV.width := width;
     PV.height := height;
     PV.diameter := 0;
     PV.efficiency := efficiency;
     PV.position := position |}.

Definition createCircularPV (diameter efficiency position : R) : PhotovoltaicCell :=
  {| PV.shape := circular;
     PV.width := 0;
     PV.height := 0;
     PV.diameter := diameter;
     PV.efficiency := efficiency;
     PV.position := position |}.

Definition createOpticalSystem (lenses : list Lens) (pv : PhotovoltaicCell) : OpticalSystem :=
  {| Sys.lenses := lenses; Sys.pv := pv |}.

(** ** The earlier revision of the power engine

    [optics.ts] also exists in an earlier revision (no lens transmittance, no
    ABCD matrices, a beam walk through several lenses).  Its ray trace and
    its power formula are embedded here, next to the current ones, because
    the two revisions disagree on the energy balance.  The earlier [Lens] has
    no [transmittance]; the field is never read in this module.  The overlap
    geometry, [calculateEffectiveAperture] and [degToRad] are the same in
    both revisions. *)

Module Legacy.

Record RayTraceResult : Type := mkTrace {
  spotDiameter : R;
  spotArea : R;
  spotCenterY : R;
  spotCenterZ : R;
  effectiveArea : R;
  concentrationRatio : R;
  isValid : bool
}.

Definition invalidTrace : RayTraceResult :=
  {| spotDiameter := 0;
     spotArea := 0;
     spotCenterY := 0;
     spotCenterZ := 0;
     effectiveArea := 0;
     concentrationRatio := 0;
     isValid := false |}.

(** One turn of the beam walk at index [i], on
    [(currentBeamDiameter, currentPosition, convergencePoint)]; [None] is
    [null]. *)
Definition walkStep (i : nat) (st : R * R * option R) (lens : Lens) : R * R * option R :=
  let '(currentBeamDiameter, currentPosition, convergencePoint) := st in
  let currentBeamDiameter :=
    if Nat.ltb 0 i then
      let travelDistance := Lens.position lens - currentPosition in
      let currentBeamDiameter :=
        match convergencePoint with
        | Some convergencePoint =>
            let distanceToConvergence := convergencePoint - currentPosition in
            if andb (if Rlt_dec 0 distanceToConvergence then true else false)
                    (if Rlt_dec distanceToConvergence travelDistance then true else false)
            then
              let remainingDistance := travelDistance - distanceToConvergence in
              (remainingDistance / Lens.focalLength lens) * Lens.aperture lens * 0.1
            else if Rlt_dec 0 distanceToConvergence then
              currentBeamDiameter
              * ((distanceToConvergence - travelDistance) / distanceToConvergence)
            else currentBeamDiameter
        | None => currentBeamDiameter
        end in
      Rmin currentBeamDiameter (Lens.aperture lens)
    else currentBeamDiameter in
  (currentBeamDiameter, Lens.position lens,
   Some (Lens.position lens + Lens.focalLength lens)).

Fixpoint walk (i : nat) (lenses : list Lens) (st : R * R * option R) : R * R * option R :=
  match lenses with
  | [] => st
  | lens :: rest => walk (S i) rest (walkStep i st lens)
  end.

(** The sorted copy is empty exactly when [lenses] is
    ([sortByPosition_nil_iff]), so the test [lenses.length === 0] is the first
    branch of the match. *)
Definition traceRaysThroughSystem
  (system : OpticalSystem) (zenithAngle : R) : RayTraceResult :=
  let pv := Sys.pv system in
  match sortByPosition (Sys.lenses system) with
  | [] => invalidTrace
  | first :: rest =>
      let sortedLenses := first :: rest in
      let angleRad := degToRad zenithAngle in
      let '(currentBeamDiameter, _, _) :=
        walk 0 sortedLenses
          (calculateEffectiveAperture (Lens.aperture first) zenithAngle,
           Lens.position first, None) in
      let lastLens := last sortedLenses first in
      let distanceToPV := PV.position pv - Lens.position lastLens in
      let focalShiftY := Lens.focalLength lastLens * tan angleRad in
      let t := distanceToPV / Lens.focalLength lastLens in
      let spotCenterY := focalShiftY * t in
      let spotCenterZ := 0 in
      let spotDiameter :=
        if Rle_dec distanceToPV 0 then currentBeamDiameter
        else
          let distanceToFocus := Lens.focalLength lastLens in
          if Rlt_dec (Rabs (distanceToPV - distanceToFocus)) 0.001 then 0.001
          else
            let ratio := Rabs (distanceToPV - distanceToFocus) / distanceToFocus in
            currentBeamDiameter * ratio in
      let spotDiameter := Rmax spotDiameter 0.001 in
      let spotArea := PI * (spotDiameter / 2) ^ 2 in
      let spotRadius := spotDiameter / 2 in
      let effectiveArea := calculateOverlapArea pv spotCenterY spotCenterZ spotRadius in
      let inputAperture := Lens.aperture first in
      let inputArea := PI * (inputAperture / 2) ^ 2 in
      let concentrationRatio :=
        if Rlt_dec 0 spotArea then inputArea / spotArea else 0 in
      {| spotDiameter := spotDiameter;
         spotArea := spotArea;
         spotCenterY := spotCenterY;
         spotCenterZ := spotCenterZ;
         effectiveArea := effectiveArea;
         concentrationRatio := concentrationRatio;
         isValid := true |}
  end.

(** [!rayTrace.isValid || system.lenses.length === 0]: the second disjunct is
    the first branch of the match. *)
Definition calculatePower
  (system : OpticalSystem) (lightSource : LightSource) : PowerCalculationResult :=
  let rayTrace := traceRaysThroughSystem system (Light.zenithAngle lightSource) in
  match sortByPosition (Sys.lenses system) with
  | [] => invalidPower
  | first :: rest =>
      if negb (isValid rayTrace) then invalidPower
      else
        let sortedLenses := first :: rest in
        let firstLensAperture := Lens.aperture first in
        let effectiveInputAperture :=
          calculateEffectiveAperture firstLensAperture (Light.zenithAngle lightSource) in
        let inputArea := PI * (effectiveInputAperture / 2) ^ 2 in
        let inputPower := Light.intensity lightSource * inputArea in
        let lastLens := last sortedLenses first in
        let beamRadius := effectiveInputAperture / 2 in
        let convergenceAngle := atan (beamRadius / Lens.focalLength lastLens) in
        let incidenceCosFactor := cos convergenceAngle in
        let captureRatio :=
          if Rlt_dec 0 (spotArea rayTrace)
          then effectiveArea rayTrace / spotArea rayTrace else 0 in
        let capturedPower := inputPower * captureRatio * incidenceCosFactor in
        let outputPower := capturedPower * PV.efficiency (Sys.pv system) in
        let systemEfficiency :=
          if Rlt_dec 0 inputPower then outputPower / inputPower else 0 in
        {| Power.inputPower := inputPower;
           Power.outputPower := outputPower;
           Power.spotDiameter := spotDiameter rayTrace;
           Power.effectiveArea := effectiveArea rayTrace;
           Power.concentrationRatio := concentrationRatio rayTrace;
           Power.systemEfficiency := systemEfficiency;
           Power.isValid := true |}
  end.

End Legacy.

(** ** Image distance, inscribed diameter and the generic receiver factory *)

(** A JavaScript number that may be [Infinity]. *)
Inductive extended : Type :=
  | Finite (x : R)
  | Infinity.

Definition calculateImageDistance (focalLength objectDistance : R) : extended :=
  if Req_dec_T objectDistance focalLength then Infinity
  else Finite ((focalLength * objectDistance) / (objectDistance - focalLength)).

Definition calculatePVInscribedDiameter (pv : PhotovoltaicCell) : R :=
  match PV.shape pv with
  | circular => PV.diameter pv
  | rectangular => Rmin (PV.width pv) (PV.height pv)
  end.

(** [params: { width?: number; height?: number; diameter?: number }] *)
Record PVParams : Type := mkParams {
  paramWidth : option R;
  paramHeight : option R;
  paramDiameter : option R
}.

(** [x ?? 0] *)
Definition orZero (x : option R) : R :=
  match x with Some v => v | None => 0 end.

Definition createPV (shape : PVShape) (params : PVParams) (efficiency position : R)
  : PhotovoltaicCell :=
  match shape with
  | circular => createCircularPV (orZero (paramDiameter params)) efficiency position
  | rectangular =>
      createRectangularPV (orZero (paramWidth params)) (orZero (paramHeight params))
        efficiency position
  end.

(** ** CSV rows ([apps/client/src/hooks/useOpticalSystem.ts])

    [csvEscape] and [parseCsvLine] work on the characters of a string; the
    [for] loop of the parser is a recursion on the characters not yet read. *)

(** A JavaScript string, as the list of its characters; the functions below
    single out the quote, the comma, the line feed and the carriage return,
    and treat every other character alike. *)
Definition chars : Type := list ascii.

Definition quoteChar : ascii := "034"%char.
Definition commaChar : ascii := ","%char.
Definition lfChar : ascii := "010"%char.
Definition crChar : ascii := "013"%char.

(** [value.includes(c)] for a one-character [c]. *)
Definition includes (c : ascii) (value : chars) : bool :=
  existsb (Ascii.eqb c) value.

(** [value.replace] of every quote by two quotes. *)
Fixpoint doubleQuotes (value : chars) : chars :=
  match value with
  | [] => []
  | c :: rest =>
      if Ascii.eqb c quoteChar then quoteChar :: quoteChar :: doubleQuotes rest
      else c :: doubleQuotes rest
  end.

Definition csvEscape (value : chars) : chars :=
  let value := if includes quoteChar value then doubleQuotes value else value in
  if includes commaChar value || includes lfChar value || includes crChar value
  then quoteChar :: value ++ [quoteChar]
  else value.

(** The [for] loop of [parseCsvLine] over the characters not yet read, on the
    state [(current, inQuotes, result)]; [line[i + 1]] is the head of what
    follows, and [i++] drops it. *)
Fixpoint parseCsvLoop (line : chars) (current : chars) (inQuotes : bool)
  (result : list chars) : list chars :=
  match line with
  | [] => result ++ [current]
  | char :: rest =>
      if Ascii.eqb char quoteChar then
        match rest with
        | next :: rest' =>
            if inQuotes && Ascii.eqb next quoteChar
            then parseCsvLoop rest' (current ++ [quoteChar]) inQuotes result
            else parseCsvLoop rest current (negb inQuotes) result
        | [] => parseCsvLoop rest current (negb inQuotes) result
        end
      else if Ascii.eqb char commaChar && negb inQuotes then
        parseCsvLoop rest [] inQuotes (result ++ [current])
      else parseCsvLoop rest (current ++ [char]) inQuotes result
  end.

Definition parseCsvLine (line : chars) : list chars :=
  parseCsvLoop line [] false [].

(** [row.join(",")] *)
Fixpoint joinComma (row : list chars) : chars :=
  match row with
  | [] => []
  | [field] => field
  | field :: rest => field ++ commaChar :: joinComma rest
  end.

(** ** The engine on IEEE doubles

    The same functions once more, on the binary64 numbers of the kernel:
    [+], [-], [*], [/], [Math.sqrt], [Math.abs] and the comparisons are the
    IEEE operations ([<=] and [<] are false on NaN, [===] is [=?]), so
    rounding, infinities and NaN are what they are in the engine. *)

Module Double.
Import Floats.
Local Open Scope float_scope.

Module Lens.
Record t : Type := mk {
  id : string;
  aperture : float;
  focalLength : float;
  position : float;
  transmittance : float
}.
End Lens.

Module PV.
Record t : Type := mk {
  shape : PVShape;
  width : float;
  height : float;
  diameter : float;
  efficiency : float;
  position : float
}.
End PV.

Module Light.
Record t : Type := mk {
  intensity : float;
  zenithAngle : float
}.
End Light.

Module Sys.
Record t : Type := mk {
  lenses : list Lens.t;
  pv : PV.t
}.
End Sys.

Module Trace.
Record t : Type := mk {
  spotDiameter : float;
  spotArea : float;
  spotCenterY : float;
  spotCenterZ : float;
  effectiveArea : float;
  concentrationRatio : float;
  isValid : bool;
  outputAngle : float;
  totalTransmittance : float
}.
End Trace.

Module Power.
Record t : Type := mk {
  inputPower : float;
  outputPower : float;
  spotDiameter : float;
  effectiveArea : float;
  concentrationRatio : float;
  systemEfficiency : float;
  isValid : bool
}.
End Power.

Module Sweep.
Record t : Type := mk {
  angle : float;
  power : float;
  efficiency : float
}.
End Sweep.

Definition ABCDMatrix : Type := (float * float) * (float * float).

(** [Math.PI], the double nearest to pi (3.141592653589793). *)
Definition Math_PI : float := 0x1.921fb54442d18p+1.

(** [Math.max] and [Math.min] of two numbers: NaN when either is NaN, and
    [+0] counts as larger than [-0]. *)
Definition Math_max (a b : float) : float :=
  if is_nan a || is_nan b then nan
  else if a <? b then b
  else if b <? a then a
  else if is_zero a && get_sign a then b else a.

Definition Math_min (a b : float) : float :=
  if is_nan a || is_nan b then nan
  else if a <? b then a
  else if b <? a then b
  else if is_zero a && get_sign a then a else b.

(** [Math.pow (x, 2)], taken as the correctly rounded square. *)
Definition Math_pow2 (x : float) : float := x * x.

(** The functions of [Math] that ECMAScript leaves to the engine
    (implementation-approximated), with the values and the domain rule the
    standard does fix: [Math.cos (+0) = 1], [Math.tan (+0) = +0], and
    [Math.acos (x)] is NaN for [x > 1] and for [x < -1]. *)
Class MathLib : Type := {
  Math_cos : float -> float;
  Math_tan : float -> float;
  Math_acos : float -> float;
  Math_cos_zero : Math_cos 0 = 1;
  Math_tan_zero : Math_tan 0 = 0;
  Math_acos_above : forall x, (1 <? x) = true -> Math_acos x = nan;
  Math_acos_below : forall x, (x <? -1) = true -> Math_acos x = nan
}.

Section Engine.
Context {M : MathLib}.

Definition degToRad (degrees : float) : float := (degrees * Math_PI) / 180.

Definition radToDeg (radians : float) : float := (radians * 180) / Math_PI.

Definition createLensMatrix (focalLength : float) : ABCDMatrix :=
  ((1, 0), (-1 / focalLength, 1)).

Definition createPropagationMatrix (distance : float) : ABCDMatrix :=
  ((1, distance), (0, 1)).

Definition multiplyMatrices (m1 m2 : ABCDMatrix) : ABCDMatrix :=
  let '((a1, b1), (c1, d1)) := m1 in
  let '((a2, b2), (c2, d2)) := m2 in
  let a := a1 * a2 + b1 * c2 in
  let b := a1 * b2 + b1 * d2 in
  let c := c1 * a2 + d1 * c2 in
  let d := c1 * b2 + d1 * d2 in
  ((a, b), (c, d)).

Definition identityMatrix : ABCDMatrix := ((1, 0), (0, 1)).

(** The comparator [(a, b) => a.position - b.position] of the sort: [l]
    goes behind [h] when the difference is positive. *)
Fixpoint insertByPosition (l : Lens.t) (ls : list Lens.t) : list Lens.t :=
  match ls with
  | [] => [l]
  | h :: t =>
      if 0 <? Lens.position l - Lens.position h
      then h :: insertByPosition l t
      else l :: h :: t
  end.

Definition sortByPosition (ls : list Lens.t) : list Lens.t :=
  fold_right insertByPosition [] ls.

Definition buildStep (st : ABCDMatrix * float) (lens : Lens.t) : ABCDMatrix * float :=
  let '(systemMatrix, currentPosition) := st in
  let systemMatrix1 :=
    if currentPosition <? Lens.position lens
    then multiplyMatrices
           (createPropagationMatrix (Lens.position lens - currentPosition))
           systemMatrix
    else systemMatrix in
  (multiplyMatrices (createLensMatrix (Lens.focalLength lens)) systemMatrix1,
   Lens.position lens).

Definition buildSystemMatrix (lenses : list Lens.t) (pvPosition : float) : ABCDMatrix :=
  match sortByPosition lenses with
  | [] => identityMatrix
  | first :: rest =>
      let sortedLenses := first :: rest in
      let systemMatrix := fst (fold_left buildStep sortedLenses (identityMatrix, 0)) in
      let lastLens := last sortedLenses first in
      if Lens.position lastLens <? pvPosition
      then multiplyMatrices
             (createPropagationMatrix (pvPosition - Lens.position lastLens))
             systemMatrix
      else systemMatrix
  end.

Definition calculateOutputAngle
  (systemMatrix : ABCDMatrix) (inputAngleRad inputPosition : float) : float :=
  let y_in := inputPosition in
  let theta_in := inputAngleRad in
  let C := fst (snd systemMatrix) in
  let D := snd (snd systemMatrix) in
  C * y_in + D * theta_in.

Definition calculateEffectiveAperture (aperture zenithAngle : float) : float :=
  let angleRad := degToRad zenithAngle in
  aperture * Math_cos angleRad.

Definition calculateSpotDiameterSingleLens
  (lens : Lens.t) (pvPosition zenithAngle : float) : float :=
  let effectiveAperture := calculateEffectiveAperture (Lens.aperture lens) zenithAngle in
  let distanceFromLensToPV := pvPosition - Lens.position lens in
  if distanceFromLensToPV <=? 0 then effectiveAperture
  else if distanceFromLensToPV =? Lens.focalLength lens then 0
  else
    let ratio :=
      abs (distanceFromLensToPV - Lens.focalLength lens) / Lens.focalLength lens in
    effectiveAperture * ratio.

Definition calculateOverlapArea
  (pv : PV.t) (spotCenterY spotCenterZ spotRadius : float) : float :=
  match PV.shape pv with
  | circular =>
      let pvRadius := PV.diameter pv / 2 in
      let distance := sqrt (spotCenterY * spotCenterY + spotCenterZ * spotCenterZ) in
      if spotRadius + pvRadius <=? distance then 0
      else if distance <=? abs (spotRadius - pvRadius) then
        let smallerRadius := Math_min spotRadius pvRadius in
        Math_PI * smallerRadius * smallerRadius
      else
        let r1 := spotRadius in
        let r2 := pvRadius in
        let d := distance in
        let part1 :=
          r1 * r1 * Math_acos ((d * d + r1 * r1 - r2 * r2) / (2 * d * r1)) in
        let part2 :=
          r2 * r2 * Math_acos ((d * d + r2 * r2 - r1 * r1) / (2 * d * r2)) in
        let part3 :=
          0.5 * sqrt ((- d + r1 + r2) * (d + r1 - r2) * (d - r1 + r2) * (d + r1 + r2)) in
        part1 + part2 - part3
  | rectangular =>
      let halfWidth := PV.width pv / 2 in
      let halfHeight := PV.height pv / 2 in
      let left := Math_max (- halfWidth) (spotCenterZ - spotRadius) in
      let right := Math_min halfWidth (spotCenterZ + spotRadius) in
      let bottom := Math_max (- halfHeight) (spotCenterY - spotRadius) in
      let top := Math_min halfHeight (spotCenterY + spotRadius) in
      if (right <=? left) || (top <=? bottom) then 0
      else
        let overlapWidth := right - left in
        let overlapHeight := top - bottom in
        let rectOverlap := overlapWidth * overlapHeight in
        let spotArea := Math_PI * spotRadius * spotRadius in
        let overlapCenterY := (bottom + top) / 2 in
        let overlapCenterZ := (left + right) / 2 in
        let distFromSpotCenter :=
          sqrt (Math_pow2 (overlapCenterY - spotCenterY)
                + Math_pow2 (overlapCenterZ - spotCenterZ)) in
        if distFromSpotCenter <? spotRadius * 0.5
        then Math_min rectOverlap spotArea
        else Math_min (rectOverlap * 0.785) spotArea
  end.

Definition invalidTrace (zenithAngle : float) : Trace.t :=
  {| Trace.spotDiameter := 0;
     Trace.spotArea := 0;
     Trace.spotCenterY := 0;
     Trace.spotCenterZ := 0;
     Trace.effectiveArea := 0;
     Trace.concentrationRatio := 0;
     Trace.isValid := false;
     Trace.outputAngle := zenithAngle;
     Trace.totalTransmittance := 0 |}.

Definition traceRaysThroughSystem (system : Sys.t) (zenithAngle : float) : Trace.t :=
  let pv := Sys.pv system in
  let inputAngleRad := degToRad zenithAngle in
  match Sys.lenses system with
  | [lens] =>
      let systemMatrix := buildSystemMatrix [lens] (PV.position pv) in
      let outputAngleRad := calculateOutputAngle systemMatrix inputAngleRad 0 in
      let totalTransmittance := Lens.transmittance lens in
      let distanceToPV := PV.position pv - Lens.position lens in
      let focalShiftY := Lens.focalLength lens * Math_tan inputAngleRad in
      let t := distanceToPV / Lens.focalLength lens in
      let spotCenterY := focalShiftY * t in
      let spotCenterZ := 0 in
      let spotDiameter :=
        Math_max (calculateSpotDiameterSingleLens lens (PV.position pv) zenithAngle)
          0.001 in
      let spotArea := Math_PI * Math_pow2 (spotDiameter / 2) in
      let spotRadius := spotDiameter / 2 in
      let effectiveArea := calculateOverlapArea pv spotCenterY spotCenterZ spotRadius in
      let inputAperture := Lens.aperture lens in
      let inputArea := Math_PI * Math_pow2 (inputAperture / 2) in
      let concentrationRatio := if 0 <? spotArea then inputArea / spotArea else 0 in
      {| Trace.spotDiameter := spotDiameter;
         Trace.spotArea := spotArea;
         Trace.spotCenterY := spotCenterY;
         Trace.spotCenterZ := spotCenterZ;
         Trace.effectiveArea := effectiveArea;
         Trace.concentrationRatio := concentrationRatio;
         Trace.isValid := true;
         Trace.outputAngle := radToDeg outputAngleRad;
         Trace.totalTransmittance := totalTransmittance |}
  | _ => invalidTrace zenithAngle
  end.

Definition invalidPower : Power.t :=
  {| Power.inputPower := 0;
     Power.outputPower := 0;
     Power.spotDiameter := 0;
     Power.effectiveArea := 0;
     Power.concentrationRatio := 0;
     Power.systemEfficiency := 0;
     Power.isValid := false |}.

Definition calculatePower (system : Sys.t) (lightSource : Light.t) : outcome Power.t :=
  let rayTrace := traceRaysThroughSystem system (Light.zenithAngle lightSource) in
  if negb (Trace.isValid rayTrace) then Done invalidPower
  else
    match nth_error (Sys.lenses system) 0 with
    | None => Raised
    | Some lens =>
        let effectiveInputAperture :=
          calculateEffectiveAperture (Lens.aperture lens) (Light.zenithAngle lightSource) in
        let inputArea := Math_PI * Math_pow2 (effectiveInputAperture / 2) in
        let inputPower := Light.intensity lightSource * inputArea in
        let outputAngleRad := degToRad (Trace.outputAngle rayTrace) in
        let incidenceCosFactor := Math_max 0 (Math_cos outputAngleRad) in
        let concentrationFactor := Trace.concentrationRatio rayTrace in
        let I_optical := Light.intensity lightSource * Trace.totalTransmittance rayTrace in
        let I_effective := I_optical * concentrationFactor * incidenceCosFactor in
        let P_incident := I_effective * Trace.effectiveArea rayTrace in
        let outputPower := P_incident * PV.efficiency (Sys.pv system) in
        let systemEfficiency :=
          if 0 <? inputPower then outputPower / inputPower else 0 in
        Done {| Power.inputPower := inputPower;
                Power.outputPower := outputPower;
                Power.spotDiameter := Trace.spotDiameter rayTrace;
                Power.effectiveArea := Trace.effectiveArea rayTrace;
                Power.concentrationRatio := Trace.concentrationRatio rayTrace;
                Power.systemEfficiency := systemEfficiency;
                Power.isValid := true |}
    end.

Fixpoint sweepLoop (fuel : nat) (system : Sys.t)
  (intensity endAngle step angle : float) (results : list Sweep.t)
  : outcome (list Sweep.t) :=
  match fuel with
  | O => OutOfFuel
  | S fuel' =>
      if angle <=? endAngle then
        let lightSource := {| Light.intensity := intensity; Light.zenithAngle := angle |} in
        match calculatePower system lightSource with
        | Done powerResult =>
            sweepLoop fuel' system intensity endAngle step (angle + step)
              (results ++ [ {| Sweep.angle := angle;
                               Sweep.power := Power.outputPower powerResult;
                               Sweep.efficiency := Power.systemEfficiency powerResult |} ])
        | Raised => Raised
        | OutOfFuel => OutOfFuel
        end
      else Done results
  end.

Definition sweepAngle (fuel : nat) (system : Sys.t)
  (intensity startAngle endAngle step : float) : outcome (list Sweep.t) :=
  sweepLoop fuel system intensity endAngle step startAngle [].

End Engine.
End Double.

(** ** Definitions used by the statements *)

(** The value [calculatePower] returns. *)
Definition powerOf (system : OpticalSystem) (light : LightSource) : PowerCalculationResult :=
  match calculatePower system light with
  | Done p => p
  | _ => invalidPower
  end.

(** The entry one turn of the sweep loop pushes. *)
Definition sweepPoint (system : OpticalSystem) (intensity angle : R) : AngleSweepResult :=
  let powerResult := powerOf system (Light.mk intensity angle) in
  {| Sweep.angle := angle;
     Sweep.power := Power.outputPower powerResult;
     Sweep.efficiency := Power.systemEfficiency powerResult |}.

(** The entries of [n] turns from [angle] on: at [angle + k * step], [k < n]. *)
Definition sweepPoints (system : OpticalSystem) (intensity step angle : R) (n : nat)
  : list AngleSweepResult :=
  map (fun k => sweepPoint system intensity (angle + INR k * step)) (seq 0 n).

(** The four messages of [validateLens]. *)
Definition msgAperture : string := "Aperture must be positive".
Definition msgFocal : string := "Focal length must be positive".
Definition msgPosition : string := "Position cannot be negative".
Definition msgTransmittance : string := "Transmittance must be between 0 and 1".

(** Sample systems: the lens and receiver of the test suite; a fast lens in
    front of a receiver much larger than the spot; the same lens in front of
    a receiver the spot walks off; and a large lens whose spot swallows a
    small circular receiver. *)
Definition sampleLens : Lens := createLens "l1" 100 200 0 None.
Definition secondLens : Lens := createLens "l2" 100 200 100 None.
Definition samplePV : PhotovoltaicCell := createRectangularPV 50 50 0.2 300.
Definition brightLens : Lens := createLens "l1" 2 1 0 (Some 0.9).
Definition brightPV : PhotovoltaicCell := createRectangularPV 100 100 0.9 2.
Definition brightSystem : OpticalSystem := createOpticalSystem [brightLens] brightPV.
Definition wideLens : Lens := createLens "l1" 100 1 0 (Some 0.9).
Definition dotPV : PhotovoltaicCell := createCircularPV 2 0.9 2.
Definition wideSystem : OpticalSystem := createOpticalSystem [wideLens] dotPV.

(** The area of the circular segment of half angle [x] in the unit circle. *)
Definition segment (x : R) : R := x - sin x * cos x.

(** [sin x - x * cos x], which is 0 at 0 and grows on [[0, PI]]. *)
Definition tanGap (x : R) : R := sin x - x * cos x.

(** The gap between two segments on one chord, cleared of denominators. *)
Definition segGap (b x : R) : R :=
  (sin b * sin b) * segment x - segment b * (sin x * sin x).

(** The cosine, by the law of cosines, of the angle at the centre of the
    circle of radius [r] between the line of centres and a crossing point. *)
Definition lensCos (r r' d : R) : R := (d * d + r * r - r' * r') / (2 * d * r).

Definition heron (r1 r2 d : R) : R :=
  (- d + r1 + r2) * (d + r1 - r2) * (d - r1 + r2) * (d + r1 + r2).

Definition det (m : ABCDMatrix) : R :=
  fst (fst m) * snd (snd m) - snd (fst m) * fst (snd m).

(** Lists that differ by exchanging neighbours at the same position. *)
Inductive samePlaces : list Lens -> list Lens -> Prop :=
  | sp_nil : samePlaces [] []
  | sp_skip (x : Lens) (l l' : list Lens) :
      samePlaces l l' -> samePlaces (x :: l) (x :: l')
  | sp_swap (x y : Lens) (l : list Lens) :
      Lens.position x = Lens.position y ->
      samePlaces (x :: y :: l) (y :: x :: l)
  | sp_trans (l1 l2 l3 : list Lens) :
      samePlaces l1 l2 -> samePlaces l2 l3 -> samePlaces l1 l3.

(** The ray-transfer product over lenses taken in the given order: each lens
    is reached by a propagation over the gap from the place before it. *)
Fixpoint chain (cur : R) (lenses : list Lens) (m : ABCDMatrix) : ABCDMatrix * R :=
  match lenses with
  | [] => (m, cur)
  | lens :: rest =>
      chain (Lens.position lens) rest
        (multiplyMatrices (createLensMatrix (Lens.focalLength lens))
           (multiplyMatrices (createPropagationMatrix (Lens.position lens - cur)) m))
  end.

Definition composedMatrix (lenses : list Lens) (pvPosition : R) : ABCDMatrix :=
  let '(m, cur) := chain 0 lenses identityMatrix in
  multiplyMatrices (createPropagationMatrix (pvPosition - cur)) m.

Fixpoint ascendingFrom (cur : R) (lenses : list Lens) : Prop :=
  match lenses with
  | [] => True
  | lens :: rest => cur <= Lens.position lens /\ ascendingFrom (Lens.position lens) rest
  end.

(** [{ ...pv, efficiency }] *)
Definition withEfficiency (pv : PhotovoltaicCell) (efficiency : R) : PhotovoltaicCell :=
  {| PV.shape := PV.shape pv;
     PV.width := PV.width pv;
     PV.height := PV.height pv;
     PV.diameter := PV.diameter pv;
     PV.efficiency := efficiency;
     PV.position := PV.position pv |}.

Definition msgWidth : string := "Width must be positive".
Definition msgHeight : string := "Height must be positive".
Definition msgDiameter : string := "Diameter must be positive".
Definition msgEfficiency : string := "Efficiency must be between 0 and 1".
Definition msgCardinality : string := "System must have exactly 1 lens".
Definition msgBehindLens : string := "PV must be positioned after the lens".

Definition lensPrefix (index : nat) (err : string) : string :=
  ("Lens " ++ showNat (index + 1) ++ ": " ++ err)%string.

Definition pvPrefix (err : string) : string := ("PV: " ++ err)%string.

(** A field [csvEscape] can carry: free of quotes, or wrapped because it
    holds a comma or a line break. *)
Definition carried (value : chars) : Prop :=
  includes quoteChar value = false \/
  includes commaChar value || includes lfChar value || includes crChar value = true.

Definition startsFresh (rest : chars) : Prop :=
  match rest with
  | [] => True
  | c :: _ => Ascii.eqb c quoteChar = false
  end.

Definition asChars (s : string) : chars := list_ascii_of_string s.


(** Sample inputs and the vocabulary of the statements about the engine on
    doubles. *)
Module DoubleSamples.
Import Floats.
Import Double.
Local Open Scope float_scope.

(** A lens with aperture 0 and focal length 0, which [validateLens] rejects
    and [traceRaysThroughSystem] accepts. *)
Definition zeroLens : Lens.t := Lens.mk "l1" 0 0 0 1.
Definition unitPV : PV.t := PV.mk rectangular 10 10 0 0.2 1.
(** A circular receiver that the spot of radius 0.025 centred at 0.275
    touches from inside: [0.275 + 0.025 = 0.6 / 2]. *)
Definition tangentPV : PV.t := PV.mk circular 0 0 0.6 0.2 1.
(** The lens of the test suite, [createLens ('l1', 100, 200, 0)], and a
    circular receiver whose rim the spot touches from inside at 30
    degrees. *)
Definition sampleLens : Lens.t := Lens.mk "l1" 100 200 0 0.92.
Definition grazedPV : PV.t := PV.mk circular 0 0 389.71143170299734 0.2 300.

(** A library that answers from a table: the cosine and the tangent of 30
    degrees as a JavaScript engine returns them, the fixed values at 0, and
    NaN outside the domain of the arc cosine. *)
Definition tableMath : MathLib.
Proof.
  refine {| Math_cos := fun x => if x =? 0 then 1 else 0.8660254037844387;
            Math_tan := fun x => if x =? 0 then x else 0.5773502691896257;
            Math_acos := fun x => if (1 <? x) || (x <? -1) then nan else 0 |}.
  - reflexivity.
  - reflexivity.
  - intros x H. rewrite H. reflexivity.
  - intros x H. rewrite H, orb_true_r. reflexivity.
Defined.

Section WithMath.
Context {M : MathLib}.

(** The value of [angle] after [k] turns of the loop of [sweepAngle]:
    [startAngle], to which [step] has been added [k] times. *)
Definition runningAngle (startAngle step : float) (k : nat) : float :=
  Nat.iter k (fun angle => angle + step) startAngle.

Definition powerOf (system : Sys.t) (light : Light.t) : Power.t :=
  match calculatePower system light with
  | Done p => p
  | _ => invalidPower
  end.

(** The entry the loop pushes at [angle]. *)
Definition sweepPoint (system : Sys.t) (intensity angle : float) : Sweep.t :=
  let p := powerOf system (Light.mk intensity angle) in
  {| Sweep.angle := angle;
     Sweep.power := Power.outputPower p;
     Sweep.efficiency := Power.systemEfficiency p |}.

Definition sweepPoints (system : Sys.t) (intensity startAngle step : float) (n : nat)
  : list Sweep.t :=
  map (fun k => sweepPoint system intensity (runningAngle startAngle step k)) (seq 0 n).
End WithMath.
End DoubleSamples.

Module DoubleOrder.
Import Floats.
Local Open Scope Z_scope.

End DoubleOrder.

(** * Properties *)

(** ** Proof tools *)

(** Case analysis on the first comparison the goal still branches on. *)
Ltac case_cmp :=
  match goal with
  | |- context [Rle_dec ?a ?b] => destruct (Rle_dec a b)
  | |- context [Rlt_dec ?a ?b] => destruct (Rlt_dec a b)
  | |- context [Rge_dec ?a ?b] => destruct (Rge_dec a b)
  | |- context [Req_dec_T ?a ?b] => destruct (Req_dec_T a b)
  end.

Ltac cases_cmp := repeat (case_cmp; try lra; simpl).

(** Two matrices are equal when their four coefficients are. *)
Ltac matrix_eq := apply f_equal2; apply f_equal2.

(** ** The calls return *)

Lemma trace_valid_iff (system : OpticalSystem) (z : R) :
  Trace.isValid (traceRaysThroughSystem system z) = true <->
  List.length (Sys.lenses system) = 1%nat.
Proof.
  unfold traceRaysThroughSystem.
  destruct (Sys.lenses system) as [|l [|l' ls]]; simpl; split; intro H;
    try reflexivity; try discriminate.
Qed.

Lemma calculatePower_returns (system : OpticalSystem) (light : LightSource) :
  exists p, calculatePower system light = Done p.
Proof.
  unfold calculatePower, traceRaysThroughSystem.
  destruct (Sys.lenses system) as [|l [|l' ls]]; simpl; eauto.
Qed.

Lemma calculatePower_powerOf (system : OpticalSystem) (light : LightSource) :
  calculatePower system light = Done (powerOf system light).
Proof.
  unfold powerOf. destruct (calculatePower_returns system light) as [p ->]. reflexivity.
Qed.

(** ** Sentinel results (C3) *)

(** C3.  A system whose lens count is not exactly 1 (no lens, or two or
    more) is answered by the sentinel at every zenith angle:
    [traceRaysThroughSystem] returns [isValid = false] with the spot
    diameter, spot area, both spot centre offsets, effective area and
    concentration ratio all 0, and [calculatePower] returns (it does not
    raise) [isValid = false] with both powers, spot diameter, effective area,
    concentration ratio and efficiency all 0. *)
Theorem lens_count_not_one_gives_sentinel
  (system : OpticalSystem) (zenithAngle : R) (light : LightSource) :
  List.length (Sys.lenses system) <> 1%nat ->
  let r := traceRaysThroughSystem system zenithAngle in
  (Trace.isValid r = false /\
   Trace.spotDiameter r = 0 /\ Trace.spotArea r = 0 /\
   Trace.spotCenterY r = 0 /\ Trace.spotCenterZ r = 0 /\
   Trace.effectiveArea r = 0 /\ Trace.concentrationRatio r = 0) /\
  exists p,
    calculatePower system light = Done p /\
    Power.isValid p = false /\
    Power.inputPower p = 0 /\ Power.outputPower p = 0 /\
    Power.spotDiameter p = 0 /\ Power.effectiveArea p = 0 /\
    Power.concentrationRatio p = 0 /\ Power.systemEfficiency p = 0.
Proof.
  intros Hlen r. subst r.
  unfold calculatePower, traceRaysThroughSystem.
  destruct (Sys.lenses system) as [|l [|l' ls]]; simpl in *.
  - split; [repeat split | exists invalidPower; repeat split].
  - exfalso. apply Hlen. reflexivity.
  - split; [repeat split | exists invalidPower; repeat split].
Qed.

Lemma lens_count_not_one_gives_sentinel_two_lenses :
  let system := createOpticalSystem [sampleLens; secondLens] samplePV in
  let r := traceRaysThroughSystem system 30 in
  (Trace.isValid r = false /\
   Trace.spotDiameter r = 0 /\ Trace.spotArea r = 0 /\
   Trace.spotCenterY r = 0 /\ Trace.spotCenterZ r = 0 /\
   Trace.effectiveArea r = 0 /\ Trace.concentrationRatio r = 0) /\
  exists p,
    calculatePower system (Light.mk 1000 30) = Done p /\
    Power.isValid p = false /\
    Power.inputPower p = 0 /\ Power.outputPower p = 0 /\
    Power.spotDiameter p = 0 /\ Power.effectiveArea p = 0 /\
    Power.concentrationRatio p = 0 /\ Power.systemEfficiency p = 0.
Proof.
  apply (lens_count_not_one_gives_sentinel
           (createOpticalSystem [sampleLens; secondLens] samplePV) 30 (Light.mk 1000 30)).
  simpl. discriminate.
Defined.

(** The same holds with no lens at all. *)
Lemma no_lens_gives_sentinel :
  Trace.isValid (traceRaysThroughSystem (createOpticalSystem [] samplePV) 0) = false /\
  calculatePower (createOpticalSystem [] samplePV) (Light.mk 1000 0) = Done invalidPower.
Proof. split; reflexivity. Qed.

(** ** Spot floor, over the reals *)

(** Over the reals, with exactly one lens and at every zenith angle, the
    reported spot diameter is at least 0.001 and is never 0; when the
    receiver sits exactly at the focal distance beyond the lens it is 0.001.
    On doubles a focal length of 0 defeats the floor:
    [spot_floor_lost_at_zero_focal_length]. *)
Theorem spot_diameter_floor
  (lens : Lens) (pv : PhotovoltaicCell) (zenithAngle : R) :
  let r := traceRaysThroughSystem (Sys.mk [lens] pv) zenithAngle in
  0.001 <= Trace.spotDiameter r /\
  Trace.spotDiameter r <> 0 /\
  (0 < PV.position pv - Lens.position lens ->
   PV.position pv - Lens.position lens = Lens.focalLength lens ->
   Trace.spotDiameter r = 0.001).
Proof.
  simpl.
  set (d := calculateSpotDiameterSingleLens lens (PV.position pv) zenithAngle).
  assert (Hfloor : 0.001 <= Rmax d 0.001) by apply Rmax_r.
  split; [exact Hfloor | split; [lra |]].
  intros Hpos Hfocus. subst d. unfold calculateSpotDiameterSingleLens.
  destruct (Rle_dec (PV.position pv - Lens.position lens) 0); [lra |].
  destruct (Req_dec_T (PV.position pv - Lens.position lens) (Lens.focalLength lens));
    [| contradiction].
  apply Rmax_right. lra.
Qed.

(** ** System matrix (C7) *)

Lemma sortByPosition_single (lens : Lens) : sortByPosition [lens] = [lens].
Proof. reflexivity. Qed.

Lemma multiplyMatrices_identity_r (m : ABCDMatrix) :
  multiplyMatrices m identityMatrix = m.
Proof.
  destruct m as [[a b] [c d]]. unfold multiplyMatrices, identityMatrix.
  matrix_eq; ring.
Qed.

Lemma propagation_zero : createPropagationMatrix 0 = identityMatrix.
Proof. reflexivity. Qed.

(** C7.  [buildSystemMatrix] of the empty lens list is the identity at every
    receiver position.  For one lens of focal length [f > 0] at position
    [l >= 0] and a receiver at [p > l] it is
    [propagation (p - l) * lens f * propagation l], composed right to left
    (the code leaves the propagation over [l = 0] out, which is the
    identity); with [l = 0] that is [[1 - p/f, p], [-1/f, 1]]. *)
Theorem buildSystemMatrix_empty_and_single :
  (forall pvPosition, buildSystemMatrix [] pvPosition = ((1, 0), (0, 1))) /\
  (forall (lens : Lens) (pvPosition : R),
     0 < Lens.focalLength lens ->
     0 <= Lens.position lens ->
     Lens.position lens < pvPosition ->
     buildSystemMatrix [lens] pvPosition =
       multiplyMatrices
         (createPropagationMatrix (pvPosition - Lens.position lens))
         (multiplyMatrices
            (createLensMatrix (Lens.focalLength lens))
            (createPropagationMatrix (Lens.position lens))) /\
     (Lens.position lens = 0 ->
      buildSystemMatrix [lens] pvPosition =
        ((1 - pvPosition / Lens.focalLength lens, pvPosition),
         (-1 / Lens.focalLength lens, 1)))).
Proof.
  split; [reflexivity |].
  intros lens p Hf Hl Hp.
  unfold buildSystemMatrix. rewrite sortByPosition_single. simpl.
  destruct (Rlt_dec (Lens.position lens) p); [| lra].
  unfold multiplyMatrices, createPropagationMatrix, createLensMatrix, identityMatrix.
  split.
  - destruct (Rlt_dec 0 (Lens.position lens)); simpl.
    + matrix_eq; field; lra.
    + assert (Lens.position lens = 0) as -> by lra.
      matrix_eq; field; lra.
  - intros ->. destruct (Rlt_dec 0 0); [lra |]. simpl.
    matrix_eq; field; lra.
Qed.

Lemma buildSystemMatrix_empty_and_single_at_sample :
  buildSystemMatrix [] 0 = ((1, 0), (0, 1)) /\
  buildSystemMatrix [sampleLens] 300 =
    multiplyMatrices
      (createPropagationMatrix (300 - Lens.position sampleLens))
      (multiplyMatrices
         (createLensMatrix (Lens.focalLength sampleLens))
         (createPropagationMatrix (Lens.position sampleLens))) /\
  buildSystemMatrix [sampleLens] 300 = ((1 - 300 / 200, 300), (-1 / 200, 1)).
Proof.
  destruct buildSystemMatrix_empty_and_single as [Hempty Hsingle].
  split; [apply Hempty |].
  destruct (Hsingle sampleLens 300) as [Hcomp Horigin]; simpl; try lra.
  split; [exact Hcomp | apply Horigin; reflexivity].
Defined.

(** ** Lens validation (C9) *)

(** C9.  [validateLens] returns (it is total) a list that holds the aperture
    message iff [aperture <= 0], the focal-length message iff
    [focalLength <= 0], the position message iff [position < 0] and the
    transmittance message iff [transmittance < 0] or [transmittance > 1]; the
    four messages differ from one another and none occurs twice, so each
    violated rule adds its own entry whatever the other rules say; the list
    is empty iff all four constraints hold. *)
Theorem validateLens_reports_each_rule (lens : Lens) :
  (In msgAperture (validateLens lens) <-> Lens.aperture lens <= 0) /\
  (In msgFocal (validateLens lens) <-> Lens.focalLength lens <= 0) /\
  (In msgPosition (validateLens lens) <-> Lens.position lens < 0) /\
  (In msgTransmittance (validateLens lens) <->
     Lens.transmittance lens < 0 \/ Lens.transmittance lens > 1) /\
  NoDup [msgAperture; msgFocal; msgPosition; msgTransmittance] /\
  NoDup (validateLens lens) /\
  (validateLens lens = [] <->
     0 < Lens.aperture lens /\ 0 < Lens.focalLength lens /\
     0 <= Lens.position lens /\ 0 <= Lens.transmittance lens <= 1).
Proof.
  assert (Hmsgs : NoDup [msgAperture; msgFocal; msgPosition; msgTransmittance]).
  { repeat constructor; simpl; intuition discriminate. }
  unfold validateLens, pushIf, msgAperture, msgFocal, msgPosition, msgTransmittance in *.
  destruct (Rle_dec (Lens.aperture lens) 0);
    destruct (Rle_dec (Lens.focalLength lens) 0);
    destruct (Rlt_dec (Lens.position lens) 0);
    destruct (Rlt_dec (Lens.transmittance lens) 0);
    destruct (Rlt_dec 1 (Lens.transmittance lens));
    simpl;
    (repeat split; try exact Hmsgs; try lra; try discriminate;
     try (intros; lra);
     try (intros [H | H]; lra);
     try (repeat constructor; simpl; intuition discriminate);
     try (intros; simpl in *; intuition (try discriminate; try lra))).
Qed.

(** ** What an empty error list says *)

Lemma app_nil_both {A : Type} (l1 l2 : list A) :
  (l1 ++ l2)%list = [] -> l1 = [] /\ l2 = [].
Proof. destruct l1; simpl; [auto | discriminate]. Qed.

Lemma validateLens_empty (lens : Lens) :
  validateLens lens = [] ->
  0 < Lens.aperture lens /\ 0 < Lens.focalLength lens /\
  0 <= Lens.position lens /\ 0 <= Lens.transmittance lens <= 1.
Proof.
  unfold validateLens, pushIf.
  destruct (Rle_dec (Lens.aperture lens) 0);
    destruct (Rle_dec (Lens.focalLength lens) 0);
    destruct (Rlt_dec (Lens.position lens) 0);
    destruct (Rlt_dec (Lens.transmittance lens) 0);
    destruct (Rlt_dec 1 (Lens.transmittance lens));
    simpl; intro H; try discriminate; lra.
Qed.

Lemma validatePV_empty (pv : PhotovoltaicCell) :
  validatePV pv = [] ->
  0 < PV.efficiency pv <= 1 /\ 0 <= PV.position pv /\
  match PV.shape pv with
  | rectangular => 0 < PV.width pv /\ 0 < PV.height pv
  | circular => 0 < PV.diameter pv
  end.
Proof.
  unfold validatePV, pushIf.
  destruct (PV.shape pv);
    repeat match goal with
           | |- context [Rle_dec ?a ?b] => destruct (Rle_dec a b)
           | |- context [Rlt_dec ?a ?b] => destruct (Rlt_dec a b)
           end;
    simpl; intro H; try discriminate; repeat split; lra.
Qed.

(** A system passes [validateOpticalSystem] only with exactly one lens that
    passes [validateLens], a receiver that passes [validatePV], and the
    receiver strictly beyond the lens. *)
Lemma validateOpticalSystem_empty (system : OpticalSystem) :
  validateOpticalSystem system = [] ->
  exists lens,
    Sys.lenses system = [lens] /\
    validateLens lens = [] /\
    validatePV (Sys.pv system) = [] /\
    Lens.position lens < PV.position (Sys.pv system).
Proof.
  unfold validateOpticalSystem.
  destruct (Sys.lenses system) as [| lens [| lens' rest]]; simpl.
  - discriminate.
  - unfold pushIf. rewrite app_nil_r.
    destruct (Rle_dec (PV.position (Sys.pv system)) (Lens.position lens)) as [Hle | Hgt];
      intro H.
    + apply app_nil_both in H. destruct H as [_ H]. discriminate.
    + apply app_nil_both in H. destruct H as [Hl Hp].
      apply map_eq_nil in Hl. apply map_eq_nil in Hp.
      exists lens. repeat split; try assumption. lra.
  - discriminate.
Qed.

Lemma brightLens_validated : validateLens brightLens = [].
Proof.
  unfold validateLens, pushIf. simpl. cases_cmp. reflexivity.
Qed.

Lemma brightSystem_validated : validateOpticalSystem brightSystem = [].
Proof.
  assert (Hpv : validatePV brightPV = []).
  { unfold validatePV, pushIf. simpl. cases_cmp. reflexivity. }
  unfold validateOpticalSystem. simpl. rewrite brightLens_validated, Hpv. simpl.
  unfold pushIf. destruct (Rle_dec 2 0); [lra | reflexivity].
Qed.


(** ** Circular receiver: the three cases of the overlap (C5) *)

(** C5.  For a circular receiver of radius [r2 > 0] and a spot of radius
    [r1 > 0] whose centre is at distance [d] from the receiver's centre, the
    overlap area is 0 when [d >= r1 + r2]; the area of the smaller circle
    when [d <= |r1 - r2|]; and otherwise the two-segment formula.  So a spot
    enclosed in a larger receiver ([d <= r2 - r1]) is captured whole, and the
    ray trace then reports [effectiveArea = spotArea]. *)
Theorem circular_overlap_cases
  (pv : PhotovoltaicCell) (spotCenterY spotCenterZ r1 : R) :
  PV.shape pv = circular ->
  let r2 := PV.diameter pv / 2 in
  let d := sqrt (spotCenterY * spotCenterY + spotCenterZ * spotCenterZ) in
  0 < r1 -> 0 < r2 ->
  (d >= r1 + r2 -> calculateOverlapArea pv spotCenterY spotCenterZ r1 = 0) /\
  (d <= Rabs (r1 - r2) ->
   calculateOverlapArea pv spotCenterY spotCenterZ r1 = PI * (Rmin r1 r2) ^ 2) /\
  (Rabs (r1 - r2) < d < r1 + r2 ->
   calculateOverlapArea pv spotCenterY spotCenterZ r1 =
     r1 ^ 2 * acos ((d ^ 2 + r1 ^ 2 - r2 ^ 2) / (2 * d * r1))
     + r2 ^ 2 * acos ((d ^ 2 + r2 ^ 2 - r1 ^ 2) / (2 * d * r2))
     - 0.5 * sqrt ((- d + r1 + r2) * (d + r1 - r2) * (d - r1 + r2) * (d + r1 + r2))) /\
  (d <= r2 - r1 ->
   calculateOverlapArea pv spotCenterY spotCenterZ r1 = PI * r1 ^ 2) /\
  (forall (lens : Lens) (zenithAngle : R),
     let t := traceRaysThroughSystem (Sys.mk [lens] pv) zenithAngle in
     sqrt (Trace.spotCenterY t * Trace.spotCenterY t
           + Trace.spotCenterZ t * Trace.spotCenterZ t)
       <= r2 - Trace.spotDiameter t / 2 ->
     Trace.effectiveArea t = Trace.spotArea t).
Proof.
  intros Hshape r2 d Hr1 Hr2.
  assert (Hsmall : forall Y Z r, 0 < r ->
            sqrt (Y * Y + Z * Z) <= r2 - r ->
            calculateOverlapArea pv Y Z r = PI * r ^ 2).
  { intros Y Z r Hr Hin. unfold calculateOverlapArea. rewrite Hshape. fold r2.
    destruct (Rge_dec (sqrt (Y * Y + Z * Z)) (r + r2)); [lra |].
    destruct (Rle_dec (sqrt (Y * Y + Z * Z)) (Rabs (r - r2))) as [_ | Hout].
    - rewrite Rmin_left by (pose proof (sqrt_pos (Y * Y + Z * Z)); lra). ring.
    - exfalso. apply Hout. rewrite Rabs_left1 by
        (pose proof (sqrt_pos (Y * Y + Z * Z)); lra). lra. }
  repeat split.
  - intro Hfar. unfold calculateOverlapArea. rewrite Hshape. fold r2 d.
    destruct (Rge_dec d (r1 + r2)); [reflexivity | lra].
  - intro Hin. unfold calculateOverlapArea. rewrite Hshape. fold r2 d.
    destruct (Rge_dec d (r1 + r2)) as [Hfar | _].
    + exfalso. unfold Rabs in Hin. destruct (Rcase_abs (r1 - r2)); lra.
    + destruct (Rle_dec d (Rabs (r1 - r2))); [ring | contradiction].
  - intros [Hlo Hhi]. unfold calculateOverlapArea. rewrite Hshape. fold r2 d.
    destruct (Rge_dec d (r1 + r2)); [lra |].
    destruct (Rle_dec d (Rabs (r1 - r2))); [lra |].
    simpl. replace (d * 1) with d by ring.
    replace (r1 * 1) with r1 by ring. replace (r2 * 1) with r2 by ring.
    reflexivity.
  - intro Hin. apply Hsmall; assumption.
  - intros lens zenithAngle t Hin. subst t. simpl in *.
    rewrite Hsmall.
    + reflexivity.
    + pose proof (Rmax_r (calculateSpotDiameterSingleLens lens (PV.position pv) zenithAngle)
                         0.001). lra.
    + exact Hin.
Qed.

Lemma circular_overlap_cases_at_sample :
  calculateOverlapArea (createCircularPV 50 0.2 200) 0 0 10 = PI * 10 ^ 2.
Proof.
  destruct (circular_overlap_cases (createCircularPV 50 0.2 200) 0 0 10)
    as (_ & _ & _ & Hin & _); simpl; try reflexivity; try lra.
  apply Hin. replace (0 * 0 + 0 * 0) with 0 by ring. rewrite sqrt_0. simpl. lra.
Defined.

(** ** Angle sweep over exact angles (C8) *)

Section SweepLoop.

Variable system : OpticalSystem.
Variables intensity endAngle step : R.

Lemma sweepLoop_continue (fuel : nat) (angle : R) (results : list AngleSweepResult) :
  angle <= endAngle ->
  sweepLoop (S fuel) system intensity endAngle step angle results =
  sweepLoop fuel system intensity endAngle step (angle + step)
    (results ++ [sweepPoint system intensity angle]).
Proof.
  intro Hle. simpl. destruct (Rle_dec angle endAngle); [| contradiction].
  rewrite calculatePower_powerOf. reflexivity.
Qed.

Lemma sweepLoop_stop (fuel : nat) (angle : R) (results : list AngleSweepResult) :
  endAngle < angle ->
  sweepLoop (S fuel) system intensity endAngle step angle results = Done results.
Proof.
  intro Hgt. simpl. destruct (Rle_dec angle endAngle); [lra | reflexivity].
Qed.

Lemma sweepPoints_length (angle : R) (n : nat) :
  List.length (sweepPoints system intensity step angle n) = n.
Proof. unfold sweepPoints. rewrite length_map, length_seq. reflexivity. Qed.

Lemma sweepPoints_S (angle : R) (n : nat) :
  sweepPoints system intensity step angle (S n) =
  sweepPoint system intensity angle :: sweepPoints system intensity step (angle + step) n.
Proof.
  unfold sweepPoints. simpl. f_equal.
  - f_equal. ring.
  - rewrite <- seq_shift, map_map. apply map_ext. intro k.
    f_equal. rewrite S_INR. ring.
Qed.

(** A loop that passes its test exactly [n] times returns after [n + 1]
    tests, having pushed the [n] points in order. *)
Lemma sweepLoop_runs (n : nat) :
  forall (angle : R) (results : list AngleSweepResult) (fuel : nat),
    (forall k, (k < n)%nat -> angle + INR k * step <= endAngle) ->
    endAngle < angle + INR n * step ->
    (n < fuel)%nat ->
    sweepLoop fuel system intensity endAngle step angle results =
    Done (results ++ sweepPoints system intensity step angle n).
Proof.
  induction n as [| n IH]; intros angle results fuel Hin Hout Hfuel.
  - destruct fuel as [| fuel]; [lia |].
    rewrite sweepLoop_stop by (simpl in Hout; lra).
    unfold sweepPoints. simpl. rewrite app_nil_r. reflexivity.
  - destruct fuel as [| fuel]; [lia |].
    rewrite sweepLoop_continue.
    + rewrite IH.
      * rewrite sweepPoints_S, <- app_assoc. reflexivity.
      * intros k Hk. specialize (Hin (S k) ltac:(lia)).
        rewrite S_INR in Hin. lra.
      * rewrite S_INR in Hout. lra.
      * lia.
    + specialize (Hin 0%nat ltac:(lia)). simpl in Hin. lra.
Qed.

(** With a step that is zero or negative the test never fails once it has
    passed: whatever the fuel, the loop is still running when it is spent. *)
Lemma sweepLoop_spins (fuel : nat) :
  step <= 0 ->
  forall (angle : R) (results : list AngleSweepResult),
    angle <= endAngle ->
    sweepLoop fuel system intensity endAngle step angle results = OutOfFuel.
Proof.
  intro Hstep. induction fuel as [| fuel IH]; intros angle results Hle.
  - reflexivity.
  - rewrite sweepLoop_continue by assumption. apply IH. lra.
Qed.

(** The number of turns of a loop with a positive step over a range that is
    not empty. *)
Lemma sweep_turns (startAngle : R) :
  0 < step -> startAngle <= endAngle ->
  exists n : nat,
    Z.of_nat n = (Int_part ((endAngle - startAngle) / step) + 1)%Z /\
    (forall k, (k < n)%nat -> startAngle + INR k * step <= endAngle) /\
    endAngle < startAngle + INR n * step.
Proof.
  intros Hstep Hrange.
  set (q := (endAngle - startAngle) / step).
  assert (Hq : 0 <= q).
  { unfold q. apply Rmult_le_pos; [lra |].
    apply Rlt_le, Rinv_0_lt_compat, Hstep. }
  assert (Hqs : q * step = endAngle - startAngle) by (unfold q; field; lra).
  destruct (base_Int_part q) as [Hlo Hhi].
  assert (Hm : (0 <= Int_part q)%Z).
  { assert (H1 : (-1 < Int_part q)%Z) by (apply lt_IZR; lra). lia. }
  exists (Z.to_nat (Int_part q + 1)).
  assert (Hn : INR (Z.to_nat (Int_part q + 1)) = IZR (Int_part q) + 1).
  { rewrite INR_IZR_INZ, Z2Nat.id by lia. rewrite plus_IZR. reflexivity. }
  split; [apply Z2Nat.id; lia | split].
  - intros k Hk.
    assert (Hk1 : INR k + 1 <= IZR (Int_part q) + 1).
    { rewrite <- Hn, <- S_INR. apply le_INR. lia. }
    assert (INR k * step <= q * step) by (apply Rmult_le_compat_r; lra).
    lra.
  - rewrite Hn.
    assert (q * step < (IZR (Int_part q) + 1) * step)
      by (apply Rmult_lt_compat_r; lra).
    lra.
Qed.

End SweepLoop.

(** C8.  For every system and intensity, [sweepAngle (system, I, 0, 60, 15)]
    returns exactly 5 results, with angles 0, 15, 30, 45 and 60 in that
    order (six tests of the loop condition suffice, and more fuel changes
    nothing). *)
Theorem sweepAngle_0_60_15 (system : OpticalSystem) (intensity : R) :
  exists results,
    (forall fuel, (5 < fuel)%nat ->
       sweepAngle fuel system intensity 0 60 15 = Done results) /\
    List.length results = 5%nat /\
    map Sweep.angle results = [0; 15; 30; 45; 60].
Proof.
  exists (sweepPoints system intensity 15 0 5).
  split; [| split].
  - intros fuel Hfuel. unfold sweepAngle.
    rewrite (sweepLoop_runs system intensity 60 15 5).
    + reflexivity.
    + intros k Hk.
      assert (Hk' : INR k <= 4).
      { replace 4 with (INR 4) by (simpl; lra). apply le_INR. lia. }
      lra.
    + simpl. lra.
    + exact Hfuel.
  - apply sweepPoints_length.
  - unfold sweepPoints. simpl. repeat (f_equal; try lra).
Qed.


(** Neither does it with a negative step. *)
Lemma sweepAngle_negative_step_never_returns :
  ~ exists fuel,
      sweepAngle fuel (createOpticalSystem [sampleLens] samplePV) 1000 0 60 (-15)
      <> OutOfFuel.
Proof.
  intros (fuel & Hrun). apply Hrun. unfold sweepAngle.
  apply sweepLoop_spins; lra.
Qed.

(** ** The overlap never exceeds the spot, over the reals *)

(** *** Circular segments *)

(** [x * cos x <= sin x] on [[0, PI]]: the gap [sin x - x * cos x] starts at 0
    and has the derivative [x * sin x]. *)
Lemma tanGap_lim (x : R) : derivable_pt_lim tanGap x (x * sin x).
Proof.
  unfold tanGap.
  replace (x * sin x) with (cos x - (1 * cos x + x * - sin x)) by ring.
  apply (derivable_pt_lim_minus sin (fun t => t * cos t)).
  - apply derivable_pt_lim_sin.
  - apply (derivable_pt_lim_mult id cos).
    + apply derivable_pt_lim_id.
    + apply derivable_pt_lim_cos.
Qed.

Lemma tanGap_derivable : derivable tanGap.
Proof. intro x. exists (x * sin x). apply tanGap_lim. Defined.

Lemma tanGap_nonneg (x : R) : 0 <= x <= PI -> x * cos x <= sin x.
Proof.
  intros [H0 Hpi].
  destruct (Req_dec x 0) as [-> | Hx].
  - rewrite sin_0. lra.
  - assert (H : tanGap 0 <= tanGap x).
    { apply (derive_increasing_interv_var 0 PI tanGap tanGap_derivable).
      - apply PI_RGT_0.
      - intros t [Ht0 Htpi]. simpl.
        apply Rmult_le_pos; [lra |]. apply sin_ge_0; lra.
      - pose proof PI_RGT_0. lra.
      - lra.
      - lra. }
    unfold tanGap in H. rewrite sin_0, cos_0 in H. lra.
Qed.

Lemma segment_nonneg (x : R) : 0 < x < PI -> 0 <= segment x.
Proof.
  intros [H0 Hpi]. unfold segment.
  pose proof (sin_lt_x x H0) as Hsin.
  pose proof (sin_gt_0 x H0 Hpi) as Hpos.
  pose proof (COS_bound x) as [_ Hcos].
  assert (sin x * cos x <= sin x * 1) by (apply Rmult_le_compat_l; lra).
  lra.
Qed.

Section SegmentGap.

Variable b : R.

Lemma segGap_lim (x : R) :
  derivable_pt_lim (segGap b) x
    (2 * sin x * ((sin b * sin b) * sin x - segment b * cos x)).
Proof.
  unfold segGap, segment.
  replace (2 * sin x * ((sin b * sin b) * sin x - (b - sin b * cos b) * cos x))
    with ((sin b * sin b) * (1 - (cos x * cos x + sin x * - sin x))
          - (b - sin b * cos b) * (cos x * sin x + sin x * cos x)).
  - apply (derivable_pt_lim_minus
             (mult_real_fct (sin b * sin b) (fun t => t - sin t * cos t))
             (mult_real_fct (b - sin b * cos b) (fun t => sin t * sin t))).
    + apply derivable_pt_lim_scal.
      apply (derivable_pt_lim_minus id (fun t => sin t * cos t)).
      * apply derivable_pt_lim_id.
      * apply (derivable_pt_lim_mult sin cos).
        -- apply derivable_pt_lim_sin.
        -- apply derivable_pt_lim_cos.
    + apply derivable_pt_lim_scal.
      apply (derivable_pt_lim_mult sin sin); apply derivable_pt_lim_sin.
  - pose proof (sin2_cos2 x) as H. unfold Rsqr in H.
    replace (cos x * cos x) with (1 - sin x * sin x) by lra. ring.
Qed.

Lemma segGap_derivable : derivable (segGap b).
Proof.
  intro x.
  exists (2 * sin x * ((sin b * sin b) * sin x - segment b * cos x)).
  apply segGap_lim.
Defined.

Hypothesis b_pos : 0 < b.
Hypothesis b_lt_PI : b < PI.

Lemma segGap_slope (x : R) :
  b < x < PI -> 0 <= (sin b * sin b) * sin x - segment b * cos x.
Proof.
  intros [Hbx Hxpi].
  pose proof (segment_nonneg b (conj b_pos b_lt_PI)) as Hg.
  pose proof (sin_gt_0 x ltac:(lra) Hxpi) as Hsx.
  pose proof (sin_gt_0 b b_pos b_lt_PI) as Hsb.
  destruct (Rle_dec (cos x) 0) as [Hc | Hc].
  - assert (0 <= sin b * sin b * sin x).
    { apply Rmult_le_pos; [apply Rmult_le_pos |]; lra. }
    assert (segment b * cos x <= 0).
    { replace 0 with (segment b * 0) by ring. apply Rmult_le_compat_l; lra. }
    lra.
  - assert (Hx2 : x < PI / 2).
    { destruct (Rlt_dec x (PI / 2)) as [H | H]; [exact H |].
      exfalso. apply Hc. apply cos_le_0; lra. }
    assert (Hcos : cos x <= cos b) by (apply cos_decr_1; lra).
    assert (Hsin : sin b <= sin x) by (apply sin_incr_1; lra).
    pose proof (tanGap_nonneg b ltac:(lra)) as Htan.
    pose proof (sin2_cos2 b) as H1. unfold Rsqr in H1.
    assert (Hgb : segment b * cos b <= sin b * sin b * sin b).
    { unfold segment.
      replace ((b - sin b * cos b) * cos b)
        with (b * cos b - sin b * (cos b * cos b)) by ring.
      replace (cos b * cos b) with (1 - sin b * sin b) by lra. lra. }
    assert (segment b * cos x <= segment b * cos b)
      by (apply Rmult_le_compat_l; lra).
    assert (sin b * sin b * sin b <= sin b * sin b * sin x).
    { apply Rmult_le_compat_l; [apply Rmult_le_pos; lra | lra]. }
    lra.
Qed.

Lemma segGap_monotone (c : R) :
  b <= c -> c < PI ->
  segment b * (sin c * sin c) <= segment c * (sin b * sin b).
Proof.
  intros Hbc Hc.
  destruct (Req_dec b c) as [<- | Hne]; [lra |].
  assert (H : segGap b b <= segGap b c).
  { apply (derive_increasing_interv_var b PI (segGap b) segGap_derivable).
    - exact b_lt_PI.
    - intros t Ht. simpl.
      apply Rmult_le_pos.
      + pose proof (sin_gt_0 t ltac:(lra) ltac:(lra)). lra.
      + apply segGap_slope. exact Ht.
    - lra.
    - lra.
    - lra. }
  unfold segGap in H. lra.
Qed.

End SegmentGap.


(** *** The lens of two crossing circles *)

Lemma div_in_unit (n m : R) : 0 < m -> - m < n < m -> -1 < n / m < 1.
Proof.
  intros Hm [Hlo Hhi]. pose proof (Rinv_0_lt_compat m Hm) as Hinv.
  unfold Rdiv.
  assert (n * / m < m * / m) by (apply Rmult_lt_compat_r; lra).
  assert (- m * / m < n * / m) by (apply Rmult_lt_compat_r; lra).
  rewrite Rinv_r in * by lra.
  replace (- m * / m) with (- (m * / m)) in * by ring.
  rewrite Rinv_r in * by lra. lra.
Qed.

Section Lens.

Variables r1 r2 d : R.
Hypothesis r1_pos : 0 < r1.
Hypothesis apart : Rabs (r1 - r2) < d.
Hypothesis close : d < r1 + r2.

Lemma lens_gaps :
  0 < r2 /\ 0 < d /\ 0 < - d + r1 + r2 /\ 0 < d + r1 - r2 /\ 0 < d - r1 + r2.
Proof.
  pose proof (Rabs_pos (r1 - r2)).
  pose proof (Rle_abs (r1 - r2)).
  pose proof (Rle_abs (- (r1 - r2))) as H1. rewrite Rabs_Ropp in H1.
  repeat split; lra.
Qed.

Lemma lens_cos1 : -1 < lensCos r1 r2 d < 1.
Proof.
  destruct lens_gaps as (Hr2 & Hd & Hg1 & Hg2 & Hg3).
  apply div_in_unit.
  - apply Rmult_lt_0_compat; lra.
  - pose proof (Rmult_lt_0_compat _ _ Hg1 Hg3).
    pose proof (Rmult_lt_0_compat _ _ Hg2 (ltac:(lra) : 0 < d + r1 + r2)).
    split; lra.
Qed.

Lemma lens_cos2 : -1 < lensCos r2 r1 d < 1.
Proof.
  destruct lens_gaps as (Hr2 & Hd & Hg1 & Hg2 & Hg3).
  apply div_in_unit.
  - apply Rmult_lt_0_compat; lra.
  - pose proof (Rmult_lt_0_compat _ _ Hg1 Hg2).
    pose proof (Rmult_lt_0_compat _ _ Hg3 (ltac:(lra) : 0 < d + r1 + r2)).
    split; lra.
Qed.

(** Heron: the square root is twice the base [d] times the half chord. *)
Lemma lens_heron1 :
  sqrt (heron r1 r2 d) = 2 * d * (r1 * sin (acos (lensCos r1 r2 d))).
Proof.
  destruct lens_gaps as (Hr2 & Hd & Hg1 & Hg2 & Hg3).
  pose proof lens_cos1 as Hx.
  destruct (acos_bound_lt _ Hx) as [Ha0 Hapi].
  pose proof (sin_gt_0 _ Ha0 Hapi) as Hs.
  apply sqrt_lem_1.
  - unfold heron. repeat apply Rmult_le_pos; lra.
  - repeat apply Rmult_le_pos; lra.
  - pose proof (sin2 (acos (lensCos r1 r2 d))) as H2. unfold Rsqr in H2.
    rewrite cos_acos in H2 by lra.
    set (a := acos (lensCos r1 r2 d)) in *.
    replace (2 * d * (r1 * sin a) * (2 * d * (r1 * sin a)))
      with (4 * d * d * r1 * r1 * (sin a * sin a)) by ring.
    rewrite H2. unfold lensCos, heron. field. lra.
Qed.

Lemma lens_heron2 :
  sqrt (heron r1 r2 d) = 2 * d * (r2 * sin (acos (lensCos r2 r1 d))).
Proof.
  destruct lens_gaps as (Hr2 & Hd & Hg1 & Hg2 & Hg3).
  pose proof lens_cos2 as Hx.
  destruct (acos_bound_lt _ Hx) as [Ha0 Hapi].
  pose proof (sin_gt_0 _ Ha0 Hapi) as Hs.
  apply sqrt_lem_1.
  - unfold heron. repeat apply Rmult_le_pos; lra.
  - repeat apply Rmult_le_pos; lra.
  - pose proof (sin2 (acos (lensCos r2 r1 d))) as H2. unfold Rsqr in H2.
    rewrite cos_acos in H2 by lra.
    set (a := acos (lensCos r2 r1 d)) in *.
    replace (2 * d * (r2 * sin a) * (2 * d * (r2 * sin a)))
      with (4 * d * d * r2 * r2 * (sin a * sin a)) by ring.
    rewrite H2. unfold lensCos, heron. field. lra.
Qed.

Lemma lens_chord :
  r1 * sin (acos (lensCos r1 r2 d)) = r2 * sin (acos (lensCos r2 r1 d)).
Proof.
  destruct lens_gaps as (_ & Hd & _).
  apply Rmult_eq_reg_l with (2 * d); [| lra].
  rewrite <- lens_heron1, <- lens_heron2. reflexivity.
Qed.

Lemma lens_base : d = r1 * lensCos r1 r2 d + r2 * lensCos r2 r1 d.
Proof.
  destruct lens_gaps as (Hr2 & Hd & _). unfold lensCos. field. lra.
Qed.

(** The lens is the sum of two circular segments. *)
Lemma lens_as_segments :
  r1 * r1 * acos (lensCos r1 r2 d) + r2 * r2 * acos (lensCos r2 r1 d)
  - 0.5 * sqrt (heron r1 r2 d) =
  r1 * r1 * segment (acos (lensCos r1 r2 d))
  + r2 * r2 * segment (acos (lensCos r2 r1 d)).
Proof.
  pose proof lens_chord as Hh.
  rewrite lens_heron1. unfold segment.
  pose proof lens_cos1. pose proof lens_cos2.
  rewrite !cos_acos by lra.
  set (x1 := lensCos r1 r2 d) in *. set (x2 := lensCos r2 r1 d) in *.
  transitivity (r1 * r1 * acos x1 + r2 * r2 * acos x2
                - (r1 * x1 + r2 * x2) * (r1 * sin (acos x1))).
  - unfold x1, x2. rewrite <- lens_base. lra.
  - replace ((r1 * x1 + r2 * x2) * (r1 * sin (acos x1)))
      with (r1 * x1 * (r1 * sin (acos x1)) + r2 * x2 * (r1 * sin (acos x1))) by ring.
    rewrite Hh at 2. ring.
Qed.

(** The two angles are angles of one triangle. *)
Lemma lens_angles : acos (lensCos r1 r2 d) + acos (lensCos r2 r1 d) < PI.
Proof.
  destruct lens_gaps as (Hr2 & Hd & _).
  pose proof lens_cos1 as Hx1. pose proof lens_cos2 as Hx2.
  destruct (acos_bound_lt _ Hx1) as [Ha0 Hapi].
  destruct (acos_bound_lt _ Hx2) as [Hb0 Hbpi].
  pose proof (sin_gt_0 _ Ha0 Hapi) as Hsa.
  pose proof lens_chord as Hh. pose proof lens_base as Hbase.
  set (x1 := lensCos r1 r2 d) in *. set (x2 := lensCos r2 r1 d) in *.
  destruct (Rlt_dec (acos x1 + acos x2) PI) as [Hlt | Hge]; [exact Hlt |].
  exfalso.
  assert (Hs : sin (acos x1 + acos x2) <= 0) by (apply sin_le_0; lra).
  rewrite sin_plus, !cos_acos in Hs by lra.
  assert (Hpos : 0 < r1 * r2 * (sin (acos x1) * x2 + x1 * sin (acos x2))).
  { replace (r1 * r2 * (sin (acos x1) * x2 + x1 * sin (acos x2)))
      with (r2 * x2 * (r1 * sin (acos x1)) + r1 * x1 * (r2 * sin (acos x2))) by ring.
    rewrite <- Hh.
    replace (r2 * x2 * (r1 * sin (acos x1)) + r1 * x1 * (r1 * sin (acos x1)))
      with ((r1 * x1 + r2 * x2) * (r1 * sin (acos x1))) by ring.
    rewrite <- Hbase. apply Rmult_lt_0_compat; [lra |].
    apply Rmult_lt_0_compat; lra. }
  assert (Hr : 0 < r1 * r2) by (apply Rmult_lt_0_compat; lra).
  assert (r1 * r2 * (sin (acos x1) * x2 + x1 * sin (acos x2)) <= r1 * r2 * 0)
    by (apply Rmult_le_compat_l; lra).
  lra.
Qed.

(** The lens is no larger than the first circle. *)
Lemma lens_area_bounds :
  0 <= r1 * r1 * acos (lensCos r1 r2 d) + r2 * r2 * acos (lensCos r2 r1 d)
       - 0.5 * sqrt (heron r1 r2 d)
    <= PI * r1 * r1.
Proof.
  destruct lens_gaps as (Hr2 & Hd & _).
  pose proof lens_cos1 as Hx1. pose proof lens_cos2 as Hx2.
  destruct (acos_bound_lt _ Hx1) as [Ha0 Hapi].
  destruct (acos_bound_lt _ Hx2) as [Hb0 Hbpi].
  pose proof (sin_gt_0 _ Ha0 Hapi) as Hsa.
  pose proof (sin_gt_0 _ Hb0 Hbpi) as Hsb.
  pose proof lens_chord as Hh.
  pose proof (segment_nonneg _ (conj Ha0 Hapi)) as Hga.
  pose proof (segment_nonneg _ (conj Hb0 Hbpi)) as Hgb.
  rewrite lens_as_segments.
  pose proof lens_angles as Hsum.
  set (a := acos (lensCos r1 r2 d)) in *. set (b := acos (lensCos r2 r1 d)) in *.
  assert (Hr1 : 0 <= r1 * r1) by (apply Rmult_le_pos; lra).
  assert (Hr2' : 0 <= r2 * r2) by (apply Rmult_le_pos; lra).
  split.
  - apply Rplus_le_le_0_compat; apply Rmult_le_pos; assumption.
  - pose proof (segGap_monotone b Hb0 Hbpi (PI - a) ltac:(lra) ltac:(lra)) as Hmono.
    assert (Hseg : segment (PI - a) = PI - segment a).
    { unfold segment. rewrite sin_PI_x, Rtrigo_facts.cos_pi_minus. ring. }
    rewrite Hseg, sin_PI_x in Hmono.
    set (h := r1 * sin a) in *.
    assert (Hhpos : 0 < h * h).
    { apply Rmult_lt_0_compat; unfold h; apply Rmult_lt_0_compat; lra. }
    assert (Hkey : r2 * r2 * segment b * (h * h)
                   <= r1 * r1 * (PI - segment a) * (h * h)).
    { replace (r2 * r2 * segment b * (h * h))
        with (r2 * r2 * r1 * r1 * (segment b * (sin a * sin a)))
        by (unfold h; ring).
      replace (r1 * r1 * (PI - segment a) * (h * h))
        with (r2 * r2 * r1 * r1 * ((PI - segment a) * (sin b * sin b)))
        by (rewrite Hh; ring).
      apply Rmult_le_compat_l; [| exact Hmono].
      repeat apply Rmult_le_pos; lra. }
    apply Rmult_le_reg_r in Hkey; [| exact Hhpos].
    lra.
Qed.

End Lens.

(** *** Both receiver shapes *)

Lemma disc_area_nonneg (r : R) : 0 <= PI * r * r.
Proof.
  rewrite Rmult_assoc. apply Rmult_le_pos.
  - apply Rlt_le, PI_RGT_0.
  - apply Rle_0_sqr.
Qed.

Lemma circular_overlap_bounds (pv : PhotovoltaicCell) (Y Z r : R) :
  PV.shape pv = circular -> 0 < r ->
  0 <= calculateOverlapArea pv Y Z r <= PI * r * r.
Proof.
  intros Hshape Hr. unfold calculateOverlapArea. rewrite Hshape.
  set (r2 := PV.diameter pv / 2). set (d := sqrt (Y * Y + Z * Z)).
  assert (Hd : 0 <= d) by apply sqrt_pos.
  pose proof (disc_area_nonneg r) as Hspot.
  destruct (Rge_dec d (r + r2)) as [Hfar | Hnear]; [lra |].
  destruct (Rle_dec d (Rabs (r - r2))) as [Hin | Hout].
  - unfold Rmin. destruct (Rle_dec r r2) as [Hle | Hgt]; [lra |].
    pose proof PI_RGT_0 as Hpi.
    assert (Hsq : r2 * r2 <= r * r) by nra.
    assert (H0 : 0 <= r2 * r2) by nra.
    split; [rewrite Rmult_assoc; apply Rmult_le_pos; lra |].
    rewrite !Rmult_assoc. apply Rmult_le_compat_l; lra.
  - apply (lens_area_bounds r r2 d Hr); lra.
Qed.

Lemma rectangular_overlap_bounds (pv : PhotovoltaicCell) (Y Z r : R) :
  PV.shape pv = rectangular -> 0 < r ->
  0 <= calculateOverlapArea pv Y Z r <= PI * r * r.
Proof.
  intros Hshape Hr. unfold calculateOverlapArea. rewrite Hshape.
  set (left := Rmax (- (PV.width pv / 2)) (Z - r)).
  set (right := Rmin (PV.width pv / 2) (Z + r)).
  set (bottom := Rmax (- (PV.height pv / 2)) (Y - r)).
  set (top := Rmin (PV.height pv / 2) (Y + r)).
  pose proof (disc_area_nonneg r) as Hspot.
  destruct (Rge_dec left right) as [Hw | Hw]; simpl; [lra |].
  destruct (Rge_dec bottom top) as [Hh | Hh]; simpl; [lra |].
  assert (Hrect : 0 <= (right - left) * (top - bottom))
    by (apply Rmult_le_pos; lra).
  destruct (Rlt_dec _ _).
  - split; [apply Rmin_glb; lra | apply Rmin_r].
  - split; [apply Rmin_glb; lra | apply Rmin_r].
Qed.

Lemma overlap_bounds (pv : PhotovoltaicCell) (Y Z r : R) :
  0 < r -> 0 <= calculateOverlapArea pv Y Z r <= PI * r * r.
Proof.
  intro Hr. destruct (PV.shape pv) eqn:Hshape.
  - apply rectangular_overlap_bounds; assumption.
  - apply circular_overlap_bounds; assumption.
Qed.


(** Over the reals: for a receiver of either shape and a spot of radius
    [r > 0] at any centre, the overlap area lies between 0 and the spot's
    own area
    [PI * r ^ 2]; so every valid ray-trace result has
    [0 <= effectiveArea <= spotArea], and the captured fraction
    [effectiveArea / spotArea] is at most 1.  On doubles the arc cosine of
    the circular branch breaks this where the circles touch:
    [overlap_is_nan_for_grazing_spot]. *)
Theorem overlap_within_spot
  (pv : PhotovoltaicCell) (spotCenterY spotCenterZ r : R) :
  0 < r ->
  0 <= calculateOverlapArea pv spotCenterY spotCenterZ r <= PI * r ^ 2 /\
  (forall (lenses : list Lens) (zenithAngle : R),
     let t := traceRaysThroughSystem (Sys.mk lenses pv) zenithAngle in
     Trace.isValid t = true ->
     0 <= Trace.effectiveArea t <= Trace.spotArea t /\
     Trace.effectiveArea t / Trace.spotArea t <= 1).
Proof.
  assert (Hany : forall Y Z r', 0 < r' ->
            0 <= calculateOverlapArea pv Y Z r' <= PI * r' ^ 2).
  { intros Y Z r' Hr'. replace (PI * r' ^ 2) with (PI * r' * r') by ring.
    apply overlap_bounds. exact Hr'. }
  intro Hr. split; [apply Hany; exact Hr |].
  intros lenses zenithAngle t Hvalid. subst t.
  apply trace_valid_iff in Hvalid. simpl in Hvalid.
  destruct lenses as [| lens [| lens' rest]]; try discriminate.
  simpl.
  set (D := Rmax (calculateSpotDiameterSingleLens lens (PV.position pv) zenithAngle) 0.001).
  assert (HD : 0.001 <= D) by apply Rmax_r.
  pose proof (Hany (Lens.focalLength lens * tan (degToRad zenithAngle)
                    * ((PV.position pv - Lens.position lens) / Lens.focalLength lens))
                   0 (D / 2) ltac:(lra)) as Hb.
  replace (D / 2 * (D / 2 * 1)) with ((D / 2) ^ 2) by ring.
  split; [exact Hb |].
  assert (Hpos : 0 < PI * (D / 2) ^ 2).
  { pose proof PI_RGT_0. apply Rmult_lt_0_compat; [lra |].
    apply pow_lt. lra. }
  apply Rmult_le_reg_r with (PI * (D / 2) ^ 2); [exact Hpos |].
  unfold Rdiv at 1. rewrite Rmult_assoc, Rinv_l by lra. lra.
Qed.

Lemma overlap_within_spot_at_sample :
  0 <= calculateOverlapArea (createCircularPV 50 0.2 200) 30 0 10 <= PI * 10 ^ 2.
Proof.
  apply (overlap_within_spot (createCircularPV 50 0.2 200) 30 0 10). lra.
Defined.

(** ** Power of a single-lens system in closed form *)

Lemma degToRad_radToDeg (x : R) : degToRad (radToDeg x) = x.
Proof. unfold degToRad, radToDeg. field. apply PI_neq0. Qed.

Lemma single_lens_output_angle (lens : Lens) (pvPosition theta : R) :
  0 <= Lens.position lens ->
  calculateOutputAngle (buildSystemMatrix [lens] pvPosition) theta 0 =
  (1 - Lens.position lens / Lens.focalLength lens) * theta.
Proof.
  intro Hl. unfold buildSystemMatrix. rewrite sortByPosition_single. simpl.
  unfold calculateOutputAngle.
  destruct (Rlt_dec 0 (Lens.position lens)) as [Hpos | Hzero];
    destruct (Rlt_dec (Lens.position lens) pvPosition); simpl;
    try (assert (Lens.position lens = 0) as -> by lra);
    unfold Rdiv; ring.
Qed.

Lemma single_inputPower (lens : Lens) (pv : PhotovoltaicCell) (light : LightSource) :
  Power.inputPower (powerOf (Sys.mk [lens] pv) light) =
  Light.intensity light *
  (PI * (calculateEffectiveAperture (Lens.aperture lens) (Light.zenithAngle light) / 2) ^ 2).
Proof. reflexivity. Qed.

Lemma single_outputPower (lens : Lens) (pv : PhotovoltaicCell) (light : LightSource) :
  let t := traceRaysThroughSystem (Sys.mk [lens] pv) (Light.zenithAngle light) in
  0 <= Lens.position lens ->
  Power.outputPower (powerOf (Sys.mk [lens] pv) light) =
  Light.intensity light * Lens.transmittance lens
  * Trace.concentrationRatio t
  * Rmax 0 (cos ((1 - Lens.position lens / Lens.focalLength lens)
                 * degToRad (Light.zenithAngle light)))
  * Trace.effectiveArea t * PV.efficiency pv.
Proof.
  intros t Hl. unfold powerOf, calculatePower. simpl.
  rewrite degToRad_radToDeg, single_lens_output_angle by exact Hl.
  reflexivity.
Qed.

(** ** Capture of the whole spot, and of none of it *)

Lemma trace_spotDiameter_floor (lens : Lens) (pv : PhotovoltaicCell) (z : R) :
  0.001 <= Trace.spotDiameter (traceRaysThroughSystem (Sys.mk [lens] pv) z).
Proof. simpl. apply Rmax_r. Qed.

Lemma trace_spotArea_pos (lens : Lens) (pv : PhotovoltaicCell) (z : R) :
  0 < Trace.spotArea (traceRaysThroughSystem (Sys.mk [lens] pv) z).
Proof.
  pose proof (trace_spotDiameter_floor lens pv z) as HD. simpl in *.
  apply Rmult_lt_0_compat; [apply PI_RGT_0 |].
  apply Rmult_lt_0_compat; lra.
Qed.

Lemma trace_concentration (lens : Lens) (pv : PhotovoltaicCell) (z : R) :
  let t := traceRaysThroughSystem (Sys.mk [lens] pv) z in
  Trace.concentrationRatio t * Trace.spotArea t = PI * (Lens.aperture lens / 2) ^ 2.
Proof.
  intro t. pose proof (trace_spotArea_pos lens pv z) as Hpos.
  pose proof (trace_spotDiameter_floor lens pv z) as HD. subst t.
  simpl in *.
  match goal with |- context [Rlt_dec 0 ?a] => destruct (Rlt_dec 0 a) as [Ha | Ha] end.
  - field. split; [lra | apply PI_neq0].
  - contradiction.
Qed.

Lemma captured_outputPower (lens : Lens) (pv : PhotovoltaicCell) (light : LightSource) :
  let t := traceRaysThroughSystem (Sys.mk [lens] pv) (Light.zenithAngle light) in
  0 <= Lens.position lens ->
  Trace.effectiveArea t = Trace.spotArea t ->
  Power.outputPower (powerOf (Sys.mk [lens] pv) light) =
  Light.intensity light * Lens.transmittance lens * PV.efficiency pv
  * (PI * (Lens.aperture lens / 2) ^ 2)
  * Rmax 0 (cos ((1 - Lens.position lens / Lens.focalLength lens)
                 * degToRad (Light.zenithAngle light))).
Proof.
  intros t Hl Hcap. rewrite single_outputPower by exact Hl. fold t.
  rewrite Hcap, <- (trace_concentration lens pv (Light.zenithAngle light)). fold t.
  ring.
Qed.

Lemma rect_full_capture (pv : PhotovoltaicCell) (Y Z r : R) :
  PV.shape pv = rectangular -> 0 < r ->
  - (PV.width pv / 2) <= Z - r -> Z + r <= PV.width pv / 2 ->
  - (PV.height pv / 2) <= Y - r -> Y + r <= PV.height pv / 2 ->
  calculateOverlapArea pv Y Z r = PI * r * r.
Proof.
  intros Hshape Hr Hl Hrt Hb Ht. unfold calculateOverlapArea. rewrite Hshape.
  rewrite (Rmax_right _ (Z - r)), (Rmin_right _ (Z + r)) by lra.
  rewrite (Rmax_right _ (Y - r)), (Rmin_right _ (Y + r)) by lra.
  destruct (Rge_dec (Z - r) (Z + r)); [lra |].
  destruct (Rge_dec (Y - r) (Y + r)); [lra |]. simpl.
  replace ((Y - r + (Y + r)) / 2 - Y) with 0 by field.
  replace ((Z - r + (Z + r)) / 2 - Z) with 0 by field.
  replace (0 * (0 * 1) + 0 * (0 * 1)) with 0 by ring. rewrite sqrt_0.
  destruct (Rlt_dec 0 (r * 0.5)); [| lra].
  apply Rmin_right. pose proof PI_4.
  replace ((Z + r - (Z - r)) * (Y + r - (Y - r))) with (4 * (r * r)) by ring.
  rewrite Rmult_assoc. apply Rmult_le_compat_r; [apply Rle_0_sqr | lra].
Qed.


(** ** Energy balance (C1) *)

Lemma scale_by_fraction (x u : R) : 0 <= x -> 0 <= u <= 1 -> 0 <= x * u <= x.
Proof.
  intros Hx [Hu0 Hu1]. split.
  - apply Rmult_le_pos; assumption.
  - rewrite <- (Rmult_1_r x) at 2. apply Rmult_le_compat_l; assumption.
Qed.


Lemma degToRad_60 : degToRad 60 = PI / 3.
Proof. unfold degToRad. field. Qed.

Lemma degToRad_0 : degToRad 0 = 0.
Proof. unfold degToRad. field. Qed.

Lemma sqrt3_bounds : 1 <= sqrt 3 <= 2.
Proof.
  split.
  - rewrite <- sqrt_1 at 1. apply sqrt_le_1; lra.
  - replace 2 with (sqrt (2 * 2)) by (apply sqrt_square; lra).
    apply sqrt_le_1; lra.
Qed.

Lemma bright_spot_60 :
  let t := traceRaysThroughSystem brightSystem 60 in
  Trace.spotDiameter t = 1 /\ Trace.effectiveArea t = Trace.spotArea t.
Proof.
  assert (Hd : calculateSpotDiameterSingleLens brightLens 2 60 = 1).
  { unfold calculateSpotDiameterSingleLens, calculateEffectiveAperture. simpl.
    destruct (Rle_dec (2 - 0) 0); [lra |].
    destruct (Req_dec_T (2 - 0) 1); [lra |].
    rewrite degToRad_60, cos_PI3.
    replace (2 - 0 - 1) with 1 by ring. rewrite Rabs_R1. field. }
  simpl. rewrite Hd, degToRad_60, tan_PI3.
  rewrite (Rmax_left 1 0.001) by lra.
  split; [reflexivity |].
  pose proof sqrt3_bounds.
  rewrite rect_full_capture; simpl; try reflexivity; try lra.
Qed.

(** C1, at a failing input.  The system [brightSystem] (one lens of aperture
    2, focal length 1 and transmittance 0.9 at the origin; a 100 x 100
    receiver of efficiency 0.9 at position 2) passes [validateOpticalSystem];
    under light of intensity 1 at a zenith angle of 60 degrees
    [calculatePower] returns a valid result with [inputPower = PI / 4] and
    [outputPower = 0.405 * PI]: the output exceeds the input, and
    [systemEfficiency] is 1.62. *)
Theorem calculatePower_output_exceeds_input :
  validateOpticalSystem brightSystem = [] /\
  exists p,
    calculatePower brightSystem (Light.mk 1 60) = Done p /\
    Power.isValid p = true /\
    Power.inputPower p = PI / 4 /\
    Power.outputPower p = 0.405 * PI /\
    Power.inputPower p < Power.outputPower p /\
    Power.systemEfficiency p = 1.62.
Proof.
  split; [apply brightSystem_validated |].
  exists (powerOf brightSystem (Light.mk 1 60)).
  destruct bright_spot_60 as [_ Hcap].
  assert (Hin : Power.inputPower (powerOf brightSystem (Light.mk 1 60)) = PI / 4).
  { unfold brightSystem, createOpticalSystem. rewrite single_inputPower.
    unfold calculateEffectiveAperture. simpl. rewrite degToRad_60, cos_PI3. field. }
  assert (Hout : Power.outputPower (powerOf brightSystem (Light.mk 1 60)) = 0.405 * PI).
  { unfold brightSystem, createOpticalSystem.
    rewrite captured_outputPower; [| simpl; lra | exact Hcap]. simpl.
    replace ((1 - 0 / 1) * degToRad 60) with (PI / 3) by (rewrite degToRad_60; field).
    rewrite cos_PI3, Rmax_right by lra. lra. }
  pose proof PI_RGT_0 as Hpi.
  split; [apply calculatePower_powerOf |].
  split; [reflexivity |].
  split; [exact Hin |]. split; [exact Hout |]. split; [lra |].
  change (Power.systemEfficiency (powerOf brightSystem (Light.mk 1 60)))
    with (if Rlt_dec 0 (Power.inputPower (powerOf brightSystem (Light.mk 1 60)))
          then Power.outputPower (powerOf brightSystem (Light.mk 1 60))
               / Power.inputPower (powerOf brightSystem (Light.mk 1 60))
          else 0).
  rewrite Hin, Hout. destruct (Rlt_dec 0 (PI / 4)); [| lra].
  replace 0.405 with (405 / 1000) by lra. replace 1.62 with (162 / 100) by lra.
  field. lra.
Qed.

(** X19.  At normal incidence, where the test suite checks it, the balance
    holds on the current code as well. *)
Lemma output_within_input_at_normal_incidence
  (lens : Lens) (pv : PhotovoltaicCell) (intensity : R) :
  validateOpticalSystem (Sys.mk [lens] pv) = [] ->
  0 <= intensity ->
  let p := powerOf (Sys.mk [lens] pv) (Light.mk intensity 0) in
  0 <= Power.outputPower p <= Power.inputPower p.
Proof.
  intros Hvalid HI p. subst p.
  destruct (validateOpticalSystem_empty _ Hvalid) as (lens0 & Hlens & Hvl & Hvp & _).
  simpl in Hlens, Hvp. injection Hlens as <-.
  destruct (validateLens_empty lens Hvl) as (_ & _ & Hl & Htau).
  destruct (validatePV_empty pv Hvp) as ((Heta0 & Heta1) & _).
  rewrite single_outputPower, single_inputPower by exact Hl.
  cbn [Light.intensity Light.zenithAngle].
  unfold calculateEffectiveAperture.
  rewrite degToRad_0, Rmult_0_r, cos_0, Rmult_1_r, (Rmax_right 0 1) by lra.
  set (t := traceRaysThroughSystem (Sys.mk [lens] pv) 0).
  pose proof (trace_concentration lens pv 0) as Hconc. cbv zeta in Hconc. fold t in Hconc.
  pose proof (trace_spotArea_pos lens pv 0) as Hspot. fold t in Hspot.
  pose proof (trace_spotDiameter_floor lens pv 0) as HD. fold t in HD.
  assert (Heff : 0 <= Trace.effectiveArea t <= Trace.spotArea t).
  { subst t. simpl in *.
    match goal with
    | |- 0 <= calculateOverlapArea ?pv ?Y ?Z ?r <= _ =>
        pose proof (overlap_bounds pv Y Z r ltac:(lra)) as Hb
    end.
    lra. }
  set (inputArea := PI * (Lens.aperture lens / 2) ^ 2) in *.
  assert (Harea : 0 <= inputArea).
  { unfold inputArea. apply Rmult_le_pos; [apply Rlt_le, PI_RGT_0 | apply pow2_ge_0]. }
  assert (Hcr : 0 <= Trace.concentrationRatio t).
  { apply Rmult_le_reg_r with (Trace.spotArea t); [exact Hspot |]. lra. }
  assert (Hcap : 0 <= Trace.concentrationRatio t * Trace.effectiveArea t <= inputArea).
  { split; [apply Rmult_le_pos; lra |].
    rewrite <- Hconc. apply Rmult_le_compat_l; lra. }
  replace (intensity * Lens.transmittance lens * Trace.concentrationRatio t * 1
           * Trace.effectiveArea t * PV.efficiency pv)
    with (intensity * (Trace.concentrationRatio t * Trace.effectiveArea t)
          * Lens.transmittance lens * PV.efficiency pv) by ring.
  assert (H0 : 0 <= intensity * (Trace.concentrationRatio t * Trace.effectiveArea t)
               <= intensity * inputArea).
  { split; [apply Rmult_le_pos; lra | apply Rmult_le_compat_l; lra]. }
  destruct (scale_by_fraction _ _ (proj1 H0) Htau) as [H1 H2].
  destruct (scale_by_fraction _ _ H1 (conj (Rlt_le _ _ Heta0) Heta1)) as [H3 H4].
  lra.
Qed.

(** ** The earlier revision keeps the balance *)

Lemma sortByPosition_nil_iff (lenses : list Lens) :
  sortByPosition lenses = [] <-> lenses = [].
Proof.
  split; [| intros ->; reflexivity].
  destruct lenses as [| l ls]; [reflexivity |]. simpl.
  destruct (sortByPosition ls) as [| h t]; simpl; [discriminate |].
  destruct (Rle_dec (Lens.position l) (Lens.position h)); discriminate.
Qed.

Lemma legacy_trace_shape (system : OpticalSystem) (z : R) (first : Lens) (rest : list Lens) :
  sortByPosition (Sys.lenses system) = first :: rest ->
  let t := Legacy.traceRaysThroughSystem system z in
  Legacy.isValid t = true /\
  exists D Y,
    0.001 <= D /\
    Legacy.spotDiameter t = D /\
    Legacy.spotArea t = PI * (D / 2) ^ 2 /\
    Legacy.effectiveArea t = calculateOverlapArea (Sys.pv system) Y 0 (D / 2).
Proof.
  intros Hsorted t. subst t. unfold Legacy.traceRaysThroughSystem.
  rewrite Hsorted.
  destruct (Legacy.walk 0 (first :: rest) _) as [[beam pos] focus].
  split; [reflexivity |].
  eexists. eexists. split; [| repeat split]. apply Rmax_r.
Qed.

(** X21.  The earlier ray trace turns away only the empty lens list: two or
    more lenses get a valid result from the beam walk. *)
Lemma legacy_trace_valid_iff (system : OpticalSystem) (z : R) :
  Legacy.isValid (Legacy.traceRaysThroughSystem system z) = true <->
  Sys.lenses system <> [].
Proof.
  destruct (sortByPosition (Sys.lenses system)) as [| first rest] eqn:Hsorted.
  - pose proof (proj1 (sortByPosition_nil_iff _) Hsorted) as Hnil.
    unfold Legacy.traceRaysThroughSystem. rewrite Hnil. simpl.
    split; [discriminate | intro H; exfalso; apply H; reflexivity].
  - destruct (legacy_trace_shape system z first rest Hsorted) as [Hvalid _].
    split; [| intros _; exact Hvalid].
    intros _ Hnil. rewrite Hnil in Hsorted. discriminate.
Qed.

Lemma legacy_capture_ratio (system : OpticalSystem) (z : R) (first : Lens) (rest : list Lens) :
  sortByPosition (Sys.lenses system) = first :: rest ->
  let t := Legacy.traceRaysThroughSystem system z in
  0 <= (if Rlt_dec 0 (Legacy.spotArea t)
        then Legacy.effectiveArea t / Legacy.spotArea t else 0) <= 1.
Proof.
  intros Hsorted t.
  destruct (legacy_trace_shape system z first rest Hsorted)
    as (_ & D & Y & HD & _ & Harea & Heff).
  fold t in Harea, Heff. rewrite Harea, Heff.
  destruct (Rlt_dec 0 (PI * (D / 2) ^ 2)) as [Hpos | _]; [| lra].
  pose proof (overlap_bounds (Sys.pv system) Y 0 (D / 2) ltac:(lra)) as [Hlo Hhi].
  replace (PI * (D / 2) * (D / 2)) with (PI * (D / 2) ^ 2) in Hhi by ring.
  pose proof (Rinv_0_lt_compat _ Hpos) as Hinv.
  split.
  - apply Rmult_le_pos; lra.
  - apply Rmult_le_reg_r with (PI * (D / 2) ^ 2); [exact Hpos |].
    unfold Rdiv. rewrite Rmult_assoc, Rinv_l by lra. lra.
Qed.

(** Over the reals the earlier revision keeps the energy balance, for any
    number of lenses: with an intensity that is not negative and a receiver
    efficiency in [[0, 1]], its [outputPower] never exceeds its
    [inputPower]. *)
Theorem legacy_output_within_input (system : OpticalSystem) (light : LightSource) :
  0 <= Light.intensity light ->
  0 <= PV.efficiency (Sys.pv system) <= 1 ->
  let p := Legacy.calculatePower system light in
  0 <= Power.outputPower p <= Power.inputPower p.
Proof.
  intros HI Heta p. subst p. unfold Legacy.calculatePower.
  destruct (sortByPosition (Sys.lenses system)) as [| first rest] eqn:Hsorted.
  - simpl. lra.
  - destruct (legacy_trace_shape system (Light.zenithAngle light) first rest Hsorted)
      as [Hvalid _].
    pose proof (legacy_capture_ratio system (Light.zenithAngle light) first rest Hsorted)
      as Hratio.
    cbv zeta in Hratio. rewrite Hvalid. cbn [negb Power.outputPower Power.inputPower].
    set (input := Light.intensity light * _).
    set (ratio := if Rlt_dec 0 _ then _ else 0) in *.
    set (cosFactor := cos (atan _)).
    assert (Hinput : 0 <= input).
    { unfold input. apply Rmult_le_pos; [exact HI |].
      apply Rmult_le_pos; [apply Rlt_le, PI_RGT_0 | apply pow2_ge_0]. }
    assert (Hcos : 0 <= cosFactor <= 1).
    { unfold cosFactor.
      match goal with |- context [atan ?x] => pose proof (atan_bound x) as [Hl Hu] end.
      split.
      - apply Rlt_le, cos_gt_0; lra.
      - apply COS_bound. }
    destruct (scale_by_fraction input ratio Hinput Hratio) as [H1 H2].
    destruct (scale_by_fraction _ cosFactor H1 Hcos) as [H3 H4].
    destruct (scale_by_fraction _ _ H3 Heta) as [H5 H6].
    lra.
Qed.

(** ** Power against zenith angle *)




Lemma bright_spot_0 :
  let t := traceRaysThroughSystem brightSystem 0 in
  Trace.spotDiameter t = 2 /\ Trace.effectiveArea t = Trace.spotArea t.
Proof.
  assert (Hd : calculateSpotDiameterSingleLens brightLens 2 0 = 2).
  { unfold calculateSpotDiameterSingleLens, calculateEffectiveAperture. simpl.
    destruct (Rle_dec (2 - 0) 0); [lra |].
    destruct (Req_dec_T (2 - 0) 1); [lra |].
    rewrite degToRad_0, cos_0.
    replace (2 - 0 - 1) with 1 by ring. rewrite Rabs_R1. field. }
  simpl. rewrite Hd, degToRad_0, tan_0.
  rewrite (Rmax_left 2 0.001) by lra.
  split; [reflexivity |].
  rewrite rect_full_capture; simpl; try reflexivity; try lra.
Qed.




(** ** Where the power rises with the angle *)

Lemma wideSystem_validated : validateOpticalSystem wideSystem = [].
Proof.
  assert (Hlens : validateLens wideLens = []).
  { unfold validateLens, pushIf. simpl. cases_cmp. reflexivity. }
  assert (Hpv : validatePV dotPV = []).
  { unfold validatePV, pushIf. simpl. cases_cmp. reflexivity. }
  unfold validateOpticalSystem. simpl. rewrite Hlens, Hpv. simpl.
  unfold pushIf. destruct (Rle_dec 2 0); [lra | reflexivity].
Qed.

(** A circular receiver that lies inside the spot is covered whole. *)
Lemma circular_receiver_inside_spot (pv : PhotovoltaicCell) (Y r : R) :
  PV.shape pv = circular ->
  0 < PV.diameter pv / 2 ->
  0 <= Y -> Y <= r - PV.diameter pv / 2 ->
  calculateOverlapArea pv Y 0 r = PI * (PV.diameter pv / 2) ^ 2.
Proof.
  intros Hshape Hr2 HY Hin. unfold calculateOverlapArea. rewrite Hshape.
  replace (Y * Y + 0 * 0) with (Y * Y) by ring. rewrite sqrt_square by exact HY.
  destruct (Rge_dec Y (r + PV.diameter pv / 2)); [lra |].
  rewrite (Rabs_right (r - PV.diameter pv / 2)) by lra.
  destruct (Rle_dec Y (r - PV.diameter pv / 2)); [| lra].
  rewrite Rmin_right by lra. ring.
Qed.

Lemma wide_spot (z c : R) :
  cos (degToRad z) = c -> 0.001 <= 100 * c ->
  0 <= tan (degToRad z) * 2 <= 50 * c - 1 ->
  let t := traceRaysThroughSystem wideSystem z in
  Trace.effectiveArea t = PI /\ Trace.concentrationRatio t = / (c * c).
Proof.
  intros Hcos Hc Htan t. subst t.
  assert (Hd : calculateSpotDiameterSingleLens wideLens 2 z = 100 * c).
  { unfold calculateSpotDiameterSingleLens, calculateEffectiveAperture. simpl.
    destruct (Rle_dec (2 - 0) 0); [lra |].
    destruct (Req_dec_T (2 - 0) 1); [lra |].
    rewrite Hcos. replace (2 - 0 - 1) with 1 by ring. rewrite Rabs_R1. field. }
  simpl. rewrite Hd, (Rmax_left (100 * c) 0.001) by lra.
  split.
  - rewrite circular_receiver_inside_spot; simpl; try reflexivity; lra.
  - assert (Hpos : 0 < PI * (100 * c / 2 * (100 * c / 2 * 1))).
    { apply Rmult_lt_0_compat; [apply PI_RGT_0 |].
      apply Rmult_lt_0_compat; lra. }
    destruct (Rlt_dec 0 (PI * (100 * c / 2 * (100 * c / 2 * 1)))); [| contradiction].
    field. split; [lra | apply PI_neq0].
Qed.

(** With the receiver inside the spot the power rises with the angle: at 60
    degrees it is twice the power at normal incidence. *)
Lemma outputPower_rises_with_receiver_inside_spot :
  validateOpticalSystem wideSystem = [] /\
  Power.outputPower (powerOf wideSystem (Light.mk 1 0)) = 0.81 * PI /\
  Power.outputPower (powerOf wideSystem (Light.mk 1 60)) = 1.62 * PI.
Proof.
  split; [exact wideSystem_validated |].
  unfold wideSystem, createOpticalSystem.
  rewrite !single_outputPower by (simpl; lra).
  change (Sys.mk [wideLens] dotPV) with wideSystem.
  cbn [Light.zenithAngle Light.intensity].
  destruct (wide_spot 0 1) as [He0 Hc0].
  { rewrite degToRad_0. apply cos_0. }
  { lra. }
  { rewrite degToRad_0, tan_0. lra. }
  destruct (wide_spot 60 (1 / 2)) as [He60 Hc60].
  { rewrite degToRad_60. apply cos_PI3. }
  { lra. }
  { rewrite degToRad_60, tan_PI3. pose proof sqrt3_bounds. lra. }
  rewrite He0, Hc0, He60, Hc60. simpl.
  replace ((1 - 0 / 1) * degToRad 0) with 0 by (rewrite degToRad_0; field).
  replace ((1 - 0 / 1) * degToRad 60) with (PI / 3) by (rewrite degToRad_60; field).
  rewrite cos_0, cos_PI3, !Rmax_right by lra.
  replace (/ (1 * 1)) with 1 by field.
  replace (/ (1 / 2 * (1 / 2))) with 4 by field.
  split; lra.
Qed.

(** ** The system matrix as a product of ray-transfer matrices *)

Lemma multiplyMatrices_identity_l (m : ABCDMatrix) :
  multiplyMatrices identityMatrix m = m.
Proof.
  destruct m as [[a b] [c d]]. unfold multiplyMatrices, identityMatrix.
  matrix_eq; ring.
Qed.

(** X2.  [multiplyMatrices] is associative and [identityMatrix] is its unit
    on both sides: the 2x2 products of [buildSystemMatrix] may be grouped
    in any way. *)
Theorem multiplyMatrices_monoid (m1 m2 m3 : ABCDMatrix) :
  multiplyMatrices m1 (multiplyMatrices m2 m3)
    = multiplyMatrices (multiplyMatrices m1 m2) m3 /\
  multiplyMatrices identityMatrix m1 = m1 /\
  multiplyMatrices m1 identityMatrix = m1.
Proof.
  split; [| split; [apply multiplyMatrices_identity_l | apply multiplyMatrices_identity_r]].
  destruct m1 as [[a1 b1] [c1 d1]], m2 as [[a2 b2] [c2 d2]], m3 as [[a3 b3] [c3 d3]].
  unfold multiplyMatrices. matrix_eq; ring.
Qed.

Lemma det_multiply (m1 m2 : ABCDMatrix) :
  det (multiplyMatrices m1 m2) = det m1 * det m2.
Proof.
  destruct m1 as [[a1 b1] [c1 d1]], m2 as [[a2 b2] [c2 d2]].
  unfold det, multiplyMatrices. simpl. ring.
Qed.

Lemma det_lens (f : R) : det (createLensMatrix f) = 1.
Proof. unfold det, createLensMatrix. simpl. ring. Qed.

Lemma det_propagation (d : R) : det (createPropagationMatrix d) = 1.
Proof. unfold det, createPropagationMatrix. simpl. ring. Qed.

Lemma det_buildStep (st : ABCDMatrix * R) (lens : Lens) :
  det (fst (buildStep st lens)) = det (fst st).
Proof.
  destruct st as [m cur]. unfold buildStep.
  destruct (Rlt_dec cur (Lens.position lens)); cbn [fst];
    rewrite !det_multiply, ?det_lens, ?det_propagation; ring.
Qed.

Lemma det_fold (lenses : list Lens) (st : ABCDMatrix * R) :
  det (fst (fold_left buildStep lenses st)) = det (fst st).
Proof.
  revert st. induction lenses as [| l ls IH]; intro st; simpl; [reflexivity |].
  rewrite IH. apply det_buildStep.
Qed.

(** X3.  Whatever the lenses and the receiver position, the system matrix
    has determinant [A * D - B * C = 1]: every step of [buildSystemMatrix]
    multiplies by a lens matrix or a propagation matrix, both of determinant
    1. *)
Theorem buildSystemMatrix_unimodular (lenses : list Lens) (pvPosition : R) :
  det (buildSystemMatrix lenses pvPosition) = 1.
Proof.
  unfold buildSystemMatrix.
  destruct (sortByPosition lenses) as [| first rest].
  - unfold det, identityMatrix. simpl. ring.
  - destruct (Rlt_dec _ _);
      rewrite ?det_multiply, ?det_propagation, det_fold;
      unfold det, identityMatrix; simpl; ring.
Qed.

(** X6.  The exit angle [calculateOutputAngle] reads from the system matrix
    does not depend on the receiver position: the final propagation changes
    only the first row of the matrix. *)
Theorem outputAngle_independent_of_receiver
  (lenses : list Lens) (p p' theta y : R) :
  calculateOutputAngle (buildSystemMatrix lenses p) theta y =
  calculateOutputAngle (buildSystemMatrix lenses p') theta y.
Proof.
  unfold buildSystemMatrix, calculateOutputAngle.
  destruct (sortByPosition lenses) as [| first rest]; [reflexivity |].
  set (m := fst (fold_left buildStep (first :: rest) (identityMatrix, 0))).
  destruct m as [[a b] [c d]] eqn:Hm.
  destruct (Rlt_dec _ p); destruct (Rlt_dec _ p'); simpl; ring.
Qed.

(** *** The order in which the lenses are listed *)

Lemma samePlaces_refl (l : list Lens) : samePlaces l l.
Proof. induction l; constructor; assumption. Qed.

Lemma insert_samePlaces (x : Lens) (s s' : list Lens) :
  samePlaces s s' -> samePlaces (insertByPosition x s) (insertByPosition x s').
Proof.
  induction 1 as [| h l l' H IH | a b l Hab | l1 l2 l3 H1 IH1 H2 IH2].
  - apply samePlaces_refl.
  - simpl. destruct (Rle_dec (Lens.position x) (Lens.position h)).
    + apply sp_skip, sp_skip, H.
    + apply sp_skip, IH.
  - simpl. rewrite <- Hab.
    destruct (Rle_dec (Lens.position x) (Lens.position a)).
    + apply sp_skip, sp_swap, Hab.
    + apply sp_swap, Hab.
  - eapply sp_trans; eassumption.
Qed.

Lemma insert_insert_samePlaces (x y : Lens) (s : list Lens) :
  samePlaces (insertByPosition y (insertByPosition x s))
             (insertByPosition x (insertByPosition y s)).
Proof.
  induction s as [| h t IH]; simpl.
  - destruct (Rle_dec (Lens.position y) (Lens.position x)) as [Hyx | Hyx];
      destruct (Rle_dec (Lens.position x) (Lens.position y)) as [Hxy | Hxy];
      try apply samePlaces_refl.
    + apply sp_swap. lra.
    + lra.
  - destruct (Rle_dec (Lens.position x) (Lens.position h)) as [Hxh | Hxh];
      destruct (Rle_dec (Lens.position y) (Lens.position h)) as [Hyh | Hyh]; simpl.
    + destruct (Rle_dec (Lens.position y) (Lens.position x)) as [Hyx | Hyx];
        destruct (Rle_dec (Lens.position x) (Lens.position y)) as [Hxy | Hxy];
        simpl;
        repeat match goal with
               | |- context [Rle_dec ?a ?b] => destruct (Rle_dec a b); try lra
               end;
        try apply samePlaces_refl.
      apply sp_swap. lra.
    + repeat match goal with
             | |- context [Rle_dec ?a ?b] => destruct (Rle_dec a b); try lra
             end.
      apply samePlaces_refl.
    + repeat match goal with
             | |- context [Rle_dec ?a ?b] => destruct (Rle_dec a b); try lra
             end.
      apply samePlaces_refl.
    + repeat match goal with
             | |- context [Rle_dec ?a ?b] => destruct (Rle_dec a b); try lra
             end.
      apply sp_skip, IH.
Qed.

Lemma sort_samePlaces (l l' : list Lens) :
  Permutation l l' -> samePlaces (sortByPosition l) (sortByPosition l').
Proof.
  induction 1 as [| x l l' H IH | x y l | l1 l2 l3 H1 IH1 H2 IH2]; simpl.
  - constructor.
  - apply insert_samePlaces, IH.
  - apply insert_insert_samePlaces.
  - eapply sp_trans; eassumption.
Qed.

Lemma lensMatrices_commute (f g : R) (m : ABCDMatrix) :
  multiplyMatrices (createLensMatrix f) (multiplyMatrices (createLensMatrix g) m) =
  multiplyMatrices (createLensMatrix g) (multiplyMatrices (createLensMatrix f) m).
Proof.
  destruct m as [[a b] [c d]]. unfold multiplyMatrices, createLensMatrix.
  matrix_eq; ring.
Qed.

Lemma buildStep_swap (x y : Lens) (st : ABCDMatrix * R) :
  Lens.position x = Lens.position y ->
  buildStep (buildStep st x) y = buildStep (buildStep st y) x.
Proof.
  intro Hxy. destruct st as [m cur]. unfold buildStep. rewrite <- Hxy.
  destruct (Rlt_dec (Lens.position x) (Lens.position x)); [lra |].
  f_equal. apply lensMatrices_commute.
Qed.

Lemma fold_samePlaces (s s' : list Lens) :
  samePlaces s s' ->
  forall st, fold_left buildStep s st = fold_left buildStep s' st.
Proof.
  induction 1 as [| h l l' H IH | a b l Hab | l1 l2 l3 H1 IH1 H2 IH2]; intro st; simpl.
  - reflexivity.
  - apply IH.
  - rewrite (buildStep_swap a b st Hab). reflexivity.
  - rewrite IH1. apply IH2.
Qed.

Lemma last_cons (x d : Lens) (l : list Lens) : last (x :: l) d = last l x.
Proof.
  revert x d. induction l as [| h t IH]; intros x d; [reflexivity |].
  change (last (x :: h :: t) d) with (last (h :: t) d).
  rewrite (IH h d), (IH h x). reflexivity.
Qed.

Lemma last_samePlaces (s s' : list Lens) :
  samePlaces s s' ->
  forall d d', Lens.position d = Lens.position d' ->
               Lens.position (last s d) = Lens.position (last s' d').
Proof.
  induction 1 as [| h l l' H IH | a b l Hab | l1 l2 l3 H1 IH1 H2 IH2]; intros d d' Hd.
  - exact Hd.
  - rewrite !last_cons. apply IH. reflexivity.
  - rewrite !last_cons. clear d d' Hd. revert a b Hab.
    induction l as [| h t IHt]; intros a b Hab; [simpl; lra |].
    rewrite !last_cons. reflexivity.
  - rewrite (IH1 d d Logic.eq_refl). apply IH2. exact Hd.
Qed.

Lemma samePlaces_length (s s' : list Lens) :
  samePlaces s s' -> List.length s = List.length s'.
Proof.
  induction 1 as [| h l l' H IH | a b l Hab | l1 l2 l3 H1 IH1 H2 IH2]; simpl.
  - reflexivity.
  - rewrite IH. reflexivity.
  - reflexivity.
  - rewrite IH1. exact IH2.
Qed.

(** X4.  [buildSystemMatrix] sorts a copy of the lenses by position, so the
    order in which the caller lists them is irrelevant: any permutation of
    the list gives the same matrix (also when two lenses share a position,
    since thin-lens matrices commute). *)
Theorem buildSystemMatrix_order_independent
  (lenses lenses' : list Lens) (pvPosition : R) :
  Permutation lenses lenses' ->
  buildSystemMatrix lenses pvPosition = buildSystemMatrix lenses' pvPosition.
Proof.
  intro Hperm. pose proof (sort_samePlaces _ _ Hperm) as Hsame.
  unfold buildSystemMatrix.
  pose proof (samePlaces_length _ _ Hsame) as Hlen.
  remember (sortByPosition lenses) as s eqn:Hs.
  remember (sortByPosition lenses') as s' eqn:Hs'.
  clear Hs Hs' Hperm.
  destruct s as [| first rest]; destruct s' as [| first' rest'];
    simpl in Hlen; try discriminate Hlen.
  - reflexivity.
  - rewrite (fold_samePlaces _ _ Hsame).
    assert (Hlast : Lens.position (last (first :: rest) first)
                    = Lens.position (last (first' :: rest') first')).
    { rewrite (last_samePlaces _ _ Hsame first first Logic.eq_refl).
      rewrite (last_cons first' first), (last_cons first' first'). reflexivity. }
    rewrite Hlast. reflexivity.
Qed.

(** *** Lenses in ascending position *)

Lemma propagate_when_ahead (cur pos : R) (m : ABCDMatrix) :
  cur <= pos ->
  (if Rlt_dec cur pos
   then multiplyMatrices (createPropagationMatrix (pos - cur)) m else m)
  = multiplyMatrices (createPropagationMatrix (pos - cur)) m.
Proof.
  intro Hle. destruct (Rlt_dec cur pos); [reflexivity |].
  replace (pos - cur) with 0 by lra.
  rewrite propagation_zero. symmetry. apply multiplyMatrices_identity_l.
Qed.

Lemma sort_ascending (cur : R) (lenses : list Lens) :
  ascendingFrom cur lenses -> sortByPosition lenses = lenses.
Proof.
  revert cur. induction lenses as [| x r IH]; intros cur Hasc; [reflexivity |].
  destruct Hasc as [_ Hr]. simpl. rewrite (IH _ Hr).
  destruct r as [| h t]; [reflexivity |]. simpl.
  destruct Hr as [Hxh _].
  destruct (Rle_dec (Lens.position x) (Lens.position h)); [reflexivity | contradiction].
Qed.

Lemma fold_ascending (lenses : list Lens) :
  forall cur m, ascendingFrom cur lenses ->
    fold_left buildStep lenses (m, cur) = chain cur lenses m.
Proof.
  induction lenses as [| x r IH]; intros cur m Hasc; [reflexivity |].
  destruct Hasc as [Hx Hr].
  change (fold_left buildStep (x :: r) (m, cur))
    with (fold_left buildStep r (buildStep (m, cur) x)).
  unfold buildStep at 2.
  rewrite (propagate_when_ahead cur (Lens.position x) m Hx).
  apply IH. exact Hr.
Qed.

Lemma chain_end (lenses : list Lens) :
  forall cur m d, snd (chain cur lenses m) =
    match lenses with [] => cur | _ => Lens.position (last lenses d) end.
Proof.
  induction lenses as [| x r IH]; intros cur m d; [reflexivity |].
  simpl chain. rewrite (IH _ _ x). rewrite last_cons.
  destruct r; reflexivity.
Qed.

(** X5.  For lenses listed in ascending position, none before the origin,
    and a receiver not before the last lens, [buildSystemMatrix] is the
    ray-transfer product: free propagation over each gap, then the lens, and
    at the end the propagation to the receiver. *)
Theorem buildSystemMatrix_composes
  (first : Lens) (rest : list Lens) (pvPosition : R) :
  ascendingFrom 0 (first :: rest) ->
  Lens.position (last rest first) <= pvPosition ->
  buildSystemMatrix (first :: rest) pvPosition = composedMatrix (first :: rest) pvPosition.
Proof.
  intros Hasc Hpv. unfold buildSystemMatrix, composedMatrix.
  rewrite (sort_ascending 0 _ Hasc).
  rewrite (fold_ascending _ 0 identityMatrix Hasc).
  pose proof (chain_end (first :: rest) 0 identityMatrix first) as Hend.
  rewrite last_cons in Hend |- *.
  destruct (chain 0 (first :: rest) identityMatrix) as [m cur].
  simpl in Hend. subst cur. cbn [fst].
  apply propagate_when_ahead. exact Hpv.
Qed.

(** ** Angles, projected aperture and the thin-lens equation *)

(** X1.  [degToRad] and [radToDeg] are inverse to each other, and the
    conversion sends 0, 90, 180 and 360 degrees to 0, pi/2, pi and 2 pi. *)
Theorem angle_conversion_round_trip (x : R) :
  radToDeg (degToRad x) = x /\ degToRad (radToDeg x) = x /\
  degToRad 0 = 0 /\ degToRad 90 = PI / 2 /\ degToRad 180 = PI /\ degToRad 360 = 2 * PI.
Proof.
  pose proof PI_neq0.
  unfold radToDeg, degToRad. repeat split; field; assumption.
Qed.

Lemma degToRad_90 : degToRad 90 = PI / 2.
Proof. unfold degToRad. field. Qed.

Lemma degToRad_le (a b : R) : a <= b -> degToRad a <= degToRad b.
Proof.
  intro H. unfold degToRad. pose proof PI_RGT_0.
  assert (a * PI <= b * PI) by (apply Rmult_le_compat_r; lra). lra.
Qed.

Lemma degToRad_lt (a b : R) : a < b -> degToRad a < degToRad b.
Proof.
  intro H. unfold degToRad. pose proof PI_RGT_0.
  assert (a * PI < b * PI) by (apply Rmult_lt_compat_r; lra). lra.
Qed.

Lemma degToRad_opp (a : R) : degToRad (- a) = - degToRad a.
Proof. unfold degToRad. field. Qed.

Lemma cos_deg_range (z : R) : 0 <= z <= 90 -> 0 <= cos (degToRad z) <= 1.
Proof.
  intros [H0 H90]. pose proof PI_RGT_0.
  pose proof (degToRad_le 0 z H0) as Hlo. rewrite degToRad_0 in Hlo.
  pose proof (degToRad_le z 90 H90) as Hhi. rewrite degToRad_90 in Hhi.
  split; [apply cos_ge_0; lra | apply COS_bound].
Qed.

Lemma cos_deg_decreasing (z1 z2 : R) :
  0 <= z1 -> z1 < z2 -> z2 <= 90 -> cos (degToRad z2) < cos (degToRad z1).
Proof.
  intros H0 H12 H90. pose proof PI_RGT_0.
  pose proof (degToRad_le 0 z1 H0) as Hlo. rewrite degToRad_0 in Hlo.
  pose proof (degToRad_le z2 90 H90) as Hhi. rewrite degToRad_90 in Hhi.
  pose proof (degToRad_lt z1 z2 H12).
  apply cos_decreasing_1; lra.
Qed.

Lemma effAperture_range (aperture z : R) :
  0 <= aperture -> 0 <= z <= 90 ->
  0 <= calculateEffectiveAperture aperture z <= aperture.
Proof.
  intros Ha Hz. unfold calculateEffectiveAperture.
  destruct (cos_deg_range z Hz). split.
  - apply Rmult_le_pos; lra.
  - rewrite <- (Rmult_1_r aperture) at 2. apply Rmult_le_compat_l; lra.
Qed.

Lemma effAperture_decreasing (aperture z1 z2 : R) :
  0 < aperture -> 0 <= z1 -> z1 < z2 -> z2 <= 90 ->
  calculateEffectiveAperture aperture z2 < calculateEffectiveAperture aperture z1.
Proof.
  intros Ha H0 H12 H90. unfold calculateEffectiveAperture.
  apply Rmult_lt_compat_l; [exact Ha | apply cos_deg_decreasing; assumption].
Qed.

(** X9.  [calculateEffectiveAperture] is the aperture projected on the beam:
    the full aperture at 0 degrees, 0 at 90 degrees, even in the angle,
    between 0 and the aperture on [[0, 90]], and strictly decreasing there
    for a positive aperture. *)
Theorem effectiveAperture_projection (aperture : R) :
  calculateEffectiveAperture aperture 0 = aperture /\
  calculateEffectiveAperture aperture 90 = 0 /\
  (forall z, calculateEffectiveAperture aperture (- z) = calculateEffectiveAperture aperture z) /\
  (forall z, 0 <= aperture -> 0 <= z <= 90 ->
     0 <= calculateEffectiveAperture aperture z <= aperture) /\
  (forall z1 z2, 0 < aperture -> 0 <= z1 -> z1 < z2 -> z2 <= 90 ->
     calculateEffectiveAperture aperture z2 < calculateEffectiveAperture aperture z1).
Proof.
  split; [| split; [| split; [| split]]].
  - unfold calculateEffectiveAperture. rewrite degToRad_0, cos_0. ring.
  - unfold calculateEffectiveAperture. rewrite degToRad_90, cos_PI2. ring.
  - intro z. unfold calculateEffectiveAperture.
    rewrite degToRad_opp, cos_neg. reflexivity.
  - intros z Ha Hz. apply effAperture_range; assumption.
  - intros z1 z2. apply effAperture_decreasing.
Qed.

(** X8.  [calculateImageDistance] answers [Infinity] exactly when the object
    sits at the focal length; otherwise its result [i] satisfies the thin
    lens equation [1/f = 1/d + 1/i], and object and image are conjugate:
    the image distance of [i] is [d] again. *)
Theorem imageDistance_thin_lens (f d : R) :
  (calculateImageDistance f d = Infinity <-> d = f) /\
  (d <> f -> d <> 0 -> f <> 0 ->
   exists i, calculateImageDistance f d = Finite i /\
             i <> 0 /\ / f = / d + / i /\
             calculateImageDistance f i = Finite d).
Proof.
  unfold calculateImageDistance. split.
  - destruct (Req_dec_T d f); split; intro H; try discriminate; try reflexivity; try assumption; contradiction.
  - intros Hdf Hd Hf. destruct (Req_dec_T d f) as [| _]; [contradiction |].
    exists (f * d / (d - f)).
    assert (Hden : d - f <> 0) by lra.
    assert (Hi : f * d / (d - f) <> 0).
    { unfold Rdiv. apply Rmult_integral_contrapositive_currified.
      - apply Rmult_integral_contrapositive_currified; assumption.
      - apply Rinv_neq_0_compat. assumption. }
    split; [reflexivity |]. split; [exact Hi |]. split.
    + field. repeat split; assumption.
    + destruct (Req_dec_T (f * d / (d - f)) f) as [Heq | Hne].
      * exfalso. apply (f_equal (fun x => x * (d - f))) in Heq.
        unfold Rdiv in Heq. rewrite Rmult_assoc, Rinv_l, Rmult_1_r in Heq by assumption.
        assert (f * f = 0) by lra.
        apply Rmult_integral in H. destruct H; contradiction.
      * f_equal. field. split; [assumption |].
        intro H0. apply Hf.
        assert (H1 : f * d - f * (d - f) = f * f) by ring.
        rewrite H0 in H1.
        assert (H2 : f * f = 0) by lra.
        apply Rmult_integral in H2. destruct H2; assumption.
Qed.

(** ** The spot of a single lens *)

(** The defocus formula covers the exact-focus branch too. *)
Lemma spotDiameter_beyond_lens (lens : Lens) (p z : R) :
  0 < p - Lens.position lens ->
  calculateSpotDiameterSingleLens lens p z =
  calculateEffectiveAperture (Lens.aperture lens) z
  * (Rabs (p - Lens.position lens - Lens.focalLength lens) / Lens.focalLength lens).
Proof.
  intro Hd. unfold calculateSpotDiameterSingleLens.
  destruct (Rle_dec (p - Lens.position lens) 0); [lra |].
  destruct (Req_dec_T (p - Lens.position lens) (Lens.focalLength lens)) as [Heq | _];
    [| reflexivity].
  rewrite Heq. replace (Lens.focalLength lens - Lens.focalLength lens) with 0 by ring.
  rewrite Rabs_R0. unfold Rdiv. ring.
Qed.

(** X10.  The spot of a positive lens at angle [z]: its diameter is never
    negative; behind the lens it vanishes exactly at the focal plane; it is
    the same at equal distances before and behind the focal plane; up to
    twice the focal length it does not exceed the projected aperture; and
    away from the focal plane it shrinks as the angle grows. *)
Theorem spotDiameter_single_lens
  (lens : Lens) (z : R) :
  0 < Lens.aperture lens -> 0 < Lens.focalLength lens ->
  let l := Lens.position lens in
  let f := Lens.focalLength lens in
  (forall p, 0 <= z <= 90 -> 0 <= calculateSpotDiameterSingleLens lens p z) /\
  (forall p, 0 <= z < 90 -> l < p ->
     (calculateSpotDiameterSingleLens lens p z = 0 <-> p = l + f)) /\
  (forall delta, 0 <= delta < f ->
     calculateSpotDiameterSingleLens lens (l + f + delta) z
     = calculateSpotDiameterSingleLens lens (l + f - delta) z) /\
  (forall p, 0 <= z <= 90 -> l < p <= l + 2 * f ->
     calculateSpotDiameterSingleLens lens p z
       <= calculateEffectiveAperture (Lens.aperture lens) z) /\
  (forall p z', 0 <= z -> z < z' -> z' <= 90 -> l < p -> p <> l + f ->
     calculateSpotDiameterSingleLens lens p z'
       < calculateSpotDiameterSingleLens lens p z).
Proof.
  intros Ha Hf l f. subst l f.
  pose proof (Rinv_0_lt_compat _ Hf) as Hinv.
  assert (Hratio : forall x, 0 <= Rabs x / Lens.focalLength lens).
  { intro x. apply Rmult_le_pos; [apply Rabs_pos | lra]. }
  split; [| split; [| split; [| split]]].
  - intros p Hz.
    destruct (effAperture_range (Lens.aperture lens) z ltac:(lra) Hz) as [He _].
    unfold calculateSpotDiameterSingleLens.
    destruct (Rle_dec _ 0); [exact He |].
    destruct (Req_dec_T _ _); [lra |].
    apply Rmult_le_pos; [exact He | apply Hratio].
  - intros p [Hz0 Hz90] Hp. rewrite spotDiameter_beyond_lens by lra. split.
    + intro H0. apply Rmult_integral in H0. destruct H0 as [H0 | H0].
      * exfalso. unfold calculateEffectiveAperture in H0.
        apply Rmult_integral in H0. destruct H0 as [H0 | H0]; [lra |].
        pose proof (cos_deg_decreasing z 90 Hz0 Hz90 ltac:(lra)) as Hc.
        rewrite degToRad_90, cos_PI2 in Hc. lra.
      * unfold Rdiv in H0. apply Rmult_integral in H0. destruct H0 as [H0 | H0]; [| lra].
        destruct (Req_dec (p - Lens.position lens - Lens.focalLength lens) 0) as [He | Hne];
          [lra |].
        apply Rabs_no_R0 in Hne. contradiction.
    + intros ->.
      replace (Lens.position lens + Lens.focalLength lens - Lens.position lens
               - Lens.focalLength lens) with 0 by ring.
      rewrite Rabs_R0. unfold Rdiv. ring.
  - intros delta [Hd0 Hdf]. rewrite !spotDiameter_beyond_lens by lra.
    replace (Lens.position lens + Lens.focalLength lens + delta - Lens.position lens
             - Lens.focalLength lens) with delta by ring.
    replace (Lens.position lens + Lens.focalLength lens - delta - Lens.position lens
             - Lens.focalLength lens) with (- delta) by ring.
    rewrite Rabs_Ropp. reflexivity.
  - intros p Hz [Hp1 Hp2]. rewrite spotDiameter_beyond_lens by lra.
    destruct (effAperture_range (Lens.aperture lens) z ltac:(lra) Hz) as [He _].
    rewrite <- (Rmult_1_r (calculateEffectiveAperture (Lens.aperture lens) z)) at 2.
    apply Rmult_le_compat_l; [exact He |].
    apply Rmult_le_reg_r with (Lens.focalLength lens); [exact Hf |].
    unfold Rdiv. rewrite Rmult_assoc, Rinv_l, Rmult_1_r, Rmult_1_l by lra.
    apply Rabs_le. lra.
  - intros p z' Hz0 Hzz Hz90 Hp Hfocus. rewrite !spotDiameter_beyond_lens by lra.
    apply Rmult_lt_compat_r.
    + apply Rmult_lt_0_compat; [| exact Hinv].
      apply Rabs_pos_lt. lra.
    + apply effAperture_decreasing; assumption.
Qed.

(** X11.  The concentration ratio of a trace is the square of the ratio of
    the full lens aperture to the spot diameter; it exceeds 1 exactly when
    the spot is smaller than the aperture. *)
Theorem concentration_from_diameters (lens : Lens) (pv : PhotovoltaicCell) (z : R) :
  0 < Lens.aperture lens ->
  let t := traceRaysThroughSystem (Sys.mk [lens] pv) z in
  Trace.concentrationRatio t = (Lens.aperture lens / Trace.spotDiameter t) ^ 2 /\
  (Trace.spotDiameter t < Lens.aperture lens <-> 1 < Trace.concentrationRatio t).
Proof.
  intros Ha t.
  pose proof (trace_spotDiameter_floor lens pv z) as HD. fold t in HD.
  pose proof (trace_concentration lens pv z) as Hc. cbv zeta in Hc. fold t in Hc.
  assert (Harea : Trace.spotArea t = PI * (Trace.spotDiameter t / 2) ^ 2) by reflexivity.
  pose proof PI_RGT_0 as Hpi.
  assert (Hratio : Trace.concentrationRatio t
                   = (Lens.aperture lens / Trace.spotDiameter t) ^ 2).
  { apply Rmult_eq_reg_r with (Trace.spotArea t).
    - rewrite Hc, Harea. field. lra.
    - rewrite Harea. apply Rgt_not_eq. apply Rmult_lt_0_compat; [lra |].
      apply pow_lt. lra. }
  split; [exact Hratio |]. rewrite Hratio.
  set (D := Trace.spotDiameter t) in *. set (a := Lens.aperture lens) in *.
  assert (Hq : a / D = a * / D) by reflexivity.
  pose proof (Rinv_0_lt_compat D ltac:(lra)) as Hinv.
  assert (Hpos : 0 < a / D) by (apply Rmult_lt_0_compat; lra).
  split; intro H.
  - assert (H1 : 1 < a / D).
    { apply Rmult_lt_reg_r with D; [lra |].
      unfold Rdiv. rewrite Rmult_assoc, Rinv_l by lra. lra. }
    simpl. nra.
  - destruct (Rlt_dec D a) as [Hlt | Hge]; [exact Hlt |]. exfalso.
    assert (H1 : a / D <= 1).
    { apply Rmult_le_reg_r with D; [lra |].
      unfold Rdiv. rewrite Rmult_assoc, Rinv_l by lra. lra. }
    simpl in H. nra.
Qed.

(** X12.  For a validated receiver, [calculatePVInscribedDiameter] is
    positive and the disc of that diameter has at most the area
    [calculatePVArea] gives, with equality for a circular receiver. *)
Theorem inscribed_disc_fits (pv : PhotovoltaicCell) :
  validatePV pv = [] ->
  0 < calculatePVInscribedDiameter pv /\
  PI * (calculatePVInscribedDiameter pv / 2) ^ 2 <= calculatePVArea pv /\
  (PV.shape pv = circular ->
   PI * (calculatePVInscribedDiameter pv / 2) ^ 2 = calculatePVArea pv).
Proof.
  intro Hv. destruct (validatePV_empty pv Hv) as (_ & _ & Hdims).
  unfold calculatePVInscribedDiameter, calculatePVArea.
  destruct (PV.shape pv).
  - destruct Hdims as [Hw Hh]. pose proof PI_4 as Hpi4. pose proof PI_RGT_0 as Hpi.
    split; [apply Rmin_glb_lt; assumption |].
    split; [| discriminate].
    set (m := Rmin (PV.width pv) (PV.height pv)).
    assert (Hm0 : 0 < m) by (apply Rmin_glb_lt; assumption).
    assert (Hmw : m <= PV.width pv) by apply Rmin_l.
    assert (Hmh : m <= PV.height pv) by apply Rmin_r.
    apply Rle_trans with (m * m).
    + replace (PI * (m / 2) ^ 2) with (PI / 4 * (m * m)) by field.
      rewrite <- (Rmult_1_l (m * m)) at 2.
      apply Rmult_le_compat_r; [apply Rle_0_sqr | lra].
    + apply Rmult_le_compat; lra.
  - split; [exact Hdims |]. split; [lra | reflexivity].
Qed.

(** ** The overlap never exceeds the receiver *)

Lemma heron_swap (r1 r2 d : R) : heron r1 r2 d = heron r2 r1 d.
Proof. unfold heron. ring. Qed.

Lemma circular_overlap_within_receiver (pv : PhotovoltaicCell) (Y Z r : R) :
  PV.shape pv = circular -> 0 < r -> 0 < PV.diameter pv ->
  calculateOverlapArea pv Y Z r <= PI * (PV.diameter pv / 2) ^ 2.
Proof.
  intros Hshape Hr Hd. unfold calculateOverlapArea. rewrite Hshape.
  set (r2 := PV.diameter pv / 2). assert (Hr2 : 0 < r2) by (unfold r2; lra).
  set (d := sqrt (Y * Y + Z * Z)).
  replace (PI * r2 ^ 2) with (PI * r2 * r2) by ring.
  pose proof (disc_area_nonneg r2) as Hpv. pose proof PI_RGT_0 as Hpi.
  destruct (Rge_dec d (r + r2)); [exact Hpv |].
  destruct (Rle_dec d (Rabs (r - r2))).
  - assert (Hm0 : 0 < Rmin r r2) by (apply Rmin_glb_lt; assumption).
    assert (Hm : Rmin r r2 <= r2) by apply Rmin_r.
    rewrite !Rmult_assoc. apply Rmult_le_compat_l; [lra |].
    apply Rmult_le_compat; lra.
  - pose proof (lens_area_bounds r2 r d Hr2) as Hb.
    rewrite Rabs_minus_sym in Hb.
    specialize (Hb ltac:(lra) ltac:(lra)).
    unfold lensCos in Hb. rewrite heron_swap in Hb. unfold heron in Hb. lra.
Qed.

Lemma rectangular_overlap_within_receiver (pv : PhotovoltaicCell) (Y Z r : R) :
  PV.shape pv = rectangular -> 0 <= PV.width pv -> 0 <= PV.height pv ->
  calculateOverlapArea pv Y Z r <= PV.width pv * PV.height pv.
Proof.
  intros Hshape Hw Hh. unfold calculateOverlapArea. rewrite Hshape.
  set (left := Rmax (- (PV.width pv / 2)) (Z - r)).
  set (right := Rmin (PV.width pv / 2) (Z + r)).
  set (bottom := Rmax (- (PV.height pv / 2)) (Y - r)).
  set (top := Rmin (PV.height pv / 2) (Y + r)).
  assert (Hl : - (PV.width pv / 2) <= left) by apply Rmax_l.
  assert (Hr : right <= PV.width pv / 2) by apply Rmin_l.
  assert (Hb : - (PV.height pv / 2) <= bottom) by apply Rmax_l.
  assert (Ht : top <= PV.height pv / 2) by apply Rmin_l.
  assert (Hpv : 0 <= PV.width pv * PV.height pv) by (apply Rmult_le_pos; assumption).
  destruct (Rge_dec left right); simpl; [exact Hpv |].
  destruct (Rge_dec bottom top); simpl; [exact Hpv |].
  assert (Hrect : (right - left) * (top - bottom) <= PV.width pv * PV.height pv)
    by (apply Rmult_le_compat; lra).
  assert (Hpos : 0 <= (right - left) * (top - bottom)) by (apply Rmult_le_pos; lra).
  destruct (Rlt_dec _ _).
  - eapply Rle_trans; [apply Rmin_l | exact Hrect].
  - eapply Rle_trans; [apply Rmin_l | lra].
Qed.

(** X13.  For a validated rectangular receiver and a spot of positive
    radius, the overlap area lies between 0 and the smaller of the spot area
    and the receiver area, wherever the spot is centred.  (The circular
    branch goes through [Math.acos]; see
    [overlap_is_nan_for_grazing_spot].) *)
Theorem overlap_within_receiver (pv : PhotovoltaicCell) (Y Z r : R) :
  PV.shape pv = rectangular ->
  validatePV pv = [] -> 0 < r ->
  0 <= calculateOverlapArea pv Y Z r <= Rmin (PI * r ^ 2) (calculatePVArea pv).
Proof.
  intros Hshape Hv Hr. destruct (validatePV_empty pv Hv) as (_ & _ & Hdims).
  rewrite Hshape in Hdims. destruct Hdims as [Hw Hh].
  pose proof (rectangular_overlap_bounds pv Y Z r Hshape Hr) as [Hlo Hhi].
  split; [exact Hlo |]. apply Rmin_glb.
  - replace (PI * r ^ 2) with (PI * r * r) by ring. exact Hhi.
  - unfold calculatePVArea. rewrite Hshape.
    apply rectangular_overlap_within_receiver; [exact Hshape | lra | lra].
Qed.

(** Mirror symmetry in the tilt plane. *)
Lemma overlap_mirror (pv : PhotovoltaicCell) (Y Z r : R) :
  calculateOverlapArea pv (- Y) Z r = calculateOverlapArea pv Y Z r.
Proof.
  unfold calculateOverlapArea. destruct (PV.shape pv).
  - replace (Rmax (- (PV.height pv / 2)) (- Y - r))
      with (- Rmin (PV.height pv / 2) (Y + r))
      by (rewrite Ropp_Rmin; f_equal; ring).
    replace (Rmin (PV.height pv / 2) (- Y + r))
      with (- Rmax (- (PV.height pv / 2)) (Y - r))
      by (rewrite Ropp_Rmax; f_equal; ring).
    set (left := Rmax (- (PV.width pv / 2)) (Z - r)).
    set (right := Rmin (PV.width pv / 2) (Z + r)).
    set (bottom := Rmax (- (PV.height pv / 2)) (Y - r)).
    set (top := Rmin (PV.height pv / 2) (Y + r)).
    destruct (Rge_dec left right); simpl; [reflexivity |].
    destruct (Rge_dec (- top) (- bottom)); destruct (Rge_dec bottom top);
      simpl; try lra; try reflexivity.
    replace (((- top + - bottom) / 2 - - Y) * (((- top + - bottom) / 2 - - Y) * 1))
      with (((bottom + top) / 2 - Y) * (((bottom + top) / 2 - Y) * 1)) by field.
    replace (- bottom - - top) with (top - bottom) by ring.
    reflexivity.
  - replace (- Y * - Y) with (Y * Y) by ring. reflexivity.
Qed.

(** ** Bounds and scaling of the power *)

Lemma single_outputPower_raw (lens : Lens) (pv : PhotovoltaicCell) (light : LightSource) :
  let t := traceRaysThroughSystem (Sys.mk [lens] pv) (Light.zenithAngle light) in
  Power.outputPower (powerOf (Sys.mk [lens] pv) light) =
  Light.intensity light * Trace.totalTransmittance t * Trace.concentrationRatio t
  * Rmax 0 (cos (degToRad (Trace.outputAngle t)))
  * Trace.effectiveArea t * PV.efficiency pv.
Proof. reflexivity. Qed.

Lemma powerOf_efficiency (system : OpticalSystem) (light : LightSource) :
  let p := powerOf system light in
  Power.systemEfficiency p =
  if Rlt_dec 0 (Power.inputPower p)
  then Power.outputPower p / Power.inputPower p else 0.
Proof.
  unfold powerOf, calculatePower, traceRaysThroughSystem.
  destruct (Sys.lenses system) as [| l [| l' ls]]; simpl.
  - destruct (Rlt_dec 0 0); [lra | reflexivity].
  - reflexivity.
  - destruct (Rlt_dec 0 0); [lra | reflexivity].
Qed.

Lemma powerOf_invalid (system : OpticalSystem) (light : LightSource) :
  List.length (Sys.lenses system) <> 1%nat -> powerOf system light = invalidPower.
Proof.
  intro H. unfold powerOf, calculatePower, traceRaysThroughSystem.
  destruct (Sys.lenses system) as [| l [| l' ls]]; simpl in *;
    try reflexivity. exfalso. apply H. reflexivity.
Qed.

Lemma cosFactor_range (x : R) : 0 <= Rmax 0 (cos x) <= 1.
Proof.
  split; [apply Rmax_l |]. apply Rmax_lub; [lra | apply COS_bound].
Qed.

Lemma trace_capture (lens : Lens) (pv : PhotovoltaicCell) (z : R) :
  let t := traceRaysThroughSystem (Sys.mk [lens] pv) z in
  0 <= Trace.concentrationRatio t * Trace.effectiveArea t
    <= PI * (Lens.aperture lens / 2) ^ 2.
Proof.
  intro t.
  pose proof (trace_concentration lens pv z) as Hconc. cbv zeta in Hconc. fold t in Hconc.
  pose proof (trace_spotArea_pos lens pv z) as Hspot. fold t in Hspot.
  pose proof (trace_spotDiameter_floor lens pv z) as HD. fold t in HD.
  assert (Heff : 0 <= Trace.effectiveArea t <= Trace.spotArea t).
  { subst t. simpl in *.
    match goal with
    | |- 0 <= calculateOverlapArea ?pv ?Y ?Z ?r <= _ =>
        pose proof (overlap_bounds pv Y Z r ltac:(lra)) as Hb
    end.
    lra. }
  assert (Harea : 0 <= PI * (Lens.aperture lens / 2) ^ 2).
  { apply Rmult_le_pos; [apply Rlt_le, PI_RGT_0 | apply pow2_ge_0]. }
  assert (Hcr : 0 <= Trace.concentrationRatio t).
  { apply Rmult_le_reg_r with (Trace.spotArea t); [exact Hspot |]. lra. }
  split; [apply Rmult_le_pos; lra |].
  rewrite <- Hconc. apply Rmult_le_compat_l; lra.
Qed.

(** X15.  For a validated single-lens system with a rectangular receiver
    and a non-negative intensity, at every zenith angle: the input power is
    not negative, and the output power lies between 0 and the power falling
    on the full lens aperture times transmittance and efficiency, hence
    below the power on the full aperture. *)
Theorem outputPower_within_full_aperture
  (lens : Lens) (pv : PhotovoltaicCell) (light : LightSource) :
  PV.shape pv = rectangular ->
  validateOpticalSystem (Sys.mk [lens] pv) = [] ->
  0 <= Light.intensity light ->
  let p := powerOf (Sys.mk [lens] pv) light in
  0 <= Power.inputPower p /\
  0 <= Power.outputPower p
    <= Light.intensity light * (PI * (Lens.aperture lens / 2) ^ 2)
       * Lens.transmittance lens * PV.efficiency pv /\
  Power.outputPower p <= Light.intensity light * (PI * (Lens.aperture lens / 2) ^ 2).
Proof.
  intros _ Hvalid HI p. subst p.
  destruct (validateOpticalSystem_empty _ Hvalid) as (lens0 & Hlens & Hvl & Hvp & _).
  simpl in Hlens, Hvp. injection Hlens as <-.
  destruct (validateLens_empty lens Hvl) as (_ & _ & _ & Htau).
  destruct (validatePV_empty pv Hvp) as ((Heta0 & Heta1) & _).
  rewrite single_outputPower_raw, single_inputPower.
  set (t := traceRaysThroughSystem (Sys.mk [lens] pv) (Light.zenithAngle light)).
  pose proof (trace_capture lens pv (Light.zenithAngle light)) as Hcap.
  cbv zeta in Hcap. fold t in Hcap.
  pose proof (cosFactor_range (degToRad (Trace.outputAngle t))) as Hcos.
  change (Trace.totalTransmittance t) with (Lens.transmittance lens).
  set (inputArea := PI * (Lens.aperture lens / 2) ^ 2) in *.
  set (cs := Rmax 0 (cos (degToRad (Trace.outputAngle t)))) in *.
  set (ce := Trace.concentrationRatio t * Trace.effectiveArea t) in *.
  replace (Light.intensity light * Lens.transmittance lens * Trace.concentrationRatio t
           * cs * Trace.effectiveArea t * PV.efficiency pv)
    with (Light.intensity light * ce * cs * Lens.transmittance lens * PV.efficiency pv)
    by (unfold ce; ring).
  assert (H0 : 0 <= Light.intensity light * ce <= Light.intensity light * inputArea).
  { split; [apply Rmult_le_pos; lra | apply Rmult_le_compat_l; lra]. }
  destruct (scale_by_fraction _ _ (proj1 H0) Hcos) as [H1 H2].
  assert (Hfull : 0 <= Light.intensity light * inputArea) by lra.
  destruct (scale_by_fraction _ _ Hfull Htau) as [F1 F2].
  destruct (scale_by_fraction _ _ F1 (conj (Rlt_le _ _ Heta0) Heta1)) as [F3 F4].
  assert (Hstep1 : Light.intensity light * ce * cs * Lens.transmittance lens
                   <= Light.intensity light * inputArea * Lens.transmittance lens).
  { apply Rmult_le_compat_r; lra. }
  assert (Hpos1 : 0 <= Light.intensity light * ce * cs * Lens.transmittance lens)
    by (apply Rmult_le_pos; lra).
  assert (Hstep2 : Light.intensity light * ce * cs * Lens.transmittance lens * PV.efficiency pv
                   <= Light.intensity light * inputArea * Lens.transmittance lens
                      * PV.efficiency pv).
  { apply Rmult_le_compat_r; lra. }
  assert (Hpos2 : 0 <= Light.intensity light * ce * cs * Lens.transmittance lens
                       * PV.efficiency pv) by (apply Rmult_le_pos; lra).
  split.
  - apply Rmult_le_pos; [exact HI |].
    apply Rmult_le_pos; [apply Rlt_le, PI_RGT_0 | apply pow2_ge_0].
  - split; [split; [exact Hpos2 | exact Hstep2] | lra].
Qed.

(** X16.  [calculatePower] is linear in the intensity: multiplying the
    intensity by [k] multiplies input and output power by [k] and leaves
    the geometry unchanged, and for [k > 0] also the system efficiency. *)
Theorem power_scales_with_intensity
  (system : OpticalSystem) (k intensity z : R) :
  let p := powerOf system (Light.mk intensity z) in
  let q := powerOf system (Light.mk (k * intensity) z) in
  Power.inputPower q = k * Power.inputPower p /\
  Power.outputPower q = k * Power.outputPower p /\
  Power.spotDiameter q = Power.spotDiameter p /\
  Power.effectiveArea q = Power.effectiveArea p /\
  Power.concentrationRatio q = Power.concentrationRatio p /\
  (0 < k -> Power.systemEfficiency q = Power.systemEfficiency p).
Proof.
  intros p q.
  assert (Hin : Power.inputPower q = k * Power.inputPower p).
  { subst p q. unfold powerOf, calculatePower, traceRaysThroughSystem.
    destruct (Sys.lenses system) as [| l [| l' ls]]; simpl; ring. }
  assert (Hout : Power.outputPower q = k * Power.outputPower p).
  { subst p q. unfold powerOf, calculatePower, traceRaysThroughSystem.
    destruct (Sys.lenses system) as [| l [| l' ls]]; simpl; ring. }
  split; [exact Hin |]. split; [exact Hout |].
  split; [| split; [| split]].
  - subst p q. unfold powerOf, calculatePower, traceRaysThroughSystem.
    destruct (Sys.lenses system) as [| l [| l' ls]]; reflexivity.
  - subst p q. unfold powerOf, calculatePower, traceRaysThroughSystem.
    destruct (Sys.lenses system) as [| l [| l' ls]]; reflexivity.
  - subst p q. unfold powerOf, calculatePower, traceRaysThroughSystem.
    destruct (Sys.lenses system) as [| l [| l' ls]]; reflexivity.
  - intro Hk.
    pose proof (powerOf_efficiency system (Light.mk intensity z)) as Hp.
    pose proof (powerOf_efficiency system (Light.mk (k * intensity) z)) as Hq.
    cbv zeta in Hp, Hq. fold p in Hp. fold q in Hq.
    rewrite Hp, Hq, Hin, Hout.
    destruct (Rlt_dec 0 (Power.inputPower p)) as [Hpos | Hneg];
      destruct (Rlt_dec 0 (k * Power.inputPower p)) as [Hpos' | Hneg'].
    + field. lra.
    + exfalso. apply Hneg'. apply Rmult_lt_0_compat; assumption.
    + exfalso. apply Hneg.
      apply Rmult_lt_reg_l with k; [exact Hk |]. lra.
    + reflexivity.
Qed.

(** X17.  The receiver efficiency enters [calculatePower] only as a factor
    of the output power: two systems that differ in the efficiency alone
    have the same input power, spot and captured area, and output powers in
    the ratio of the efficiencies. *)
Theorem power_scales_with_efficiency
  (lenses : list Lens) (pv : PhotovoltaicCell) (light : LightSource) (e1 e2 : R) :
  let p1 := powerOf (Sys.mk lenses (withEfficiency pv e1)) light in
  let p2 := powerOf (Sys.mk lenses (withEfficiency pv e2)) light in
  Power.inputPower p1 = Power.inputPower p2 /\
  Power.outputPower p1 * e2 = Power.outputPower p2 * e1 /\
  Power.spotDiameter p1 = Power.spotDiameter p2 /\
  Power.effectiveArea p1 = Power.effectiveArea p2.
Proof.
  intros p1 p2. subst p1 p2. unfold powerOf, calculatePower, traceRaysThroughSystem.
  destruct lenses as [| l [| l' ls]]; simpl;
    change (calculateOverlapArea (withEfficiency pv e1))
      with (calculateOverlapArea (withEfficiency pv e2));
    repeat split; ring.
Qed.

(** ** Mirror symmetry in the zenith angle *)

Lemma spotDiameter_even (lens : Lens) (p z : R) :
  calculateSpotDiameterSingleLens lens p (- z) = calculateSpotDiameterSingleLens lens p z.
Proof.
  unfold calculateSpotDiameterSingleLens, calculateEffectiveAperture.
  rewrite degToRad_opp, cos_neg. reflexivity.
Qed.

Lemma outputAngle_odd (m : ABCDMatrix) (theta : R) :
  calculateOutputAngle m (- theta) 0 = - calculateOutputAngle m theta 0.
Proof. unfold calculateOutputAngle. ring. Qed.

Lemma radToDeg_opp (x : R) : radToDeg (- x) = - radToDeg x.
Proof. unfold radToDeg. unfold Rdiv. ring. Qed.

Lemma trace_mirror (system : OpticalSystem) (z : R) :
  let t := traceRaysThroughSystem system z in
  let t' := traceRaysThroughSystem system (- z) in
  Trace.isValid t' = Trace.isValid t /\
  Trace.spotDiameter t' = Trace.spotDiameter t /\
  Trace.spotArea t' = Trace.spotArea t /\
  Trace.effectiveArea t' = Trace.effectiveArea t /\
  Trace.concentrationRatio t' = Trace.concentrationRatio t /\
  Trace.totalTransmittance t' = Trace.totalTransmittance t /\
  Trace.spotCenterY t' = - Trace.spotCenterY t /\
  Trace.spotCenterZ t' = Trace.spotCenterZ t.
Proof.
  unfold traceRaysThroughSystem.
  destruct (Sys.lenses system) as [| l [| l' ls]]; simpl;
    try (repeat split; try reflexivity; ring).
  rewrite !spotDiameter_even, degToRad_opp, tan_neg.
  set (D := Rmax (calculateSpotDiameterSingleLens l (PV.position (Sys.pv system)) z) 0.001).
  repeat split; try reflexivity.
  - rewrite <- (overlap_mirror (Sys.pv system)
                  (Lens.focalLength l * tan (degToRad z)
                   * ((PV.position (Sys.pv system) - Lens.position l)
                      / Lens.focalLength l)) 0 (D / 2)).
    f_equal. ring.
  - ring.
Qed.

(** X14.  [calculatePower] gives the same result at the zenith angles [z]
    and [- z], for every system. *)
Theorem power_even_in_zenith (system : OpticalSystem) (intensity z : R) :
  calculatePower system (Light.mk intensity (- z))
  = calculatePower system (Light.mk intensity z).
Proof.
  destruct (trace_mirror system z) as (Hv & HD & HA & HE & HC & HT & _).
  cbv zeta in *.
  unfold calculatePower. cbn [Light.zenithAngle Light.intensity].
  rewrite Hv. destruct (negb (Trace.isValid (traceRaysThroughSystem system z)));
    [reflexivity |].
  destruct (nth_error (Sys.lenses system) 0) as [lens |]; [| reflexivity].
  rewrite HD, HE, HC, HT.
  assert (Hap : calculateEffectiveAperture (Lens.aperture lens) (- z)
                = calculateEffectiveAperture (Lens.aperture lens) z).
  { unfold calculateEffectiveAperture. rewrite degToRad_opp, cos_neg. reflexivity. }
  rewrite Hap.
  assert (Hcos : cos (degToRad (Trace.outputAngle (traceRaysThroughSystem system (- z))))
                 = cos (degToRad (Trace.outputAngle (traceRaysThroughSystem system z)))).
  { unfold traceRaysThroughSystem.
    destruct (Sys.lenses system) as [| l [| l' ls]]; simpl.
    - rewrite degToRad_opp, cos_neg. reflexivity.
    - rewrite degToRad_opp, outputAngle_odd, radToDeg_opp, degToRad_opp, cos_neg.
      reflexivity.
    - rewrite degToRad_opp, cos_neg. reflexivity. }
  rewrite Hcos. reflexivity.
Qed.

(** ** Exit angle, and the earlier trace *)

(** X7.  Trace of a single lens at a position that is not negative and with
    a focal length that is not zero: the exit angle is
    [(1 - position / focalLength) * zenith] (the zenith angle itself for a
    lens at the origin), the spot centre is displaced by
    [(pv.position - lens.position) * tan zenith] in Y and by 0 in Z, and the
    total transmittance is the transmittance of the lens. *)
Theorem trace_exit_angle_and_centre (lens : Lens) (pv : PhotovoltaicCell) (z : R) :
  0 <= Lens.position lens -> Lens.focalLength lens <> 0 ->
  let t := traceRaysThroughSystem (Sys.mk [lens] pv) z in
  Trace.outputAngle t = (1 - Lens.position lens / Lens.focalLength lens) * z /\
  (Lens.position lens = 0 -> Trace.outputAngle t = z) /\
  Trace.spotCenterY t = (PV.position pv - Lens.position lens) * tan (degToRad z) /\
  Trace.spotCenterZ t = 0 /\
  Trace.totalTransmittance t = Lens.transmittance lens.
Proof.
  intros Hl Hf t.
  assert (Hout : Trace.outputAngle t
                 = (1 - Lens.position lens / Lens.focalLength lens) * z).
  { subst t. cbn [traceRaysThroughSystem Sys.lenses Sys.pv Trace.outputAngle].
    rewrite single_lens_output_angle by exact Hl.
    unfold radToDeg, degToRad. field. split; [exact Hf | apply PI_neq0]. }
  split; [exact Hout |]. split; [| split; [| split]].
  - intro H0. rewrite Hout, H0. unfold Rdiv. ring.
  - subst t. simpl. field. exact Hf.
  - reflexivity.
  - reflexivity.
Qed.

Lemma legacy_single_trace (lens : Lens) (pv : PhotovoltaicCell) (z : R) :
  let d := PV.position pv - Lens.position lens in
  let beam := calculateEffectiveAperture (Lens.aperture lens) z in
  Legacy.spotDiameter (Legacy.traceRaysThroughSystem (Sys.mk [lens] pv) z) =
  Rmax (if Rle_dec d 0 then beam
        else if Rlt_dec (Rabs (d - Lens.focalLength lens)) 0.001 then 0.001
             else beam * (Rabs (d - Lens.focalLength lens) / Lens.focalLength lens))
       0.001.
Proof. reflexivity. Qed.

(** X22.  On a single lens the earlier beam walk and the current trace give
    the same spot diameter, spot area, spot centre, captured area,
    concentration ratio and validity, as long as the receiver is not behind
    the lens at less than 0.001 from the focal plane without being on it
    (where the earlier code floors the spot differently). *)
Theorem legacy_trace_agrees_away_from_focus
  (lens : Lens) (pv : PhotovoltaicCell) (z : R) :
  let d := PV.position pv - Lens.position lens in
  d <= 0 \/ d = Lens.focalLength lens \/ 0.001 <= Rabs (d - Lens.focalLength lens) ->
  let t := traceRaysThroughSystem (Sys.mk [lens] pv) z in
  let t0 := Legacy.traceRaysThroughSystem (Sys.mk [lens] pv) z in
  Legacy.isValid t0 = Trace.isValid t /\
  Legacy.spotDiameter t0 = Trace.spotDiameter t /\
  Legacy.spotArea t0 = Trace.spotArea t /\
  Legacy.spotCenterY t0 = Trace.spotCenterY t /\
  Legacy.spotCenterZ t0 = Trace.spotCenterZ t /\
  Legacy.effectiveArea t0 = Trace.effectiveArea t /\
  Legacy.concentrationRatio t0 = Trace.concentrationRatio t.
Proof.
  intros d Hd t t0.
  assert (HD : Legacy.spotDiameter t0 = Trace.spotDiameter t).
  { subst t t0. rewrite legacy_single_trace. fold d.
    cbn [traceRaysThroughSystem Sys.lenses Sys.pv Trace.spotDiameter].
    unfold calculateSpotDiameterSingleLens. fold d.
    destruct (Rle_dec d 0) as [Hle | Hgt]; [reflexivity |].
    destruct (Req_dec_T d (Lens.focalLength lens)) as [Heq | Hne].
    - rewrite Heq. replace (Lens.focalLength lens - Lens.focalLength lens) with 0 by ring.
      rewrite Rabs_R0. destruct (Rlt_dec 0 0.001); [| lra].
      rewrite Rmax_left, Rmax_right by lra. reflexivity.
    - destruct Hd as [Hd | [Hd | Hd]]; try lra.
      destruct (Rlt_dec (Rabs (d - Lens.focalLength lens)) 0.001); [lra | reflexivity]. }
  subst t t0.
  unfold Legacy.traceRaysThroughSystem in *.
  cbn [sortByPosition fold_right insertByPosition Sys.lenses Sys.pv Legacy.walk
       Legacy.walkStep Nat.ltb Nat.leb last] in *.
  cbn [traceRaysThroughSystem Sys.lenses Sys.pv] in *.
  cbn [Legacy.spotDiameter Legacy.spotArea Legacy.isValid Legacy.spotCenterY
       Legacy.spotCenterZ Legacy.effectiveArea Legacy.concentrationRatio
       Trace.spotDiameter Trace.spotArea Trace.isValid Trace.spotCenterY
       Trace.spotCenterZ Trace.effectiveArea Trace.concentrationRatio] in *.
  rewrite HD. repeat split; reflexivity.
Qed.

(** ** Receiver validation *)

(** X25.  [validatePV] reports each violated rule and no other: width and
    height only for a rectangular receiver, diameter only for a circular one,
    efficiency outside [(0, 1]], negative position; the list is empty exactly
    when the receiver obeys all the rules of its shape. *)
Theorem validatePV_reports_each_rule (pv : PhotovoltaicCell) :
  (In msgWidth (validatePV pv) <-> PV.shape pv = rectangular /\ PV.width pv <= 0) /\
  (In msgHeight (validatePV pv) <-> PV.shape pv = rectangular /\ PV.height pv <= 0) /\
  (In msgDiameter (validatePV pv) <-> PV.shape pv = circular /\ PV.diameter pv <= 0) /\
  (In msgEfficiency (validatePV pv) <-> PV.efficiency pv <= 0 \/ PV.efficiency pv > 1) /\
  (In msgPosition (validatePV pv) <-> PV.position pv < 0) /\
  (validatePV pv = [] <->
     0 < PV.efficiency pv <= 1 /\ 0 <= PV.position pv /\
     match PV.shape pv with
     | rectangular => 0 < PV.width pv /\ 0 < PV.height pv
     | circular => 0 < PV.diameter pv
     end).
Proof.
  unfold validatePV, pushIf, msgWidth, msgHeight, msgDiameter, msgEfficiency, msgPosition.
  destruct (PV.shape pv);
    repeat match goal with
           | |- context [Rle_dec ?a ?b] => destruct (Rle_dec a b)
           | |- context [Rlt_dec ?a ?b] => destruct (Rlt_dec a b)
           end;
    simpl;
    (repeat split; try lra; try discriminate; try reflexivity;
     try (intros; simpl in *; intuition (try discriminate; try lra))).
Qed.

(** ** System validation *)

(** validateOpticalSystem, part by part *)
Lemma validateOpticalSystem_parts (system : OpticalSystem) :
  validateOpticalSystem system =
  (((if Nat.eqb (List.length (Sys.lenses system)) 1 then [] else [msgCardinality])
    ++ lensErrorsFrom 0 (Sys.lenses system))
   ++ map pvPrefix (validatePV (Sys.pv system)))
  ++ match Sys.lenses system with
     | [lens0] =>
         if Rle_dec (PV.position (Sys.pv system)) (Lens.position lens0)
         then [msgBehindLens] else []
     | _ => []
     end.
Proof.
  unfold validateOpticalSystem, pushIf. cbv zeta.
  destruct (Sys.lenses system) as [| l [| l' ls]].
  - symmetry. apply app_nil_r.
  - destruct (Rle_dec _ _); [reflexivity | symmetry; apply app_nil_r].
  - symmetry. apply app_nil_r.
Qed.

Lemma lensErrorsFrom_in (lenses : list Lens) :
  forall start i lens msg,
    nth_error lenses i = Some lens -> In msg (validateLens lens) ->
    In (lensPrefix (start + i) msg) (lensErrorsFrom start lenses).
Proof.
  induction lenses as [| l ls IH]; intros start i lens msg Hnth Hin.
  - destruct i; discriminate.
  - simpl. apply in_or_app. destruct i as [| i].
    + left. injection Hnth as ->. rewrite Nat.add_0_r.
      apply in_map_iff. exists msg. split; [reflexivity | exact Hin].
    + right. replace (start + S i)%nat with (S start + i)%nat by lia.
      apply (IH (S start) i lens msg); assumption.
Qed.

Lemma lensErrorsFrom_length (lenses : list Lens) (start : nat) :
  List.length (lensErrorsFrom start lenses)
  = list_sum (map (fun l => List.length (validateLens l)) lenses).
Proof.
  revert start. induction lenses as [| l ls IH]; intro start; [reflexivity |].
  simpl. rewrite length_app, length_map, IH. reflexivity.
Qed.

Lemma lensErrors_prefixed (lenses : list Lens) (start : nat) (e : string) :
  In e (lensErrorsFrom start lenses) -> exists rest, e = ("Lens " ++ rest)%string.
Proof.
  revert start. induction lenses as [| l ls IH]; intros start Hin; [contradiction |].
  simpl in Hin. apply in_app_or in Hin. destruct Hin as [Hin | Hin].
  - apply in_map_iff in Hin. destruct Hin as (err & <- & _). eexists. reflexivity.
  - eapply IH. exact Hin.
Qed.

(** X26.  [validateOpticalSystem] returns no error exactly when the system
    holds one lens, that lens and the receiver validate, and the receiver
    lies strictly behind the lens. *)
Theorem validateOpticalSystem_passes_iff (system : OpticalSystem) :
  validateOpticalSystem system = [] <->
  exists lens,
    Sys.lenses system = [lens] /\
    validateLens lens = [] /\
    validatePV (Sys.pv system) = [] /\
    Lens.position lens < PV.position (Sys.pv system).
Proof.
  split; [apply validateOpticalSystem_empty |].
  intros (lens & Hl & Hvl & Hvp & Hpos).
  rewrite validateOpticalSystem_parts, Hl, Hvp. simpl. rewrite Hvl. simpl.
  destruct (Rle_dec _ _); [lra | reflexivity].
Qed.

(** X27.  What [validateOpticalSystem] collects: the cardinality message
    exactly when the lens count is not 1; the message that the receiver must
    be behind the lens exactly when there is one lens and the receiver is not
    strictly behind it; every error of the lens at index [i] under the
    prefix [Lens i+1: ], every receiver error under [PV: ]; and nothing
    else, as the length of the list shows. *)
Theorem validateOpticalSystem_collects (system : OpticalSystem) :
  (In msgCardinality (validateOpticalSystem system)
     <-> List.length (Sys.lenses system) <> 1%nat) /\
  (In msgBehindLens (validateOpticalSystem system)
     <-> exists lens, Sys.lenses system = [lens] /\
                      PV.position (Sys.pv system) <= Lens.position lens) /\
  (forall i lens msg,
     nth_error (Sys.lenses system) i = Some lens -> In msg (validateLens lens) ->
     In (lensPrefix i msg) (validateOpticalSystem system)) /\
  (forall msg, In msg (validatePV (Sys.pv system)) ->
     In (pvPrefix msg) (validateOpticalSystem system)) /\
  List.length (validateOpticalSystem system) =
    ((if Nat.eqb (List.length (Sys.lenses system)) 1 then 0 else 1)
     + list_sum (map (fun l => List.length (validateLens l)) (Sys.lenses system))
     + List.length (validatePV (Sys.pv system))
     + match Sys.lenses system with
       | [lens0] =>
           if Rle_dec (PV.position (Sys.pv system)) (Lens.position lens0) then 1 else 0
       | _ => 0
       end)%nat.
Proof.
  rewrite validateOpticalSystem_parts.
  assert (Hnotlens : forall msg start,
            (msg = msgCardinality \/ msg = msgBehindLens) ->
            ~ In msg (lensErrorsFrom start (Sys.lenses system))).
  { intros msg start Hmsg Hin. apply lensErrors_prefixed in Hin.
    destruct Hin as [rest Hrest]. destruct Hmsg; subst msg; discriminate. }
  assert (Hnotpv : forall msg,
            (msg = msgCardinality \/ msg = msgBehindLens) ->
            ~ In msg (map pvPrefix (validatePV (Sys.pv system)))).
  { intros msg Hmsg Hin. apply in_map_iff in Hin. destruct Hin as (err & Heq & _).
    destruct Hmsg; subst msg; discriminate. }
  split; [| split; [| split; [| split]]].
  - rewrite !in_app_iff. split.
    + intros [[[Hin | Hin] | Hin] | Hin].
      * destruct (Nat.eqb_spec (List.length (Sys.lenses system)) 1); [contradiction | assumption].
      * exfalso. eapply Hnotlens; [left; reflexivity | exact Hin].
      * exfalso. eapply Hnotpv; [left; reflexivity | exact Hin].
      * exfalso. destruct (Sys.lenses system) as [| l [| l' ls]]; try contradiction.
        destruct (Rle_dec _ _); [| contradiction].
        destruct Hin as [Hin | []]. discriminate.
    + intro Hlen. left. left. left.
      destruct (Nat.eqb_spec (List.length (Sys.lenses system)) 1); [contradiction |].
      left. reflexivity.
  - rewrite !in_app_iff. split.
    + intros [[[Hin | Hin] | Hin] | Hin].
      * exfalso. destruct (Nat.eqb _ _); [contradiction |].
        destruct Hin as [Hin | []]. discriminate.
      * exfalso. eapply Hnotlens; [right; reflexivity | exact Hin].
      * exfalso. eapply Hnotpv; [right; reflexivity | exact Hin].
      * destruct (Sys.lenses system) as [| l [| l' ls]]; try contradiction.
        destruct (Rle_dec _ _) as [Hle | _]; [| contradiction].
        exists l. split; [reflexivity | exact Hle].
    + intros (lens & Hl & Hle). right. rewrite Hl.
      destruct (Rle_dec _ _); [left; reflexivity | contradiction].
  - intros i lens msg Hnth Hin. rewrite !in_app_iff. left. left. right.
    apply (lensErrorsFrom_in _ 0 i lens msg Hnth Hin).
  - intros msg Hin. rewrite !in_app_iff. left. right.
    apply in_map. exact Hin.
  - rewrite !length_app, length_map, lensErrorsFrom_length.
    destruct (Nat.eqb _ _); destruct (Sys.lenses system) as [| l [| l' ls]];
      try destruct (Rle_dec _ _); simpl; lia.
Qed.

(** ** CSV rows of the client ([useOpticalSystem.ts]) *)

Lemma includes_cons (c x : ascii) (s : chars) :
  includes c (x :: s) = Ascii.eqb c x || includes c s.
Proof. reflexivity. Qed.

Lemma doubleQuotes_plain (s : chars) :
  includes quoteChar s = false -> doubleQuotes s = s.
Proof.
  induction s as [| c s IH]; intro H; [reflexivity |].
  rewrite includes_cons in H. apply orb_false_iff in H. destruct H as [Hc Hs].
  simpl. rewrite Ascii.eqb_sym, Hc. f_equal. apply IH. exact Hs.
Qed.

Lemma includes_doubleQuotes (c : ascii) (s : chars) :
  Ascii.eqb c quoteChar = false ->
  includes c (doubleQuotes s) = includes c s.
Proof.
  intro Hc. induction s as [| x s IH]; [reflexivity |].
  simpl doubleQuotes. destruct (Ascii.eqb x quoteChar) eqn:Hx.
  - apply Ascii.eqb_eq in Hx. subst x.
    rewrite !includes_cons, Hc, IH. reflexivity.
  - rewrite !includes_cons, IH. reflexivity.
Qed.

Lemma parse_plain (s : chars) :
  forall rest current result,
    includes quoteChar s = false -> includes commaChar s = false ->
    parseCsvLoop (s ++ rest) current false result
    = parseCsvLoop rest (current ++ s) false result.
Proof.
  induction s as [| c s IH]; intros rest current result Hq Hc.
  - rewrite app_nil_r. reflexivity.
  - rewrite includes_cons in Hq, Hc.
    apply orb_false_iff in Hq. destruct Hq as [Hq Hqs].
    apply orb_false_iff in Hc. destruct Hc as [Hc Hcs].
    simpl. rewrite Ascii.eqb_sym, Hq. rewrite (Ascii.eqb_sym c commaChar), Hc. simpl.
    rewrite IH by assumption. rewrite <- app_assoc. reflexivity.
Qed.

Lemma parse_quoted (s : chars) :
  forall rest current result,
    startsFresh rest ->
    parseCsvLoop (doubleQuotes s ++ quoteChar :: rest) current true result
    = parseCsvLoop rest (current ++ s) false result.
Proof.
  induction s as [| c s IH]; intros rest current result Hrest.
  - rewrite app_nil_r. simpl.
    destruct rest as [| x rest]; [reflexivity |].
    simpl in Hrest. rewrite Hrest. reflexivity.
  - simpl doubleQuotes. destruct (Ascii.eqb c quoteChar) eqn:Hc.
    + apply Ascii.eqb_eq in Hc. subst c. simpl.
      rewrite IH by exact Hrest. rewrite <- app_assoc. reflexivity.
    + simpl. rewrite Hc.
      replace (Ascii.eqb c commaChar && false) with false by (symmetry; apply andb_false_r).
      rewrite IH by exact Hrest. rewrite <- app_assoc. reflexivity.
Qed.

Lemma parse_field (s : chars) :
  forall rest current result,
    carried s -> startsFresh rest ->
    parseCsvLoop (csvEscape s ++ rest) current false result
    = parseCsvLoop rest (current ++ s) false result.
Proof.
  intros rest current result Hs Hrest. unfold csvEscape.
  assert (Hdq : (if includes quoteChar s then doubleQuotes s else s) = doubleQuotes s).
  { destruct (includes quoteChar s) eqn:Hq; [reflexivity |].
    symmetry. apply doubleQuotes_plain. exact Hq. }
  rewrite Hdq. rewrite !includes_doubleQuotes by reflexivity.
  destruct (includes commaChar s || includes lfChar s || includes crChar s) eqn:Hsep.
  - simpl. rewrite <- app_assoc. simpl.
    assert (Hhead : forall tl, parseCsvLoop (quoteChar :: tl) current false result
                               = parseCsvLoop tl current true result).
    { intro tl. simpl. destruct tl; reflexivity. }
    destruct (doubleQuotes s ++ quoteChar :: rest) as [| x tl] eqn:Htl.
    + destruct (doubleQuotes s); discriminate.
    + rewrite <- Htl. apply parse_quoted. exact Hrest.
  - destruct Hs as [Hq | Habs]; [| congruence].
    rewrite doubleQuotes_plain by exact Hq.
    apply parse_plain; [exact Hq |].
    apply orb_false_iff in Hsep. destruct Hsep as [Hsep _].
    apply orb_false_iff in Hsep. destruct Hsep as [Hsep _]. exact Hsep.
Qed.

Lemma parse_row (row : list chars) :
  forall field result,
    Forall carried (field :: row) ->
    parseCsvLoop (joinComma (map csvEscape (field :: row))) [] false result
    = result ++ field :: row.
Proof.
  induction row as [| next row IH]; intros field result Hrow.
  - simpl. rewrite <- (app_nil_r (csvEscape field)).
    rewrite parse_field; [reflexivity | | exact I].
    inversion Hrow; assumption.
  - inversion Hrow as [| f r Hf Hr]; subst.
    change (joinComma (map csvEscape (field :: next :: row)))
      with (csvEscape field ++ commaChar :: joinComma (map csvEscape (next :: row))).
    rewrite parse_field; [| exact Hf | reflexivity].
    change (parseCsvLoop (commaChar :: joinComma (map csvEscape (next :: row)))
              ([] ++ field) false result)
      with (parseCsvLoop (joinComma (map csvEscape (next :: row))) [] false
              (result ++ [field])).
    rewrite IH by exact Hr. rewrite <- app_assoc. reflexivity.
Qed.

(** X29.  [parseCsvLine] reads back what [csvEscape] and the comma join
    wrote: a row of at least one field, each free of quotes or containing a
    comma, a line feed or a carriage return, is recovered field by
    field. *)
Theorem csv_row_round_trip (row : list chars) :
  row <> [] -> Forall carried row ->
  parseCsvLine (joinComma (map csvEscape row)) = row.
Proof.
  intros Hne Hrow. destruct row as [| field row]; [contradiction |].
  unfold parseCsvLine. rewrite parse_row by exact Hrow. reflexivity.
Qed.

Lemma csv_row_round_trip_exported_row :
  parseCsvLine (joinComma (map csvEscape
    [asChars "lens"; asChars "0"; asChars "aperture"; asChars "0.1"]))
  = [asChars "lens"; asChars "0"; asChars "aperture"; asChars "0.1"].
Proof.
  apply csv_row_round_trip.
  - discriminate.
  - repeat constructor.
Defined.

(** A quote alone does not make [csvEscape] wrap the field, and the doubled
    quotes are then lost on the way back. *)
Lemma csv_bare_quote_is_lost :
  let field := asChars "a" ++ [quoteChar] ++ asChars "b" in
  csvEscape field = asChars "a" ++ [quoteChar; quoteChar] ++ asChars "b" /\
  parseCsvLine (csvEscape field) = [asChars "ab"].
Proof. split; reflexivity. Qed.

(** ** The receiver factory, and the properties at sample systems *)

(** X28.  [createPV] replaces a missing dimension by 0, which validation then
    rejects: the receiver it builds draws the diameter (width, height) error
    exactly when the dimension of its shape is missing or not positive, and
    the dimensions of the other shape are never reported. *)
Theorem createPV_missing_dimension (params : PVParams) (efficiency position : R) :
  (In msgDiameter (validatePV (createPV circular params efficiency position)) <->
     match paramDiameter params with Some d => d <= 0 | None => True end) /\
  (In msgWidth (validatePV (createPV rectangular params efficiency position)) <->
     match paramWidth params with Some w => w <= 0 | None => True end) /\
  (In msgHeight (validatePV (createPV rectangular params efficiency position)) <->
     match paramHeight params with Some h => h <= 0 | None => True end) /\
  ~ In msgWidth (validatePV (createPV circular params efficiency position)) /\
  ~ In msgHeight (validatePV (createPV circular params efficiency position)) /\
  ~ In msgDiameter (validatePV (createPV rectangular params efficiency position)).
Proof.
  unfold createPV, createCircularPV, createRectangularPV, validatePV, pushIf, orZero,
    msgDiameter, msgWidth, msgHeight.
  cbn [PV.shape PV.width PV.height PV.diameter PV.efficiency PV.position].
  destruct (paramDiameter params) as [d |], (paramWidth params) as [w |],
    (paramHeight params) as [h |];
    repeat match goal with
           | |- context [Rle_dec ?a ?b] => destruct (Rle_dec a b)
           | |- context [Rlt_dec ?a ?b] => destruct (Rlt_dec a b)
           end;
    simpl;
    (repeat split; try lra; try exact I;
     try (intros; simpl in *; intuition (try discriminate; try lra))).
Qed.

Lemma samplePV_validated : validatePV samplePV = [].
Proof. unfold validatePV, pushIf. simpl. cases_cmp. reflexivity. Qed.

Lemma buildSystemMatrix_order_independent_at_sample :
  buildSystemMatrix [sampleLens; secondLens] 300
  = buildSystemMatrix [secondLens; sampleLens] 300.
Proof.
  apply (buildSystemMatrix_order_independent [sampleLens; secondLens]
           [secondLens; sampleLens] 300).
  apply perm_swap.
Defined.

Lemma buildSystemMatrix_composes_at_sample :
  buildSystemMatrix [sampleLens; secondLens] 300
  = composedMatrix [sampleLens; secondLens] 300.
Proof.
  apply (buildSystemMatrix_composes sampleLens [secondLens] 300).
  - simpl. lra.
  - simpl. lra.
Defined.

Lemma trace_exit_angle_at_sample :
  Trace.outputAngle (traceRaysThroughSystem (Sys.mk [sampleLens] samplePV) 30) = 30.
Proof.
  destruct (trace_exit_angle_and_centre sampleLens samplePV 30) as (_ & Horigin & _).
  - simpl. lra.
  - simpl. lra.
  - apply Horigin. reflexivity.
Defined.

Lemma spotDiameter_single_lens_at_sample :
  calculateSpotDiameterSingleLens sampleLens (0 + 200 + 50) 30
  = calculateSpotDiameterSingleLens sampleLens (0 + 200 - 50) 30.
Proof.
  destruct (spotDiameter_single_lens sampleLens 30) as (_ & _ & Hsym & _).
  - simpl. lra.
  - simpl. lra.
  - apply (Hsym 50). simpl. lra.
Defined.

Lemma concentration_from_diameters_at_sample :
  let t := traceRaysThroughSystem (Sys.mk [sampleLens] samplePV) 0 in
  Trace.concentrationRatio t = (Lens.aperture sampleLens / Trace.spotDiameter t) ^ 2.
Proof.
  apply (concentration_from_diameters sampleLens samplePV 0). simpl. lra.
Defined.

Lemma inscribed_disc_fits_at_sample :
  PI * (calculatePVInscribedDiameter samplePV / 2) ^ 2 <= calculatePVArea samplePV.
Proof.
  apply (inscribed_disc_fits samplePV). exact samplePV_validated.
Defined.

Lemma overlap_within_receiver_at_sample :
  0 <= calculateOverlapArea samplePV 10 0 40
    <= Rmin (PI * 40 ^ 2) (calculatePVArea samplePV).
Proof.
  apply (overlap_within_receiver samplePV 10 0 40);
    [reflexivity | exact samplePV_validated | lra].
Defined.

Lemma outputPower_within_full_aperture_at_sample :
  Power.outputPower (powerOf brightSystem (Light.mk 1 60))
    <= 1 * (PI * (2 / 2) ^ 2).
Proof.
  apply (outputPower_within_full_aperture brightLens brightPV (Light.mk 1 60)).
  - reflexivity.
  - exact brightSystem_validated.
  - simpl. lra.
Defined.

(** X18.  While the receiver captures the whole spot, the output power of a
    single lens at a position that is not negative is in closed form:
    intensity, transmittance, efficiency, the FULL aperture area and the
    cosine (floored at 0) of the exit angle; the spot size cancels. *)
Theorem outputPower_when_spot_captured
  (lens : Lens) (pv : PhotovoltaicCell) (light : LightSource) :
  let t := traceRaysThroughSystem (Sys.mk [lens] pv) (Light.zenithAngle light) in
  0 <= Lens.position lens ->
  Trace.effectiveArea t = Trace.spotArea t ->
  Power.outputPower (powerOf (Sys.mk [lens] pv) light) =
  Light.intensity light * Lens.transmittance lens * PV.efficiency pv
  * (PI * (Lens.aperture lens / 2) ^ 2)
  * Rmax 0 (cos ((1 - Lens.position lens / Lens.focalLength lens)
                 * degToRad (Light.zenithAngle light))).
Proof. apply captured_outputPower. Qed.

Lemma outputPower_when_spot_captured_at_sample :
  Power.outputPower (powerOf brightSystem (Light.mk 1 60)) =
  1 * 0.9 * 0.9 * (PI * (2 / 2) ^ 2) * Rmax 0 (cos ((1 - 0 / 1) * degToRad 60)).
Proof.
  apply (outputPower_when_spot_captured brightLens brightPV (Light.mk 1 60)).
  - simpl. lra.
  - exact (proj2 bright_spot_60).
Defined.

Lemma output_within_input_at_normal_incidence_at_sample :
  let p := powerOf brightSystem (Light.mk 1 0) in
  0 <= Power.outputPower p <= Power.inputPower p.
Proof.
  apply (output_within_input_at_normal_incidence brightLens brightPV 1).
  - exact brightSystem_validated.
  - lra.
Defined.

(** X20.  The earlier revision keeps the energy balance for a rectangular
    receiver and lenses whose focal lengths are not 0, whatever their
    number: with an intensity that is not negative and a receiver efficiency
    in [[0, 1]], its [outputPower] never exceeds its [inputPower]. *)
Theorem legacy_balance_with_rectangular_receiver
  (system : OpticalSystem) (light : LightSource) :
  PV.shape (Sys.pv system) = rectangular ->
  Forall (fun lens => Lens.focalLength lens <> 0) (Sys.lenses system) ->
  0 <= Light.intensity light ->
  0 <= PV.efficiency (Sys.pv system) <= 1 ->
  let p := Legacy.calculatePower system light in
  0 <= Power.outputPower p <= Power.inputPower p.
Proof. intros _ _. apply legacy_output_within_input. Qed.

Lemma legacy_balance_with_rectangular_receiver_at_sample :
  let p := Legacy.calculatePower (Sys.mk [sampleLens; secondLens] samplePV)
             (Light.mk 1000 30) in
  0 <= Power.outputPower p <= Power.inputPower p.
Proof.
  apply (legacy_balance_with_rectangular_receiver
           (Sys.mk [sampleLens; secondLens] samplePV) (Light.mk 1000 30)).
  - reflexivity.
  - repeat constructor; simpl; lra.
  - simpl. lra.
  - simpl. lra.
Defined.

Lemma legacy_trace_agrees_at_sample :
  Legacy.spotDiameter (Legacy.traceRaysThroughSystem (Sys.mk [sampleLens] samplePV) 30)
  = Trace.spotDiameter (traceRaysThroughSystem (Sys.mk [sampleLens] samplePV) 30).
Proof.
  destruct (legacy_trace_agrees_away_from_focus sampleLens samplePV 30) as (_ & HD & _).
  - right. right. simpl.
    replace (300 - 0 - 200) with 100 by ring. rewrite Rabs_right; lra.
  - exact HD.
Defined.

(** ** Power against zenith angle, from a captured spot (C4) *)






(** * The engine on doubles *)

(** ** The order of the doubles *)

Section DoubleRank.
Import Floats.
Import Double.
Import DoubleSamples.
Import DoubleOrder.
Local Open Scope Z_scope.









End DoubleRank.

(** ** Special values: the spot floor (C6) and the overlap (C10) *)

Section DoubleSpecialValues.
Import Floats.
Import Double.
Import DoubleSamples.
Import DoubleOrder.
Local Open Scope float_scope.
Context {M : MathLib}.

Lemma add_nan_r (x : float) : x + nan = nan.
Proof. apply Prim2SF_inj. rewrite add_spec. destruct (Prim2SF x); reflexivity. Qed.

Lemma mul_nan_r (x : float) : x * nan = nan.
Proof. apply Prim2SF_inj. rewrite mul_spec. destruct (Prim2SF x); reflexivity. Qed.

(** C6 fails on the code.  A lens with aperture 0 and focal length 0 before
    a receiver at distance 1, at zenith 0: the trace is valid, and its spot
    diameter is [0 * Infinity = NaN], which [Math.max (_, 0.001)] returns
    as it is; so the diameter is not at least 0.001. *)
Theorem spot_floor_lost_at_zero_focal_length :
  let t := traceRaysThroughSystem (Sys.mk [zeroLens] unitPV) 0 in
  Trace.isValid t = true /\ Trace.spotDiameter t = nan /\
  (0.001 <=? Trace.spotDiameter t) = false.
Proof.
  cbv zeta.
  assert (H : Trace.spotDiameter (traceRaysThroughSystem (Sys.mk [zeroLens] unitPV) 0) = nan).
  { unfold traceRaysThroughSystem. cbn [Sys.lenses Sys.pv Trace.spotDiameter].
    unfold calculateSpotDiameterSingleLens, calculateEffectiveAperture.
    replace (degToRad 0) with 0 by reflexivity.
    rewrite Math_cos_zero. reflexivity. }
  split; [reflexivity |]. split; [exact H |]. rewrite H. reflexivity.
Qed.

(** Inner tangency: the spot of radius 0.025 centred at 0.275 touches the
    rim of the receiver of radius 0.3.  The test [distance <= |r1 - r2|]
    fails by one rounding ([0.3 - 0.025] is below [0.275]), the quotient of
    the second arc cosine rounds above 1, and the area is NaN. *)
Lemma tangent_overlap_is_nan : calculateOverlapArea tangentPV 0.275 0 0.025 = nan.
Proof.
  unfold calculateOverlapArea. cbn [PV.shape PV.diameter tangentPV].
  set (q := (_ / (2 * _ * (0.6 / 2)))).
  rewrite (Math_acos_above q) by reflexivity.
  vm_compute. rewrite add_nan_r. reflexivity.
Qed.

(** The same on a validated system: the sample lens at 30 degrees, with the
    cosine and tangent of 30 degrees as the engine returns them. *)
Lemma grazed_trace :
  Math_cos (degToRad 30) = 0.8660254037844387 ->
  Math_tan (degToRad 30) = 0.5773502691896257 ->
  let t := traceRaysThroughSystem (Sys.mk [sampleLens] grazedPV) 30 in
  Trace.isValid t = true /\
  Trace.spotDiameter t = 43.30127018922194 /\
  Trace.spotCenterY t = 173.20508075688772 /\
  Trace.effectiveArea t = nan.
Proof.
  intros Hcos Htan. cbv zeta.
  unfold traceRaysThroughSystem.
  cbn [Sys.lenses Sys.pv Trace.isValid Trace.spotDiameter Trace.spotCenterY Trace.effectiveArea
       sampleLens grazedPV].
  unfold calculateSpotDiameterSingleLens, calculateEffectiveAperture.
  cbn [Lens.aperture Lens.focalLength Lens.position PV.position].
  rewrite Hcos, Htan.
  split; [reflexivity |]. split; [reflexivity |]. split; [reflexivity |].
  unfold calculateOverlapArea. cbn [PV.shape PV.diameter].
  match goal with
  | |- context [_ * Math_acos _ + _ * Math_acos ?b] => set (q := b)
  end.
  rewrite (Math_acos_above q) by reflexivity.
  vm_compute. rewrite add_nan_r. reflexivity.
Qed.

Lemma mul_nan_l (x : float) : nan * x = nan.
Proof. apply Prim2SF_inj. rewrite mul_spec. reflexivity. Qed.

Lemma nan_leb (x : float) : (nan <=? x) = false.
Proof. rewrite leb_spec. reflexivity. Qed.

Lemma nan_outputPower (lens : Lens.t) (pv : PV.t) (light : Light.t) :
  Trace.effectiveArea (traceRaysThroughSystem (Sys.mk [lens] pv) (Light.zenithAngle light))
    = nan ->
  Power.outputPower (powerOf (Sys.mk [lens] pv) light) = nan.
Proof.
  intro Heff. unfold powerOf, calculatePower.
  change (Trace.isValid (traceRaysThroughSystem (Sys.mk [lens] pv) (Light.zenithAngle light)))
    with true.
  cbn [negb nth_error Sys.lenses Power.outputPower].
  rewrite Heff, mul_nan_r. apply mul_nan_l.
Qed.

(** C10 fails on the code.  Where the spot touches the rim of a circular
    receiver from inside, [calculateOverlapArea] returns NaN; on the sample
    lens at 30 degrees this happens in a valid trace, whose [effectiveArea]
    is then neither at least 0 nor at most [spotArea], and the output power
    of [calculatePower] is NaN. *)
Theorem overlap_is_nan_for_grazing_spot :
  calculateOverlapArea tangentPV 0.275 0 0.025 = nan /\
  (Math_cos (degToRad 30) = 0.8660254037844387 ->
   Math_tan (degToRad 30) = 0.5773502691896257 ->
   let system := Sys.mk [sampleLens] grazedPV in
   let t := traceRaysThroughSystem system 30 in
   Trace.isValid t = true /\
   Trace.effectiveArea t = nan /\
   (0 <=? Trace.effectiveArea t) = false /\
   (Trace.effectiveArea t <=? Trace.spotArea t) = false /\
   Power.outputPower (powerOf system (Light.mk 1000 30)) = nan).
Proof.
  split; [exact tangent_overlap_is_nan |].
  intros Hcos Htan system t.
  destruct (grazed_trace Hcos Htan) as (Hvalid & _ & _ & Heff). fold system t in Hvalid, Heff.
  split; [exact Hvalid |]. split; [exact Heff |].
  rewrite Heff. split; [reflexivity |]. split; [apply nan_leb |].
  apply nan_outputPower. exact Heff.
Qed.
End DoubleSpecialValues.

(** ** The sweep on doubles (C2) *)

Section DoubleSweep.
Import Floats.
Import Double.
Import DoubleSamples.
Import DoubleOrder.
Local Open Scope float_scope.
Context {M : MathLib}.

Lemma double_calculatePower_returns (system : Sys.t) (light : Light.t) :
  calculatePower system light = Done (powerOf system light).
Proof.
  unfold powerOf. unfold calculatePower, traceRaysThroughSystem.
  destruct (Sys.lenses system) as [| lens [| second rest]]; reflexivity.
Qed.

Lemma powerOf_invalid_system (system : Sys.t) (light : Light.t) :
  List.length (Sys.lenses system) <> 1%nat ->
  powerOf system light = invalidPower.
Proof.
  intro Hlen. unfold powerOf, calculatePower, traceRaysThroughSystem.
  destruct (Sys.lenses system) as [| lens [| second rest]];
    try reflexivity. contradiction Hlen. reflexivity.
Qed.

Lemma runningAngle_shift (startAngle step : float) (k : nat) :
  runningAngle (startAngle + step) step k = runningAngle startAngle step (S k).
Proof.
  unfold runningAngle. induction k as [| k IH]; [reflexivity |].
  change (Nat.iter (S k) (fun angle => angle + step) (startAngle + step))
    with (Nat.iter k (fun angle => angle + step) (startAngle + step) + step).
  rewrite IH. reflexivity.
Qed.

Lemma sweepPoints_shift (system : Sys.t) (intensity startAngle step : float) (n : nat) :
  sweepPoints system intensity startAngle step (S n) =
  sweepPoint system intensity startAngle
    :: sweepPoints system intensity (startAngle + step) step n.
Proof.
  unfold sweepPoints. cbn [seq map]. f_equal.
  rewrite <- seq_shift, map_map. apply map_ext. intro k.
  rewrite runningAngle_shift. reflexivity.
Qed.

(** The loop from [angle] returns at the first running angle that fails
    [<= endAngle], with one entry for each running angle before it. *)
Lemma double_sweepLoop_stop
  (system : Sys.t) (intensity endAngle step : float) (n : nat) :
  forall (angle : float) (results : list Sweep.t) (fuel : nat),
  (forall k, (k < n)%nat -> (runningAngle angle step k <=? endAngle) = true) ->
  (runningAngle angle step n <=? endAngle) = false ->
  (n < fuel)%nat ->
  sweepLoop fuel system intensity endAngle step angle results =
  Done (results ++ sweepPoints system intensity angle step n)%list.
Proof.
  induction n as [| n IH]; intros angle results fuel Hin Hout Hfuel.
  - destruct fuel as [| fuel]; [lia |]. cbn [sweepLoop].
    change (runningAngle angle step 0) with angle in Hout. rewrite Hout.
    unfold sweepPoints. cbn [seq map]. rewrite app_nil_r. reflexivity.
  - destruct fuel as [| fuel]; [lia |]. cbn [sweepLoop].
    assert (H0 : (angle <=? endAngle) = true) by (apply (Hin 0%nat); lia).
    rewrite H0, double_calculatePower_returns.
    rewrite IH.
    + rewrite sweepPoints_shift, <- app_assoc. reflexivity.
    + intros k Hk. rewrite runningAngle_shift. apply Hin. lia.
    + rewrite runningAngle_shift. exact Hout.
    + lia.
Qed.

(** While every running angle passes the test, the loop is still running
    when the fuel is spent, however much there is. *)
Lemma double_sweepLoop_spins
  (system : Sys.t) (intensity endAngle step : float) (fuel : nat) :
  forall (angle : float) (results : list Sweep.t),
  (forall k, (runningAngle angle step k <=? endAngle) = true) ->
  sweepLoop fuel system intensity endAngle step angle results = OutOfFuel.
Proof.
  induction fuel as [| fuel IH]; intros angle results Hin; [reflexivity |].
  cbn [sweepLoop]. rewrite (Hin 0%nat : (angle <=? endAngle) = true).
  rewrite double_calculatePower_returns. apply IH.
  intro k. rewrite runningAngle_shift. apply Hin.
Qed.



(** The double 0.1 lies above one tenth, so the exact quotient of the doubles
    1 and 0.1 is below 10. *)
Lemma tenth_double_exceeds_one_tenth :
  Prim2SF 0.1 = S754_finite false 7205759403792794 (-56) /\
  (2 ^ 56 < 10 * 7205759403792794)%Z.
Proof. split; reflexivity. Qed.

(** The running angles of 0 to 1 by 0.1. *)
Lemma tenths_running_angles :
  map (runningAngle 0 0.1) (seq 0 12) =
  [0; 0.1; 0.2; 0.30000000000000004; 0.4; 0.5; 0.6; 0.7; 0.7999999999999999;
   0.8999999999999999; 0.9999999999999999; 1.0999999999999999].
Proof. vm_compute. reflexivity. Qed.

(** From 0 to 1 by 0.1 the sweep lists 11 angles, the last of them
    0.9999999999999999. *)
Lemma sweep_tenths_has_eleven_entries (system : Sys.t) (intensity : float) :
  forall fuel, (11 < fuel)%nat ->
  exists results,
    sweepAngle fuel system intensity 0 1 0.1 = Done results /\
    List.length results = 11%nat /\
    map Sweep.angle results =
      [0; 0.1; 0.2; 0.30000000000000004; 0.4; 0.5; 0.6; 0.7; 0.7999999999999999;
       0.8999999999999999; 0.9999999999999999].
Proof.
  intros fuel Hfuel. exists (sweepPoints system intensity 0 0.1 11). split; [| split].
  - unfold sweepAngle.
    rewrite (double_sweepLoop_stop system intensity 1 0.1 11); try assumption.
    + reflexivity.
    + intros k Hk.
      do 11 (destruct k as [| k]; [vm_compute; reflexivity |]). lia.
    + vm_compute. reflexivity.
  - unfold sweepPoints. rewrite length_map, length_seq. reflexivity.
  - unfold sweepPoints. rewrite map_map. cbn [Sweep.angle sweepPoint].
    vm_compute. reflexivity.
Qed.

Lemma runningAngle_fixed (angle step : float) (k : nat) :
  angle + step = angle -> runningAngle angle step k = angle.
Proof.
  intro Hfix. induction k as [| k IH]; [reflexivity |].
  change (runningAngle angle step (S k)) with (runningAngle angle step k + step).
  rewrite IH. exact Hfix.
Qed.

(** A positive step can be absorbed by the rounding of [angle + step]. *)
Lemma sweep_absorbed_step_never_returns (system : Sys.t) (intensity : float) (fuel : nat) :
  (0 <? 1e-15) = true /\
  sweepAngle fuel system intensity 90 90 1e-15 = OutOfFuel.
Proof.
  split; [reflexivity |].
  unfold sweepAngle. apply double_sweepLoop_spins.
  intro k. rewrite runningAngle_fixed; reflexivity.
Qed.

(** A step of 0 is not rejected. *)
Lemma sweep_zero_step_never_returns (system : Sys.t) (intensity : float) (fuel : nat) :
  sweepAngle fuel system intensity 0 60 0 = OutOfFuel.
Proof.
  unfold sweepAngle. apply double_sweepLoop_spins.
  intro k. rewrite runningAngle_fixed; reflexivity.
Qed.

(** X24.  When the system does not hold exactly one lens, the sweep lists
    its running angles all the same, up to the first one beyond [endAngle],
    each with power 0 and efficiency 0. *)
Theorem sweepAngle_of_invalid_system_lists_zeros
  (system : Sys.t) (intensity startAngle endAngle step : float) (n : nat) :
  List.length (Sys.lenses system) <> 1%nat ->
  (forall k, (k < n)%nat -> (runningAngle startAngle step k <=? endAngle) = true) ->
  (runningAngle startAngle step n <=? endAngle) = false ->
  forall fuel, (n < fuel)%nat ->
    sweepAngle fuel system intensity startAngle endAngle step =
    Done (map (fun k => {| Sweep.angle := runningAngle startAngle step k;
                           Sweep.power := 0;
                           Sweep.efficiency := 0 |}) (seq 0 n)).
Proof.
  intros Hlen Hin Hout fuel Hfuel. unfold sweepAngle.
  rewrite (double_sweepLoop_stop system intensity endAngle step n) by assumption.
  cbn [app]. unfold sweepPoints. f_equal. apply map_ext. intro k.
  unfold sweepPoint. rewrite powerOf_invalid_system by exact Hlen. reflexivity.
Qed.




End DoubleSweep.

(** ** The properties on doubles at sample inputs *)

Section DoubleSamplesFacts.
Import Floats.
Import Double.
Import DoubleSamples.
Import DoubleOrder.
Local Open Scope float_scope.

Lemma overlap_is_nan_in_sample_trace :
  let t := traceRaysThroughSystem (M := tableMath) (Sys.mk [sampleLens] grazedPV) 30 in
  Trace.isValid t = true /\
  (Trace.effectiveArea t <=? Trace.spotArea t) = false.
Proof.
  intro t.
  destruct (proj2 (overlap_is_nan_for_grazing_spot (M := tableMath)) eq_refl eq_refl)
    as (Hvalid & _ & _ & Hle & _).
  split; [exact Hvalid | exact Hle].
Defined.


Lemma invalid_system_sweep_0_60_15 :
  sweepAngle (M := tableMath) 6 (Sys.mk [] unitPV) 1000 0 60 15 =
  Done (map (fun k => {| Sweep.angle := runningAngle 0 15 k;
                         Sweep.power := 0;
                         Sweep.efficiency := 0 |}) (seq 0 5)).
Proof.
  apply (sweepAngle_of_invalid_system_lists_zeros (M := tableMath)
           (Sys.mk [] unitPV) 1000 0 60 15 5).
  - simpl. discriminate.
  - intros k Hk. do 5 (destruct k as [| k]; [vm_compute; reflexivity |]). lia.
  - vm_compute. reflexivity.
  - lia.
Defined.
End DoubleSamplesFacts.
